(** * ML2 macro-model engine: panel, equations, Gauss-Seidel solver, engine

    A shallow embedding of [src/ml2] and the properties its specification
    states about it.

    Numbers.  Python floats are idealised as real numbers ([R]): rounding,
    overflow, infinities and NaN are outside the model.  Every comparison the
    code makes is kept as a boolean test on reals, every division by a
    computed quantity and every [math.log] stays partial and raises as in
    Python ([ZeroDivisionError], [ValueError]).

    Effects.  Exceptions are an error monad ([result]); the panel a solver
    mutates in place is passed explicitly; the engine, which holds a cached
    baseline object and copies it, runs over a small object store ([World]). *)

From Stdlib Require Import Reals Lra Lia ZArith List String Bool.
From Stdlib Require Import FunctionalExtensionality.
Import ListNotations.

Open Scope string_scope.
Open Scope list_scope.
Open Scope R_scope.


(** ** Exceptions and the error monad *)

Inductive exn : Type :=
| KeyError            (* a label missing from the DataFrame *)
| ZeroDivisionError   (* float division by zero *)
| ValueError (msg : string)
| Enlargement.        (* a write outside the frame: pandas would add a row or
                         a column filled with NaN, which the model has no
                         value for *)

Inductive result (A : Type) : Type :=
| Ok (a : A)
| Raise (e : exn).

Arguments Ok {A} a.
Arguments Raise {A} e.

Definition bind {A B : Type} (m : result A) (k : A -> result B) : result B :=
  match m with
  | Ok a => k a
  | Raise e => Raise e
  end.

Notation "x <- m ;; k" := (bind m (fun x => k))
  (at level 61, m at next level, right associativity).
Notation "' p <- m ;; k" := (bind m (fun x => match x with p => k end))
  (at level 61, p pattern, m at next level, right associativity).

(** [for x in l: st = body(st, x)] with exceptions. *)
Fixpoint foldM {A S : Type} (body : S -> A -> result S) (l : list A) (st : S)
  : result S :=
  match l with
  | [] => Ok st
  | x :: l' => st' <- body st x ;; foldM body l' st'
  end.

(** [[f(x) for x in l]] with exceptions. *)
Fixpoint mapM {A B : Type} (f : A -> result B) (l : list A) : result (list B) :=
  match l with
  | [] => Ok []
  | x :: l' => y <- f x ;; ys <- mapM f l' ;; Ok (y :: ys)
  end.

(** ** Float comparisons and partial float operations *)

Definition Rltb (x y : R) : bool := if Rlt_dec x y then true else false.
Definition Rleb (x y : R) : bool := if Rle_dec x y then true else false.
Definition Reqb (x y : R) : bool := if Req_dec_T x y then true else false.

Notation "x <? y" := (Rltb x y) : R_scope.
Notation "x <=? y" := (Rleb x y) : R_scope.
Notation "x >? y" := (Rltb y x) : R_scope.
Notation "x =? y" := (Reqb x y) : R_scope.

(** Python's [a / b] on floats. *)
Definition fdiv (a b : R) : result R :=
  if b =? 0 then Raise ZeroDivisionError else Ok (a / b).

(** [math.log]. *)
Definition flog (x : R) : result R :=
  if 0 <? x then Ok (ln x) else Raise (ValueError "math domain error").

(** Python's two-argument [max] and [min]: the first argument wins ties. *)
Definition fmax (a b : R) : R := if b >? a then b else a.
Definition fmin (a b : R) : R := if b <? a then b else a.

(** [abs]. *)
Definition fabs (x : R) : R := if x <? 0 then - x else x.

(** ** types.py *)

Definition Year := Z.
Definition VarName := string.

Inductive VariableKind := EXOGENOUS | PRE_RECURSIVE | INTERDEPENDENT | POST_RECURSIVE.
Inductive EquationType := IDENTITY | BEHAVIORAL | TECHNICAL.
Inductive ConvergenceStatus := CONVERGED | MAX_ITERATIONS | DIVERGED.

Definition status_name (st : ConvergenceStatus) : string :=
  match st with
  | CONVERGED => "CONVERGED"
  | MAX_ITERATIONS => "MAX_ITERATIONS"
  | DIVERGED => "DIVERGED"
  end.

(** ** Python dictionaries, in insertion order *)

(** Keys: the two hashable types the code uses, [str] and [int]. *)
Class Key (K : Type) := {
  key_eqb : K -> K -> bool;
  key_eqb_spec : forall a b, reflect (a = b) (key_eqb a b)
}.

#[export] Instance string_Key : Key string :=
  {| key_eqb := String.eqb; key_eqb_spec := String.eqb_spec |}.

#[export] Instance Z_Key : Key Z :=
  {| key_eqb := Z.eqb; key_eqb_spec := Z.eqb_spec |}.

Definition dict (K V : Type) := list (K * V).

Fixpoint dict_get {K V} `{Key K} (d : dict K V) (k : K) : option V :=
  match d with
  | [] => None
  | (k', v) :: d' => if key_eqb k' k then Some v else dict_get d' k
  end.

(** [d[k] = v]: replaces in place, or appends. *)
Fixpoint dict_set {K V} `{Key K} (d : dict K V) (k : K) (v : V) : dict K V :=
  match d with
  | [] => [(k, v)]
  | (k', v') :: d' =>
      if key_eqb k' k then (k', v) :: d' else (k', v') :: dict_set d' k v
  end.

(** [d.update(other)] *)
Definition dict_update {K V} `{Key K} (d other : dict K V) : dict K V :=
  fold_left (fun acc kv => dict_set acc (fst kv) (snd kv)) other d.

(** [k in d] *)
Definition dict_mem {K V} `{Key K} (d : dict K V) (k : K) : bool :=
  match dict_get d k with Some _ => true | None => false end.

(** ** state.py: the panel *)

(** The wrapped DataFrame: its index (years), its columns and its cells. *)
Record SimulationState := mkState {
  years : list Year;
  columns : list VarName;
  cell : VarName -> Year -> R
}.

Definition has_var (s : SimulationState) (var : VarName) : bool :=
  existsb (String.eqb var) (columns s).

Definition has_year (s : SimulationState) (t : Year) : bool :=
  existsb (Z.eqb t) (years s).

Definition sim_years (s : SimulationState) : list Year := tl (years s).

(** [float(self._df.at[t, var])] *)
Definition get (s : SimulationState) (var : VarName) (t : Year) : result R :=
  if has_var s var && has_year s t then Ok (cell s var t) else Raise KeyError.

(** The frame with one cell overwritten. *)
Definition write (s : SimulationState) (var : VarName) (t : Year) (value : R)
  : SimulationState :=
  mkState (years s) (columns s)
    (fun v y => if String.eqb v var && Z.eqb y t then value else cell s v y).

(** [self._df.at[t, var] = value].  On labels of the frame this overwrites
    one cell.  (On a missing label pandas enlarges the frame with NaN cells;
    that is [Enlargement].) *)
Definition set (s : SimulationState) (var : VarName) (t : Year) (value : R)
  : result SimulationState :=
  if has_var s var && has_year s t then Ok (write s var t value)
  else Raise Enlargement.

Definition lag (s : SimulationState) (var : VarName) (t : Year) (n : Z) : result R :=
  get s var (t - n)%Z.

Definition dln (s : SimulationState) (var : VarName) (t : Year) : result R :=
  cur <- get s var t ;;
  prev <- lag s var t 1 ;;
  if (cur <=? 0) || (prev <=? 0) then Ok 0
  else lc <- flog cur ;; lp <- flog prev ;; Ok (lc - lp).

Definition grt (s : SimulationState) (var : VarName) (t : Year) : result R :=
  prev <- lag s var t 1 ;;
  if prev =? 0 then Ok 0
  else cur <- get s var t ;; q <- fdiv (cur - prev) prev ;; Ok (q * 100).

Definition d (s : SimulationState) (var : VarName) (t : Year) : result R :=
  cur <- get s var t ;; prev <- lag s var t 1 ;; Ok (cur - prev).

(** [mavg(var, t, n)]: the mean of the cells of [t], [t-1], ..., [t-n+1]
    whose year is in the index, [0.0] when there is none.  ([np.mean] is the
    sum divided by the count.) *)
Definition mavg (s : SimulationState) (var : VarName) (t : Year) (n : Z) : result R :=
  vals <- mapM (fun i => get s var (t - i)%Z)
            (filter (fun i => has_year s (t - i)%Z)
                    (map Z.of_nat (seq 0 (Z.to_nat n)))) ;;
  match vals with
  | [] => Ok 0
  | _ :: _ => Ok (fold_right Rplus 0 vals / INR (List.length vals))
  end.

(** [self._df[var] = default] when the column is new. *)
Definition add_var (s : SimulationState) (var : VarName) (default : R)
  : SimulationState :=
  if has_var s var then s
  else mkState (years s) (columns s ++ [var])
         (fun v y => if String.eqb v var then default else cell s v y).

(** A deep copy has the same contents; that it is a different object is
    what the object store of the engine records. *)
Definition copy (s : SimulationState) : SimulationState :=
  mkState (years s) (columns s) (cell s).

Definition to_dict (s : SimulationState) (variables : list VarName)
  : dict string (dict Z R) :=
  let cols := match variables with [] => columns s | _ => variables end in
  fold_left
    (fun acc var =>
       dict_set acc var
         (fold_left (fun m yr => dict_set m yr (cell s var yr)) (years s) []))
    (filter (has_var s) cols) [].

(** ** variables.py *)

Module variables.

(** The classification sets, in the order they are written. *)
Definition EXOGENOUS : list VarName :=
  ["TFP_"; "NAT_"; "NG_"; "XWORLD_"; "PCOMP_"; "PM_";
   "RNOM_"; "RMORT_"; "ITPC0R_"; "CSSFR_"; "CSSHR_";
   "IG_"; "TGH_"; "DS_"].

Definition INTERDEPENDENT : list VarName :=
  ["K_"; "Y_"; "YSTAR_"; "YGAP_"; "ZKF_";
   "LH_"; "L_"; "U_"; "UR_";
   "W_"; "WG_"; "ULC_"; "COST_";
   "PC_"; "PIF_"; "PIH_"; "PIG_"; "PX_";
   "RREAL_"; "PROFIT_"; "CG_"; "YDH_";
   "C_"; "IF_"; "IH_"; "DD_";
   "X_"; "M_"; "GDP_"; "PGDP_"; "GDPN_";
   "GRECEIPTS_"; "GEXPENSE_"; "D_"; "B_"].

Definition POST_RECURSIVE : list VarName :=
  ["I_"; "PROD_"; "WB_"; "DR_"; "BR_";
   "XN_"; "MN_"; "TB_"; "TBR_"].

Definition KEY_INDICATORS : list VarName := ["GDP_"; "PC_"; "DR_"; "UR_"].

End variables.

(** ** parameters.py *)

Module Scalars.

Record ML2Scalars := mkScalars {
  alpha : R;
  delta : R;
  tfp_growth : R;
  lh0 : R;
  lh1 : R;
  lh2 : R;
  c0 : R;
  c1 : R;
  c2 : R;
  c3 : R;
  c4 : R;
  c5 : R;
  c6 : R;
  if0 : R;
  if1 : R;
  if2 : R;
  if3 : R;
  if4 : R;
  if5 : R;
  if6 : R;
  ih0 : R;
  ih1 : R;
  ih2 : R;
  ih3 : R;
  ih4 : R;
  w0 : R;
  w1 : R;
  w2 : R;
  w3 : R;
  w4 : R;
  w5 : R;
  pc0 : R;
  pc1 : R;
  pc2 : R;
  pc3 : R;
  pc4 : R;
  pc5 : R;
  pc_vat : R;
  pif1 : R;
  pif2 : R;
  pif3 : R;
  pih1 : R;
  pih2 : R;
  pih3 : R;
  pig1 : R;
  pig2 : R;
  px1 : R;
  px2 : R;
  px3 : R;
  cost_w : R;
  cost_pm : R;
  x0 : R;
  x1 : R;
  x2 : R;
  x3 : R;
  x4 : R;
  x5 : R;
  m0 : R;
  m1 : R;
  m2 : R;
  m3 : R;
  m4 : R;
  m5 : R;
  tax_prog : R;
  css_emp_rate : R;
  css_house_rate : R;
  vat_rate : R;
  debt_rate : R;
  auto_stab : R;
  vig_mult : R;
  dth_mult : R;
  tgh_mult : R;
  ng_mult : R;
  wgrr_mult : R;
  wr_mult : R;
  vat_gdp : R;
  cssemp_gdp : R;
  csshouse_gdp : R;
  gdp_persistence : R;
  okun : R;
  nairu : R;
  pop_growth : R;
  nat_growth : R;
  pub_emp_share : R;
  gdp_base : R;
  k_base : R;
  tfp_base : R;
  l_base : R;
  nat_base : R;
  ng_base : R;
  c_base : R;
  if_base : R;
  ih_base : R;
  ig_base : R;
  x_base : R;
  m_base : R;
  ydh_base : R;
  w_base : R;
  pc_base : R;
  deficit_base : R;
  debt_gdp : R;
  r_nominal : R;
  world_growth : R;
  pm_growth : R;
  pcomp_growth : R
}.

(** [ML2Scalars()]: every field at its declared default. *)
Definition default : ML2Scalars := {|
  alpha := 0.675;
  delta := 0.05;
  tfp_growth := 0.007;
  lh0 := (-0.002);
  lh1 := 0.45;
  lh2 := (-0.12);
  c0 := 0.003;
  c1 := 0.55;
  c2 := (-0.15);
  c3 := (-0.08);
  c4 := (-0.10);
  c5 := 0.85;
  c6 := 0.30;
  if0 := 0.002;
  if1 := 0.35;
  if2 := 0.15;
  if3 := (-0.10);
  if4 := 0.20;
  if5 := (-0.08);
  if6 := 0.90;
  ih0 := 0.001;
  ih1 := 0.40;
  ih2 := (-0.25);
  ih3 := (-0.06);
  ih4 := 0.80;
  w0 := 0.002;
  w1 := 0.95;
  w2 := 0.60;
  w3 := (-0.50);
  w4 := (-0.08);
  w5 := 0.55;
  pc0 := 0.001;
  pc1 := 0.70;
  pc2 := 0.20;
  pc3 := 0.05;
  pc4 := (-0.10);
  pc5 := 0.90;
  pc_vat := 0.38;
  pif1 := 0.60;
  pif2 := 0.30;
  pif3 := (-0.08);
  pih1 := 0.50;
  pih2 := 0.25;
  pih3 := (-0.06);
  pig1 := 0.55;
  pig2 := 0.25;
  px1 := 0.40;
  px2 := 0.55;
  px3 := (-0.12);
  cost_w := 0.65;
  cost_pm := 0.35;
  x0 := 0.002;
  x1 := 0.80;
  x2 := (-0.30);
  x3 := (-0.10);
  x4 := 1.00;
  x5 := (-0.50);
  m0 := 0.001;
  m1 := 0.70;
  m2 := 0.20;
  m3 := (-0.08);
  m4 := 1.10;
  m5 := 0.40;
  tax_prog := 1.10;
  css_emp_rate := 0.30;
  css_house_rate := 0.13;
  vat_rate := 0.21;
  debt_rate := 0.03;
  auto_stab := 0.50;
  vig_mult := 0.00022;
  dth_mult := (-0.00008);
  tgh_mult := 0.20;
  ng_mult := 0.018;
  wgrr_mult := 0.08;
  wr_mult := 0.05;
  vat_gdp := (-0.22);
  cssemp_gdp := (-0.12);
  csshouse_gdp := (-0.07);
  gdp_persistence := 0.35;
  okun := (-0.30);
  nairu := 0.08;
  pop_growth := 0.003;
  nat_growth := 0.005;
  pub_emp_share := 0.18;
  gdp_base := 387.0;
  k_base := 950.0;
  tfp_base := 1.0;
  l_base := 4350.0;
  nat_base := 4750.0;
  ng_base := 810.0;
  c_base := 200.0;
  if_base := 50.0;
  ih_base := 22.0;
  ig_base := 10.0;
  x_base := 320.0;
  m_base := 310.0;
  ydh_base := 210.0;
  w_base := 38.0;
  pc_base := 1.0;
  deficit_base := (-0.027);
  debt_gdp := 1.00;
  r_nominal := 0.03;
  world_growth := 0.03;
  pm_growth := 0.015;
  pcomp_growth := 0.015
|}.

End Scalars.

Definition ML2Scalars : Type := Scalars.ML2Scalars.

(** ** equations/base.py *)

(** [safe_exp(x, limit=0.5)] *)
Definition safe_exp (x limit : R) : R :=
  let x := fmax (- limit) (fmin limit x) in
  exp x.

Record Equation := mkEquation {
  name : VarName;
  equation_type : EquationType;
  depends_on : list VarName;
  compute : SimulationState -> Year -> ML2Scalars -> result R
}.

(** ** equations/production.py *)

Module production.
Import Scalars.

Definition TFPEquation : Equation := {|
  name := "TFP_"; equation_type := TECHNICAL; depends_on := [];
  compute := fun state t scalars =>
    prev <- lag state "TFP_" t 1 ;;
    Ok (prev * (1 + tfp_growth scalars)) |}.

Definition CapitalEquation : Equation := {|
  name := "K_"; equation_type := IDENTITY; depends_on := ["IF_"];
  compute := fun state t scalars =>
    if_ <- get state "IF_" t ;;
    k_1 <- lag state "K_" t 1 ;;
    Ok (if_ + (1 - delta scalars) * k_1) |}.

Definition OutputEquation : Equation := {|
  name := "Y_"; equation_type := BEHAVIORAL; depends_on := ["TFP_"; "K_"; "LH_"];
  compute := fun state t scalars =>
    tfp <- get state "TFP_" t ;;
    k <- get state "K_" t ;;
    lh <- get state "LH_" t ;;
    if (k <=? 0) || (lh <=? 0) || (tfp <=? 0) then lag state "Y_" t 1
    else Ok (tfp * Rpower k (1 - alpha scalars) * Rpower lh (alpha scalars)) |}.

Definition PotentialOutputEquation : Equation := {|
  name := "YSTAR_"; equation_type := TECHNICAL;
  depends_on := ["TFP_"; "K_"; "NAT_"; "NG_"];
  compute := fun state t scalars =>
    tfp <- get state "TFP_" t ;;
    k <- get state "K_" t ;;
    nat_ <- get state "NAT_" t ;;
    ng <- get state "NG_" t ;;
    let l_star := (1 - nairu scalars) * nat_ - ng in
    lh <- get state "LH_" t ;;
    l <- get state "L_" t ;;
    lh_star <- fdiv (l_star * lh) (fmax l 1) ;;
    if (k <=? 0) || (lh_star <=? 0) then lag state "YSTAR_" t 1
    else Ok (tfp * Rpower k (1 - alpha scalars) * Rpower lh_star (alpha scalars)) |}.

Definition OutputGapEquation : Equation := {|
  name := "YGAP_"; equation_type := IDENTITY; depends_on := ["Y_"; "YSTAR_"];
  compute := fun state t scalars =>
    ystar <- get state "YSTAR_" t ;;
    if ystar =? 0 then Ok 0
    else y <- get state "Y_" t ;; fdiv (y - ystar) ystar |}.

Definition CapacityUtilizationEquation : Equation := {|
  name := "ZKF_"; equation_type := IDENTITY; depends_on := ["Y_"; "YSTAR_"];
  compute := fun state t scalars =>
    ystar <- get state "YSTAR_" t ;;
    if ystar =? 0 then Ok 1
    else
      y <- get state "Y_" t ;;
      raw <- fdiv y ystar ;;
      Ok (fmax 0.80 (fmin 1.10 raw)) |}.

Definition PRODUCTION_EQUATIONS : list Equation :=
  [TFPEquation; CapitalEquation; OutputEquation; PotentialOutputEquation;
   OutputGapEquation; CapacityUtilizationEquation].

End production.

(** ** equations/labor.py *)

Module labor.
Import Scalars.

Definition LabourHoursEquation : Equation := {|
  name := "LH_"; equation_type := BEHAVIORAL; depends_on := ["Y_"; "K_"; "TFP_"];
  compute := fun state t scalars =>
    lh_prev <- lag state "LH_" t 1 ;;
    if lh_prev <=? 0 then Ok lh_prev
    else
      dln_y <- dln state "Y_" t ;;
      y_1 <- lag state "Y_" t 1 ;;
      k_1 <- lag state "K_" t 1 ;;
      tfp_1 <- lag state "TFP_" t 1 ;;
      let lh_1 := lh_prev in
      ecm <- (if (y_1 >? 0) && (k_1 >? 0) && (tfp_1 >? 0) && (lh_1 >? 0) then
                ly <- flog y_1 ;;
                lk <- flog k_1 ;;
                ltfp <- flog tfp_1 ;;
                llh <- flog lh_1 ;;
                Ok (ly - (1 - alpha scalars) * lk - ltfp - alpha scalars * llh)
              else Ok 0) ;;
      let dln_lh := lh0 scalars + lh1 scalars * dln_y + lh2 scalars * ecm in
      Ok (lh_prev * safe_exp dln_lh 0.5) |}.

Definition EmploymentEquation : Equation := {|
  name := "L_"; equation_type := IDENTITY; depends_on := ["LH_"];
  compute := fun state t scalars =>
    lh <- get state "LH_" t ;;
    lh_prev <- lag state "LH_" t 1 ;;
    l_prev <- lag state "L_" t 1 ;;
    if (lh_prev =? 0) || (l_prev =? 0) then Ok l_prev
    else q <- fdiv lh lh_prev ;; Ok (l_prev * q) |}.

Definition UnemploymentEquation : Equation := {|
  name := "U_"; equation_type := IDENTITY; depends_on := ["NAT_"; "L_"; "NG_"];
  compute := fun state t scalars =>
    nat_ <- get state "NAT_" t ;;
    l <- get state "L_" t ;;
    ng <- get state "NG_" t ;;
    Ok (nat_ - l - ng) |}.

Definition UnemploymentRateEquation : Equation := {|
  name := "UR_"; equation_type := IDENTITY; depends_on := ["U_"; "NAT_"];
  compute := fun state t scalars =>
    nat_ <- get state "NAT_" t ;;
    if nat_ =? 0 then Ok 0
    else u <- get state "U_" t ;; fdiv u nat_ |}.

Definition WageEquation : Equation := {|
  name := "W_"; equation_type := BEHAVIORAL;
  depends_on := ["PC_"; "Y_"; "LH_"; "L_"; "UR_"];
  compute := fun state t scalars =>
    w_prev <- lag state "W_" t 1 ;;
    if w_prev <=? 0 then Ok w_prev
    else
      dln_pc <- dln state "PC_" t ;;
      y <- get state "Y_" t ;;
      lh <- get state "LH_" t ;;
      y_1 <- lag state "Y_" t 1 ;;
      lh_1 <- lag state "LH_" t 1 ;;
      dln_prod <- (if (y >? 0) && (lh >? 0) && (y_1 >? 0) && (lh_1 >? 0) then
                     q <- fdiv y lh ;;
                     lq <- flog q ;;
                     q_1 <- fdiv y_1 lh_1 ;;
                     lq_1 <- flog q_1 ;;
                     Ok (lq - lq_1)
                   else Ok 0) ;;
      ur <- get state "UR_" t ;;
      let ur_gap := ur - nairu scalars in
      l_1 <- lag state "L_" t 1 ;;
      pc_1 <- lag state "PC_" t 1 ;;
      ws_1 <- (if (y_1 >? 0) && (pc_1 >? 0) then
                 fdiv (w_prev * l_1) (pc_1 * y_1 * 1000)
               else Ok (w5 scalars)) ;;
      let dln_w :=
        w0 scalars + w1 scalars * dln_pc + w2 scalars * dln_prod
        + w3 scalars * ur_gap + w4 scalars * (ws_1 - w5 scalars) in
      wr_x <- (if has_var state "WR_X" then get state "WR_X" t else Ok 0) ;;
      let dln_w := dln_w + wr_x / 100 in
      zx_x <- (if has_var state "ZX_X" then get state "ZX_X" t else Ok 0) ;;
      let dln_w := dln_w + zx_x / 100 in
      Ok (w_prev * safe_exp dln_w 0.5) |}.

Definition PublicWageEquation : Equation := {|
  name := "WG_"; equation_type := TECHNICAL; depends_on := ["PC_"];
  compute := fun state t scalars =>
    wg_prev <- lag state "WG_" t 1 ;;
    dln_pc <- dln state "PC_" t ;;
    wgrr <- (if has_var state "WGRR_X" then get state "WGRR_X" t else Ok 0) ;;
    Ok (wg_prev * safe_exp (dln_pc + wgrr / 100) 0.5) |}.

Definition LABOR_EQUATIONS : list Equation :=
  [LabourHoursEquation; EmploymentEquation; UnemploymentEquation;
   UnemploymentRateEquation; WageEquation; PublicWageEquation].

End labor.

(** ** equations/behavioral.py *)

Module behavioral.
Import Scalars.

Definition ConsumptionEquation : Equation := {|
  name := "C_"; equation_type := BEHAVIORAL;
  depends_on := ["YDH_"; "PC_"; "UR_"; "RREAL_"];
  compute := fun state t scalars =>
    c_prev <- lag state "C_" t 1 ;;
    if c_prev <=? 0 then Ok c_prev
    else
      ydh <- get state "YDH_" t ;;
      pc <- get state "PC_" t ;;
      ydh_1 <- lag state "YDH_" t 1 ;;
      pc_1 <- lag state "PC_" t 1 ;;
      dln_rydi <- (if (ydh >? 0) && (pc >? 0) && (ydh_1 >? 0) && (pc_1 >? 0) then
                     q <- fdiv ydh pc ;;
                     lq <- flog q ;;
                     q_1 <- fdiv ydh_1 pc_1 ;;
                     lq_1 <- flog q_1 ;;
                     Ok (lq - lq_1)
                   else Ok 0) ;;
      rr <- (if has_var state "RREAL_" then get state "RREAL_" t else Ok 0) ;;
      rr_1 <- (if has_var state "RREAL_" then lag state "RREAL_" t 1 else Ok 0) ;;
      let d_rreal := rr - rr_1 in
      d_ur <- d state "UR_" t ;;
      c_1 <- lag state "C_" t 1 ;;
      ecm <- (if (c_1 >? 0) && (ydh_1 >? 0) && (pc_1 >? 0) then
                lc <- flog c_1 ;;
                q_1 <- fdiv ydh_1 pc_1 ;;
                lq_1 <- flog q_1 ;;
                Ok (lc - c5 scalars * lq_1)
              else Ok 0) ;;
      c_2 <- (if has_year state (t - 2)%Z then lag state "C_" t 2 else Ok c_1) ;;
      dln_c_lag <- (if (c_2 >? 0) && (c_1 >? 0) then
                      lc_1 <- flog c_1 ;;
                      lc_2 <- flog c_2 ;;
                      Ok (lc_1 - lc_2)
                    else Ok 0) ;;
      let dln_c :=
        c0 scalars + c1 scalars * dln_rydi + c2 scalars * d_rreal
        + c3 scalars * d_ur + c4 scalars * ecm + c6 scalars * dln_c_lag in
      Ok (c_prev * safe_exp dln_c 0.5) |}.

Definition BusinessInvestmentEquation : Equation := {|
  name := "IF_"; equation_type := BEHAVIORAL;
  depends_on := ["Y_"; "PROFIT_"; "RREAL_"; "ZKF_"];
  compute := fun state t scalars =>
    if_prev <- lag state "IF_" t 1 ;;
    if if_prev <=? 0 then Ok if_prev
    else
      dln_y <- dln state "Y_" t ;;
      profit <- (if has_var state "PROFIT_" then get state "PROFIT_" t else Ok 0) ;;
      profit_1 <- (if has_var state "PROFIT_" then lag state "PROFIT_" t 1 else Ok 0) ;;
      let d_profit := profit - profit_1 in
      rr <- (if has_var state "RREAL_" then get state "RREAL_" t else Ok 0) ;;
      rr_1 <- (if has_var state "RREAL_" then lag state "RREAL_" t 1 else Ok 0) ;;
      let d_rreal := rr - rr_1 in
      zkf <- get state "ZKF_" t ;;
      zkf_1 <- lag state "ZKF_" t 1 ;;
      let d_zkf := zkf - zkf_1 in
      y_1 <- lag state "Y_" t 1 ;;
      ecm <- (if (if_prev >? 0) && (y_1 >? 0) then
                lif <- flog if_prev ;;
                ly <- flog y_1 ;;
                Ok (lif - if6 scalars * ly)
              else Ok 0) ;;
      let dln_if :=
        if0 scalars + if1 scalars * dln_y + if2 scalars * d_profit
        + if3 scalars * d_rreal + if4 scalars * d_zkf + if5 scalars * ecm in
      Ok (if_prev * safe_exp dln_if 0.5) |}.

Definition HousingInvestmentEquation : Equation := {|
  name := "IH_"; equation_type := BEHAVIORAL;
  depends_on := ["YDH_"; "PC_"; "RMORT_"];
  compute := fun state t scalars =>
    ih_prev <- lag state "IH_" t 1 ;;
    if ih_prev <=? 0 then Ok ih_prev
    else
      ydh <- get state "YDH_" t ;;
      pc <- get state "PC_" t ;;
      ydh_1 <- lag state "YDH_" t 1 ;;
      pc_1 <- lag state "PC_" t 1 ;;
      dln_rydi <- (if (ydh >? 0) && (pc >? 0) && (ydh_1 >? 0) && (pc_1 >? 0) then
                     q <- fdiv ydh pc ;;
                     lq <- flog q ;;
                     q_1 <- fdiv ydh_1 pc_1 ;;
                     lq_1 <- flog q_1 ;;
                     Ok (lq - lq_1)
                   else Ok 0) ;;
      rm <- (if has_var state "RMORT_" then get state "RMORT_" t else Ok 0) ;;
      rm_1 <- (if has_var state "RMORT_" then lag state "RMORT_" t 1 else Ok 0) ;;
      let d_rmort := rm - rm_1 in
      ecm <- (if (ih_prev >? 0) && (ydh_1 >? 0) && (pc_1 >? 0) then
                lih <- flog ih_prev ;;
                q_1 <- fdiv ydh_1 pc_1 ;;
                lq_1 <- flog q_1 ;;
                Ok (lih - ih4 scalars * lq_1)
              else Ok 0) ;;
      let dln_ih :=
        ih0 scalars + ih1 scalars * dln_rydi + ih2 scalars * d_rmort
        + ih3 scalars * ecm in
      Ok (ih_prev * safe_exp dln_ih 0.5) |}.

Definition ExportVolumeEquation : Equation := {|
  name := "X_"; equation_type := BEHAVIORAL;
  depends_on := ["XWORLD_"; "PX_"; "PCOMP_"];
  compute := fun state t scalars =>
    x_prev <- lag state "X_" t 1 ;;
    if x_prev <=? 0 then Ok x_prev
    else
      dln_xw <- (if has_var state "XWORLD_" then dln state "XWORLD_" t
                 else Ok (world_growth scalars)) ;;
      px <- get state "PX_" t ;;
      pcomp <- (if has_var state "PCOMP_" then get state "PCOMP_" t else Ok 1) ;;
      px_1 <- lag state "PX_" t 1 ;;
      pcomp_1 <- (if has_var state "PCOMP_" then lag state "PCOMP_" t 1 else Ok 1) ;;
      dln_relpx <- (if (px >? 0) && (pcomp >? 0) && (px_1 >? 0) && (pcomp_1 >? 0) then
                      q <- fdiv px pcomp ;;
                      lq <- flog q ;;
                      q_1 <- fdiv px_1 pcomp_1 ;;
                      lq_1 <- flog q_1 ;;
                      Ok (lq - lq_1)
                    else Ok 0) ;;
      xw_1 <- (if has_var state "XWORLD_" then lag state "XWORLD_" t 1 else Ok 1) ;;
      ecm <- (if (x_prev >? 0) && (xw_1 >? 0) && (px_1 >? 0) && (pcomp_1 >? 0) then
                lx <- flog x_prev ;;
                lxw <- flog xw_1 ;;
                q_1 <- fdiv px_1 pcomp_1 ;;
                lq_1 <- flog q_1 ;;
                Ok (lx - x4 scalars * lxw - x5 scalars * lq_1)
              else Ok 0) ;;
      let dln_x :=
        x0 scalars + x1 scalars * dln_xw + x2 scalars * dln_relpx
        + x3 scalars * ecm in
      Ok (x_prev * safe_exp dln_x 0.5) |}.

Definition ImportVolumeEquation : Equation := {|
  name := "M_"; equation_type := BEHAVIORAL;
  depends_on := ["DD_"; "PM_"; "PC_"];
  compute := fun state t scalars =>
    m_prev <- lag state "M_" t 1 ;;
    if m_prev <=? 0 then Ok m_prev
    else
      dln_dd <- (if has_var state "DD_" then dln state "DD_" t else Ok 0) ;;
      pm <- (if has_var state "PM_" then get state "PM_" t else Ok 1) ;;
      pc <- get state "PC_" t ;;
      pm_1 <- (if has_var state "PM_" then lag state "PM_" t 1 else Ok 1) ;;
      pc_1 <- lag state "PC_" t 1 ;;
      dln_relpm <- (if (pm >? 0) && (pc >? 0) && (pm_1 >? 0) && (pc_1 >? 0) then
                      q <- fdiv pm pc ;;
                      lq <- flog q ;;
                      q_1 <- fdiv pm_1 pc_1 ;;
                      lq_1 <- flog q_1 ;;
                      Ok (lq - lq_1)
                    else Ok 0) ;;
      dd_1 <- (if has_var state "DD_" then lag state "DD_" t 1 else Ok 1) ;;
      ecm <- (if (m_prev >? 0) && (dd_1 >? 0) && (pm_1 >? 0) && (pc_1 >? 0) then
                lm <- flog m_prev ;;
                ldd <- flog dd_1 ;;
                q_1 <- fdiv pm_1 pc_1 ;;
                lq_1 <- flog q_1 ;;
                Ok (lm - m4 scalars * ldd - m5 scalars * lq_1)
              else Ok 0) ;;
      let dln_m :=
        m0 scalars + m1 scalars * dln_dd + m2 scalars * dln_relpm
        + m3 scalars * ecm in
      Ok (m_prev * safe_exp dln_m 0.5) |}.

Definition BEHAVIORAL_EQUATIONS : list Equation :=
  [ConsumptionEquation; BusinessInvestmentEquation; HousingInvestmentEquation;
   ExportVolumeEquation; ImportVolumeEquation].

End behavioral.

(** ** equations/prices.py *)

Module prices.
Import Scalars.

Definition UnitLabourCostEquation : Equation := {|
  name := "ULC_"; equation_type := IDENTITY; depends_on := ["W_"; "L_"; "Y_"];
  compute := fun state t scalars =>
    y <- get state "Y_" t ;;
    if y =? 0 then lag state "ULC_" t 1
    else
      w <- get state "W_" t ;;
      l <- get state "L_" t ;;
      fdiv (w * l) y |}.

Definition MacroCostEquation : Equation := {|
  name := "COST_"; equation_type := IDENTITY; depends_on := ["ULC_"; "PM_"];
  compute := fun state t scalars =>
    ulc <- get state "ULC_" t ;;
    pm <- (if has_var state "PM_" then get state "PM_" t else lag state "PM_" t 1) ;;
    Ok (cost_w scalars * ulc + cost_pm scalars * pm) |}.

Definition ConsumerPriceEquation : Equation := {|
  name := "PC_"; equation_type := BEHAVIORAL;
  depends_on := ["COST_"; "PM_"; "YGAP_"; "ITPC0R_"];
  compute := fun state t scalars =>
    pc_prev <- lag state "PC_" t 1 ;;
    if pc_prev <=? 0 then Ok pc_prev
    else
      dln_cost <- dln state "COST_" t ;;
      dln_pm <- (if has_var state "PM_" then dln state "PM_" t
                 else Ok (pm_growth scalars)) ;;
      ygap <- get state "YGAP_" t ;;
      cost_1 <- lag state "COST_" t 1 ;;
      ecm <- (if (pc_prev >? 0) && (cost_1 >? 0) then
                lpc <- flog pc_prev ;;
                lcost <- flog cost_1 ;;
                Ok (lpc - pc5 scalars * lcost)
              else Ok 0) ;;
      vat <- (if has_var state "ITPC0R_" then get state "ITPC0R_" t
              else Ok (vat_rate scalars * 100)) ;;
      vat_1 <- (if has_var state "ITPC0R_" then lag state "ITPC0R_" t 1
                else Ok (vat_rate scalars * 100)) ;;
      let d_vat := (vat - vat_1) / 100 in
      let dln_pc :=
        pc0 scalars + pc1 scalars * dln_cost + pc2 scalars * dln_pm
        + pc3 scalars * ygap + pc4 scalars * ecm + pc_vat scalars * d_vat in
      Ok (pc_prev * safe_exp dln_pc 0.5) |}.

Definition BusinessInvestmentDeflatorEquation : Equation := {|
  name := "PIF_"; equation_type := BEHAVIORAL; depends_on := ["COST_"; "PM_"];
  compute := fun state t scalars =>
    pif_prev <- lag state "PIF_" t 1 ;;
    if pif_prev <=? 0 then Ok pif_prev
    else
      dln_cost <- dln state "COST_" t ;;
      dln_pm <- (if has_var state "PM_" then dln state "PM_" t
                 else Ok (pm_growth scalars)) ;;
      cost_1 <- lag state "COST_" t 1 ;;
      ecm <- (if (pif_prev >? 0) && (cost_1 >? 0) then
                lp <- flog pif_prev ;;
                lcost <- flog cost_1 ;;
                Ok (lp - lcost)
              else Ok 0) ;;
      let dln_pif :=
        pif1 scalars * dln_cost + pif2 scalars * dln_pm + pif3 scalars * ecm in
      Ok (pif_prev * safe_exp dln_pif 0.5) |}.

Definition HousingInvestmentDeflatorEquation : Equation := {|
  name := "PIH_"; equation_type := BEHAVIORAL; depends_on := ["COST_"; "PM_"];
  compute := fun state t scalars =>
    pih_prev <- lag state "PIH_" t 1 ;;
    if pih_prev <=? 0 then Ok pih_prev
    else
      dln_cost <- dln state "COST_" t ;;
      dln_pm <- (if has_var state "PM_" then dln state "PM_" t
                 else Ok (pm_growth scalars)) ;;
      cost_1 <- lag state "COST_" t 1 ;;
      ecm <- (if (pih_prev >? 0) && (cost_1 >? 0) then
                lp <- flog pih_prev ;;
                lcost <- flog cost_1 ;;
                Ok (lp - lcost)
              else Ok 0) ;;
      let dln_pih :=
        pih1 scalars * dln_cost + pih2 scalars * dln_pm + pih3 scalars * ecm in
      Ok (pih_prev * safe_exp dln_pih 0.5) |}.

Definition PublicInvestmentDeflatorEquation : Equation := {|
  name := "PIG_"; equation_type := TECHNICAL; depends_on := ["COST_"; "PM_"];
  compute := fun state t scalars =>
    pig_prev <- lag state "PIG_" t 1 ;;
    if pig_prev <=? 0 then Ok pig_prev
    else
      dln_cost <- dln state "COST_" t ;;
      dln_pm <- (if has_var state "PM_" then dln state "PM_" t
                 else Ok (pm_growth scalars)) ;;
      let dln_pig := pig1 scalars * dln_cost + pig2 scalars * dln_pm in
      Ok (pig_prev * safe_exp dln_pig 0.5) |}.

Definition ExportPriceEquation : Equation := {|
  name := "PX_"; equation_type := BEHAVIORAL; depends_on := ["COST_"; "PCOMP_"];
  compute := fun state t scalars =>
    px_prev <- lag state "PX_" t 1 ;;
    if px_prev <=? 0 then Ok px_prev
    else
      dln_cost <- dln state "COST_" t ;;
      dln_pcomp <- (if has_var state "PCOMP_" then dln state "PCOMP_" t
                    else Ok (pcomp_growth scalars)) ;;
      pcomp_1 <- (if has_var state "PCOMP_" then lag state "PCOMP_" t 1 else Ok 1) ;;
      ecm <- (if (px_prev >? 0) && (pcomp_1 >? 0) then
                lp <- flog px_prev ;;
                lpcomp <- flog pcomp_1 ;;
                Ok (lp - lpcomp)
              else Ok 0) ;;
      let dln_px :=
        px1 scalars * dln_cost + px2 scalars * dln_pcomp + px3 scalars * ecm in
      Ok (px_prev * safe_exp dln_px 0.5) |}.

Definition ImportPriceEquation : Equation := {|
  name := "PM_"; equation_type := TECHNICAL; depends_on := [];
  compute := fun state t scalars =>
    pm_prev <- lag state "PM_" t 1 ;;
    Ok (pm_prev * (1 + pm_growth scalars)) |}.

Definition PRICE_EQUATIONS : list Equation :=
  [UnitLabourCostEquation; MacroCostEquation; ConsumerPriceEquation;
   BusinessInvestmentDeflatorEquation; HousingInvestmentDeflatorEquation;
   PublicInvestmentDeflatorEquation; ExportPriceEquation; ImportPriceEquation].

End prices.

(** ** equations/public_finance.py *)

Module public_finance.
Import Scalars.

Definition GovernmentReceiptsEquation : Equation := {|
  name := "GRECEIPTS_"; equation_type := IDENTITY;
  depends_on := ["W_"; "L_"; "WG_"; "NG_"; "C_"; "PC_"; "ITPC0R_";
                 "CSSFR_"; "CSSHR_"; "GDPN_"];
  compute := fun state t scalars =>
    w <- get state "W_" t ;;
    l <- get state "L_" t ;;
    let private_wb := w * l / 1000 in
    wg <- get state "WG_" t ;;
    ng <- get state "NG_" t ;;
    let public_wb := wg * ng / 1000 in
    let total_wb := private_wb + public_wb in
    cssfr <- (if has_var state "CSSFR_" then get state "CSSFR_" t
              else Ok (css_emp_rate scalars)) ;;
    let ssc_emp := total_wb * cssfr in
    csshr <- (if has_var state "CSSHR_" then get state "CSSHR_" t
              else Ok (css_house_rate scalars)) ;;
    let ssc_house := total_wb * csshr in
    dth_x <- (if has_var state "DTH_X" then get state "DTH_X" t else Ok 0) ;;
    let income_tax := total_wb * (1 - csshr) * 0.25 + dth_x / 1000 in
    vat_rate <- (if has_var state "ITPC0R_" then get state "ITPC0R_" t
                 else Ok (vat_rate scalars * 100)) ;;
    c <- get state "C_" t ;;
    pc <- get state "PC_" t ;;
    let consumption_nom := c * pc in
    vat_revenue <- fdiv (consumption_nom * (vat_rate / 100)) (1 + vat_rate / 100) ;;
    gdpn <- get state "GDPN_" t ;;
    let other_revenue := gdpn * 0.12 in
    Ok (income_tax + vat_revenue + ssc_emp + ssc_house + other_revenue) |}.

Definition GovernmentExpenditureEquation : Equation := {|
  name := "GEXPENSE_"; equation_type := IDENTITY;
  depends_on := ["CG_"; "PC_"; "IG_"; "PIG_"; "TGH_"; "B_"; "GDPN_"];
  compute := fun state t scalars =>
    cg <- get state "CG_" t ;;
    pc <- get state "PC_" t ;;
    let cg_nom := cg * pc in
    ig <- get state "IG_" t ;;
    pig <- get state "PIG_" t ;;
    let ig_nom := ig * pig in
    tgh <- get state "TGH_" t ;;
    b <- (if has_var state "B_" then get state "B_" t
          else g <- get state "GDPN_" t ;; Ok (g * debt_gdp scalars)) ;;
    let interest := b * debt_rate scalars in
    gdpn <- get state "GDPN_" t ;;
    let other_exp := gdpn * 0.08 in
    Ok (cg_nom + ig_nom + tgh + interest + other_exp) |}.

Definition DeficitEquation : Equation := {|
  name := "D_"; equation_type := IDENTITY; depends_on := ["GRECEIPTS_"; "GEXPENSE_"];
  compute := fun state t scalars =>
    r <- get state "GRECEIPTS_" t ;;
    e <- get state "GEXPENSE_" t ;;
    Ok (r - e) |}.

Definition DebtEquation : Equation := {|
  name := "B_"; equation_type := IDENTITY; depends_on := ["D_"];
  compute := fun state t scalars =>
    b_1 <- lag state "B_" t 1 ;;
    d_ <- get state "D_" t ;;
    Ok (b_1 - d_) |}.

Definition DeficitRatioEquation : Equation := {|
  name := "DR_"; equation_type := IDENTITY; depends_on := ["D_"; "GDPN_"];
  compute := fun state t scalars =>
    gdpn <- get state "GDPN_" t ;;
    if gdpn =? 0 then Ok 0
    else d_ <- get state "D_" t ;; fdiv d_ gdpn |}.

Definition DebtRatioEquation : Equation := {|
  name := "BR_"; equation_type := IDENTITY; depends_on := ["B_"; "GDPN_"];
  compute := fun state t scalars =>
    gdpn <- get state "GDPN_" t ;;
    if gdpn =? 0 then lag state "BR_" t 1
    else b <- get state "B_" t ;; fdiv b gdpn |}.

Definition PUBLIC_FINANCE_EQUATIONS : list Equation :=
  [GovernmentReceiptsEquation; GovernmentExpenditureEquation; DeficitEquation;
   DebtEquation; DeficitRatioEquation; DebtRatioEquation].

End public_finance.

(** ** equations/foreign.py *)

Module foreign.

Definition NominalExportsEquation : Equation := {|
  name := "XN_"; equation_type := IDENTITY; depends_on := ["X_"; "PX_"];
  compute := fun state t scalars =>
    x <- get state "X_" t ;; px <- get state "PX_" t ;; Ok (x * px) |}.

Definition NominalImportsEquation : Equation := {|
  name := "MN_"; equation_type := IDENTITY; depends_on := ["M_"; "PM_"];
  compute := fun state t scalars =>
    m <- get state "M_" t ;; pm <- get state "PM_" t ;; Ok (m * pm) |}.

Definition TradeBalanceEquation : Equation := {|
  name := "TB_"; equation_type := IDENTITY; depends_on := ["XN_"; "MN_"];
  compute := fun state t scalars =>
    xn <- get state "XN_" t ;; mn <- get state "MN_" t ;; Ok (xn - mn) |}.

Definition TradeBalanceRatioEquation : Equation := {|
  name := "TBR_"; equation_type := IDENTITY; depends_on := ["TB_"; "GDPN_"];
  compute := fun state t scalars =>
    gdpn <- get state "GDPN_" t ;;
    if gdpn =? 0 then Ok 0
    else tb <- get state "TB_" t ;; fdiv tb gdpn |}.

Definition FOREIGN_EQUATIONS : list Equation :=
  [NominalExportsEquation; NominalImportsEquation; TradeBalanceEquation;
   TradeBalanceRatioEquation].

End foreign.

(** ** equations/identities.py *)

Module identities.
Import Scalars.

Definition PublicInvestmentEquation : Equation := {|
  name := "IG_"; equation_type := TECHNICAL; depends_on := [];
  compute := fun state t scalars =>
    ig_prev <- lag state "IG_" t 1 ;;
    let trend := ig_prev * (1 + tfp_growth scalars) in
    vig_x <- (if has_var state "VIG_X" then get state "VIG_X" t else Ok 0) ;;
    Ok (trend + vig_x / 1000) |}.

Definition PublicConsumptionEquation : Equation := {|
  name := "CG_"; equation_type := IDENTITY; depends_on := ["WG_"; "NG_"];
  compute := fun state t scalars =>
    wg <- get state "WG_" t ;;
    ng <- get state "NG_" t ;;
    cg_prev <- lag state "CG_" t 1 ;;
    wg_1 <- lag state "WG_" t 1 ;;
    ng_1 <- lag state "NG_" t 1 ;;
    let wage_bill := wg * ng / 1000 in
    let wage_bill_1 := wg_1 * ng_1 / 1000 in
    let non_wage := cg_prev - wage_bill_1 in
    let non_wage_trend := non_wage * (1 + tfp_growth scalars) in
    Ok (wage_bill + non_wage_trend) |}.

Definition StockChangeEquation : Equation := {|
  name := "DS_"; equation_type := TECHNICAL; depends_on := ["Y_"];
  compute := fun state t scalars => lag state "DS_" t 1 |}.

Definition DomesticDemandEquation : Equation := {|
  name := "DD_"; equation_type := IDENTITY;
  depends_on := ["C_"; "IF_"; "IH_"; "IG_"; "CG_"; "DS_"];
  compute := fun state t scalars =>
    c <- get state "C_" t ;;
    if_ <- get state "IF_" t ;;
    ih <- get state "IH_" t ;;
    ig <- get state "IG_" t ;;
    cg <- get state "CG_" t ;;
    ds <- get state "DS_" t ;;
    Ok (c + if_ + ih + ig + cg + ds) |}.

Definition GDPEquation : Equation := {|
  name := "GDP_"; equation_type := IDENTITY; depends_on := ["DD_"; "X_"; "M_"];
  compute := fun state t scalars =>
    dd <- get state "DD_" t ;;
    x <- get state "X_" t ;;
    m <- get state "M_" t ;;
    Ok (dd + x - m) |}.

Definition GDPDeflatorEquation : Equation := {|
  name := "PGDP_"; equation_type := IDENTITY;
  depends_on := ["PC_"; "PIF_"; "PIG_"; "PIH_"; "PX_"; "PM_";
                 "C_"; "IF_"; "IG_"; "IH_"; "X_"; "M_"; "CG_"];
  compute := fun state t scalars =>
    gdp <- get state "GDP_" t ;;
    if gdp =? 0 then lag state "PGDP_" t 1
    else
      c <- get state "C_" t ;;
      pc <- get state "PC_" t ;;
      if_ <- get state "IF_" t ;;
      pif <- get state "PIF_" t ;;
      ih <- get state "IH_" t ;;
      pih <- get state "PIH_" t ;;
      ig <- get state "IG_" t ;;
      pig <- get state "PIG_" t ;;
      cg <- get state "CG_" t ;;
      pc' <- get state "PC_" t ;;
      x <- get state "X_" t ;;
      px <- get state "PX_" t ;;
      m <- get state "M_" t ;;
      pm <- get state "PM_" t ;;
      ds <- get state "DS_" t ;;
      pc'' <- get state "PC_" t ;;
      let nom :=
        c * pc + if_ * pif + ih * pih + ig * pig + cg * pc' + x * px - m * pm
        + ds * pc'' in
      fdiv nom gdp |}.

Definition NominalGDPEquation : Equation := {|
  name := "GDPN_"; equation_type := IDENTITY; depends_on := ["GDP_"; "PGDP_"];
  compute := fun state t scalars =>
    gdp <- get state "GDP_" t ;;
    pgdp <- get state "PGDP_" t ;;
    Ok (gdp * pgdp) |}.

Definition TotalInvestmentEquation : Equation := {|
  name := "I_"; equation_type := IDENTITY; depends_on := ["IF_"; "IH_"; "IG_"];
  compute := fun state t scalars =>
    if_ <- get state "IF_" t ;;
    ih <- get state "IH_" t ;;
    ig <- get state "IG_" t ;;
    Ok (if_ + ih + ig) |}.

Definition ProfitEquation : Equation := {|
  name := "PROFIT_"; equation_type := IDENTITY;
  depends_on := ["Y_"; "W_"; "L_"; "PC_"; "K_"];
  compute := fun state t scalars =>
    y <- get state "Y_" t ;;
    w <- get state "W_" t ;;
    l <- get state "L_" t ;;
    pc <- get state "PC_" t ;;
    k <- get state "K_" t ;;
    if pc * k =? 0 then lag state "PROFIT_" t 1
    else fdiv (y - w * l / 1000) (pc * k) |}.

Definition RealInterestRateEquation : Equation := {|
  name := "RREAL_"; equation_type := IDENTITY; depends_on := ["RNOM_"; "PC_"];
  compute := fun state t scalars =>
    rnom <- (if has_var state "RNOM_" then get state "RNOM_" t
             else Ok (r_nominal scalars)) ;;
    pc <- get state "PC_" t ;;
    pc_1 <- lag state "PC_" t 1 ;;
    infl <- (if pc_1 >? 0 then fdiv (pc - pc_1) pc_1 else Ok 0) ;;
    Ok (rnom - infl) |}.

Definition MortgageRateEquation : Equation := {|
  name := "RMORT_"; equation_type := TECHNICAL; depends_on := ["RNOM_"];
  compute := fun state t scalars =>
    rnom <- (if has_var state "RNOM_" then get state "RNOM_" t
             else Ok (r_nominal scalars)) ;;
    Ok (rnom + 0.015) |}.

Definition LabourForceEquation : Equation := {|
  name := "NAT_"; equation_type := TECHNICAL; depends_on := [];
  compute := fun state t scalars =>
    prev <- lag state "NAT_" t 1 ;;
    Ok (prev * (1 + nat_growth scalars)) |}.

Definition PublicEmploymentEquation : Equation := {|
  name := "NG_"; equation_type := TECHNICAL; depends_on := [];
  compute := fun state t scalars =>
    ng_prev <- lag state "NG_" t 1 ;;
    ng_x <- (if has_var state "NG_X" then get state "NG_X" t else Ok 0) ;;
    Ok (ng_prev + ng_x) |}.

Definition DisposableIncomeEquation : Equation := {|
  name := "YDH_"; equation_type := IDENTITY;
  depends_on := ["W_"; "L_"; "WG_"; "NG_"; "PC_"; "DTH_"; "TGH_"];
  compute := fun state t scalars =>
    w <- get state "W_" t ;;
    l <- get state "L_" t ;;
    let private_wages := w * l / 1000 in
    wg <- get state "WG_" t ;;
    ng <- get state "NG_" t ;;
    let public_wages := wg * ng / 1000 in
    let total_wages := private_wages + public_wages in
    css_emp <- (if has_var state "CSSFR_" then get state "CSSFR_" t
                else Ok (css_emp_rate scalars)) ;;
    css_house <- (if has_var state "CSSHR_" then get state "CSSHR_" t
                  else Ok (css_house_rate scalars)) ;;
    let net_wages := total_wages * (1 - css_house) in
    dth_x <- (if has_var state "DTH_X" then get state "DTH_X" t else Ok 0) ;;
    let base_tax_rate := 0.25 in
    let tax := net_wages * base_tax_rate + dth_x / 1000 in
    tgh <- (if has_var state "TGH_" then get state "TGH_" t else Ok 0) ;;
    Ok (net_wages - tax + tgh) |}.

Definition TransfersEquation : Equation := {|
  name := "TGH_"; equation_type := TECHNICAL; depends_on := ["PC_"];
  compute := fun state t scalars =>
    tgh_prev <- lag state "TGH_" t 1 ;;
    dln_pc <- dln state "PC_" t ;;
    tgh_x <- (if has_var state "TGH_X" then get state "TGH_X" t else Ok 0) ;;
    Ok (tgh_prev * safe_exp dln_pc 0.5 * (1 + tgh_x / 100)) |}.

Definition VATRateEquation : Equation := {|
  name := "ITPC0R_"; equation_type := TECHNICAL; depends_on := [];
  compute := fun state t scalars =>
    if has_var state "ITPC0R_X" then get state "ITPC0R_X" t
    else Ok (vat_rate scalars * 100) |}.

Definition EmployerSSCRateEquation : Equation := {|
  name := "CSSFR_"; equation_type := TECHNICAL; depends_on := [];
  compute := fun state t scalars =>
    if has_var state "CSSFR_X" then x <- get state "CSSFR_X" t ;; Ok (x / 100)
    else Ok (css_emp_rate scalars) |}.

Definition EmployeeSSCRateEquation : Equation := {|
  name := "CSSHR_"; equation_type := TECHNICAL; depends_on := [];
  compute := fun state t scalars =>
    if has_var state "CSSHR_X" then x <- get state "CSSHR_X" t ;; Ok (x / 100)
    else Ok (css_house_rate scalars) |}.

Definition NominalInterestRateEquation : Equation := {|
  name := "RNOM_"; equation_type := TECHNICAL; depends_on := [];
  compute := fun state t scalars => lag state "RNOM_" t 1 |}.

Definition WorldDemandEquation : Equation := {|
  name := "XWORLD_"; equation_type := TECHNICAL; depends_on := [];
  compute := fun state t scalars =>
    prev <- lag state "XWORLD_" t 1 ;;
    Ok (prev * (1 + world_growth scalars)) |}.

Definition CompetitorPriceEquation : Equation := {|
  name := "PCOMP_"; equation_type := TECHNICAL; depends_on := [];
  compute := fun state t scalars =>
    prev <- lag state "PCOMP_" t 1 ;;
    Ok (prev * (1 + pcomp_growth scalars)) |}.

Definition WageBillEquation : Equation := {|
  name := "WB_"; equation_type := IDENTITY; depends_on := ["W_"; "L_"; "WG_"; "NG_"];
  compute := fun state t scalars =>
    w <- get state "W_" t ;;
    l <- get state "L_" t ;;
    wg <- get state "WG_" t ;;
    ng <- get state "NG_" t ;;
    Ok (w * l / 1000 + wg * ng / 1000) |}.

Definition ProductivityEquation : Equation := {|
  name := "PROD_"; equation_type := IDENTITY; depends_on := ["Y_"; "LH_"];
  compute := fun state t scalars =>
    lh <- get state "LH_" t ;;
    if lh =? 0 then lag state "PROD_" t 1
    else y <- get state "Y_" t ;; fdiv y lh |}.

Definition IDENTITY_EQUATIONS : list Equation :=
  [PublicInvestmentEquation; PublicConsumptionEquation; StockChangeEquation;
   DomesticDemandEquation; GDPEquation; GDPDeflatorEquation; NominalGDPEquation;
   TotalInvestmentEquation; ProfitEquation; RealInterestRateEquation;
   MortgageRateEquation; LabourForceEquation; PublicEmploymentEquation;
   DisposableIncomeEquation; TransfersEquation; VATRateEquation;
   EmployerSSCRateEquation; EmployeeSSCRateEquation; NominalInterestRateEquation;
   WorldDemandEquation; CompetitorPriceEquation; WageBillEquation;
   ProductivityEquation].

End identities.

(** ** equations/registry.py *)

Record EquationRegistry := mkRegistry {
  equations : dict VarName Equation;
  pre_order : list VarName;
  inter_order : list VarName;
  post_order : list VarName
}.

(** [EquationRegistry()]: the constructor runs [_build]. *)
Definition build : EquationRegistry :=
  let all_eq_classes :=
    production.PRODUCTION_EQUATIONS
    ++ labor.LABOR_EQUATIONS
    ++ behavioral.BEHAVIORAL_EQUATIONS
    ++ prices.PRICE_EQUATIONS
    ++ identities.IDENTITY_EQUATIONS
    ++ public_finance.PUBLIC_FINANCE_EQUATIONS
    ++ foreign.FOREIGN_EQUATIONS in
  {| equations := fold_left (fun acc eq => dict_set acc (name eq) eq) all_eq_classes [];
     pre_order :=
       ["TFP_"; "NAT_"; "NG_"; "XWORLD_"; "PCOMP_"; "PM_"; "RNOM_"; "RMORT_";
        "ITPC0R_"; "CSSFR_"; "CSSHR_"; "IG_"; "TGH_"; "DS_"];
     inter_order :=
       ["K_"; "Y_"; "YSTAR_"; "YGAP_"; "ZKF_"; "LH_"; "L_"; "U_"; "UR_"; "W_";
        "WG_"; "ULC_"; "COST_"; "PC_"; "PIF_"; "PIH_"; "PIG_"; "PX_"; "RREAL_";
        "PROFIT_"; "CG_"; "YDH_"; "C_"; "IF_"; "IH_"; "DD_"; "X_"; "M_"; "GDP_";
        "PGDP_"; "GDPN_"; "GRECEIPTS_"; "GEXPENSE_"; "D_"; "B_"];
     post_order :=
       ["I_"; "PROD_"; "WB_"; "DR_"; "BR_"; "XN_"; "MN_"; "TB_"; "TBR_"] |}.

Definition registry_get (reg : EquationRegistry) (var : VarName) : option Equation :=
  dict_get (equations reg) var.

Definition all_variables (reg : EquationRegistry) : list VarName :=
  pre_order reg ++ inter_order reg ++ post_order reg.

(** [len(registry)] *)
Definition registry_len (reg : EquationRegistry) : nat :=
  List.length (equations reg).

(** ** solver.py *)

Record YearConvergence := mkYearConvergence {
  year : Year;
  iterations : nat;
  max_residual : R;
  status : ConvergenceStatus
}.

Record GaussSeidelSolver := mkSolver {
  solver_registry : EquationRegistry;
  solver_scalars : ML2Scalars;
  relaxation : R;
  eps : R;
  max_iter : nat
}.

(** [GaussSeidelSolver(registry, scalars)] with the default keyword arguments. *)
Definition new_solver (registry : EquationRegistry) (scalars : ML2Scalars)
  : GaussSeidelSolver :=
  {| solver_registry := registry; solver_scalars := scalars;
     relaxation := 0.2; eps := 0.0001; max_iter := 1000 |}.

Section Solver.

Variable self : GaussSeidelSolver.

(** The body of the phase 1 and phase 3 loops. *)
Definition recursive_step (t : Year) (state : SimulationState) (var : VarName)
  : result SimulationState :=
  match registry_get (solver_registry self) var with
  | None => Ok state
  | Some eq =>
      val <- compute eq state t (solver_scalars self) ;;
      set state var t val
  end.

(** The body of the inner loop of phase 2; the accumulator is the panel and
    [max_resid]. *)
Definition inter_step (t : Year) (acc : SimulationState * R) (var : VarName)
  : result (SimulationState * R) :=
  let '(state, max_resid) := acc in
  match registry_get (solver_registry self) var with
  | None => Ok (state, max_resid)
  | Some eq =>
      old_val <- get state var t ;;
      new_val <- compute eq state t (solver_scalars self) ;;
      let relaxed := relaxation self * new_val + (1 - relaxation self) * old_val in
      state' <- set state var t relaxed ;;
      resid <- (if fabs old_val >? 1e-10
                then fdiv (fabs (relaxed - old_val)) (fabs old_val)
                else Ok (fabs (relaxed - old_val))) ;;
      Ok (state', fmax max_resid resid)
  end.

(** One pass of the inner loop, from [max_resid = 0.0]. *)
Definition sweep (t : Year) (state : SimulationState)
  : result (SimulationState * R) :=
  foldM (inter_step t) (inter_order (solver_registry self)) (state, 0).

(** [for it in range(1, max_iter + 1)], given the values [it] still has to
    take; [iterations] and [max_resid] are the loop's variables. *)
Fixpoint inter_phase (t : Year) (its : list nat) (state : SimulationState)
    (iterations : nat) (max_resid : R)
  : result (SimulationState * (nat * R * ConvergenceStatus)) :=
  match its with
  | [] => Ok (state, (iterations, max_resid, MAX_ITERATIONS))
  | it :: its' =>
      '(state', max_resid') <- sweep t state ;;
      if max_resid' <? eps self then Ok (state', (it, max_resid', CONVERGED))
      else inter_phase t its' state' it max_resid'
  end.

Definition solve_year (state : SimulationState) (t : Year)
  : result (SimulationState * YearConvergence) :=
  state <- foldM (recursive_step t) (pre_order (solver_registry self)) state ;;
  '(state, (iterations, max_resid, status)) <-
     inter_phase t (seq 1 (max_iter self)) state 0%nat 0 ;;
  state <- foldM (recursive_step t) (post_order (solver_registry self)) state ;;
  Ok (state, {| year := t; iterations := iterations;
                max_residual := max_resid; status := status |}).

Definition solve (state : SimulationState) (sim_years : list Year)
  : result (SimulationState * list YearConvergence) :=
  foldM (fun acc t =>
           let '(state, results) := acc in
           '(state', conv) <- solve_year state t ;;
           Ok (state', results ++ [conv]))
        sim_years (state, []).

End Solver.

(** ** instruments.py *)

Module instruments.

Record InstrumentSpec := mkSpec {
  key : string;
  label : string;
  unit : string;
  default : R;
  min_val : R;
  max_val : R;
  description : string
}.

Definition INSTRUMENTS : list InstrumentSpec :=
  [ mkSpec "VIG_X" "Public Investments" "mln EUR (change)" 0 (-2000) 6000
      "Change in public investment expenditure (millions EUR, constant prices)";
    mkSpec "ITPC0R_X" "VAT Rate" "% (level)" 21 15 27
      "Standard VAT rate on consumption (%)";
    mkSpec "DTH_X" "Income Tax Receipts" "mln EUR (change)" 0 (-10000) 10000
      "Change in personal income tax receipts (millions EUR)";
    mkSpec "CSSFR_X" "Employer SSC Rate" "% of wages (level)" 30 25 40
      "Employer social security contribution rate (% of gross wages)";
    mkSpec "CSSHR_X" "Employee SSC Rate" "% of wages (level)" 13 10 20
      "Employee social security contribution rate (% of gross wages)";
    mkSpec "TGH_X" "Transfers to Households" "% (growth rate)" 0 (-5) 5
      "Additional growth rate of transfers to households (%, constant prices)";
    mkSpec "WR_X" "Private Wage Correction" "pp" 0 (-2) 2
      "Correction to private sector nominal wage growth (percentage points)";
    mkSpec "WGRR_X" "Public Real Wage Growth" "% p.a." 0 (-2) 5
      "Real wage growth in the public sector (% per year)";
    mkSpec "NG_X" "Public Employment" "thousands (change)" 0 (-40) 40
      "Change in public sector employment (thousands of persons)";
    mkSpec "ZX_X" "Indexation Correction" "pp" 0 (-2) 0
      "Change in automatic wage indexation mechanism (percentage points)" ].

(** [{i.key: i for i in INSTRUMENTS}] *)
Definition INSTRUMENT_MAP : dict string InstrumentSpec :=
  fold_left (fun acc i => dict_set acc (key i) i) INSTRUMENTS [].

(** The body of the outer loop of [apply_instruments], for one year. *)
Definition apply_year (instrument_values : dict string R)
    (state : SimulationState) (year : Year) : result SimulationState :=
  state <- foldM (fun state kv =>
                    let '(key, value) := kv in
                    let state := if negb (has_var state key)
                                 then add_var state key 0 else state in
                    set state key year value)
                 instrument_values state ;;
  state <- match dict_get instrument_values "ITPC0R_X" with
           | Some x => set state "ITPC0R_" year x
           | None => Ok state
           end ;;
  state <- match dict_get instrument_values "CSSFR_X" with
           | Some x => set state "CSSFR_" year (x / 100)
           | None => Ok state
           end ;;
  match dict_get instrument_values "CSSHR_X" with
  | Some x => set state "CSSHR_" year (x / 100)
  | None => Ok state
  end.

Definition apply_instruments (state : SimulationState)
    (instrument_values : dict string R) (sim_years : list Year)
  : result SimulationState :=
  foldM (apply_year instrument_values) sim_years state.

(** [{i.key: i.default for i in INSTRUMENTS}] *)
Definition get_default_instruments : dict string R :=
  fold_left (fun acc i => dict_set acc (key i) (default i)) INSTRUMENTS [].

Section Validate.

(** How an f-string renders a float; Python's own, not part of the repository. *)
Variable float_str : R -> string.

(** What one entry of [values] appends to [errors]. *)
Definition entry_errors (kv : string * R) : list string :=
  let '(key, val) := kv in
  match dict_get INSTRUMENT_MAP key with
  | None => [("Unknown instrument: " ++ key)%string]
  | Some spec =>
      if (val <? min_val spec) || (val >? max_val spec) then
        [(key ++ ": " ++ float_str val ++ " out of range ["
          ++ float_str (min_val spec) ++ ", " ++ float_str (max_val spec) ++ "]")%string]
      else []
  end.

Definition validate_instruments (values : dict string R) : list string :=
  fold_left (fun errors kv => errors ++ entry_errors kv) values [].

End Validate.

End instruments.

(** ** impact.py *)

Definition ABSOLUTE_IMPACT_VARS : list VarName :=
  ["DR_"; "UR_"; "BR_"; "TBR_"; "YGAP_"; "ZKF_"].

(** [var in ABSOLUTE_IMPACT_VARS] *)
Definition is_absolute (var : VarName) : bool :=
  existsb (String.eqb var) ABSOLUTE_IMPACT_VARS.

(** The value stored in [impacts[var][t]]. *)
Definition impact_value (baseline scenario : SimulationState)
    (var : VarName) (t : Year) : result R :=
  base_val <- get baseline var t ;;
  scen_val <- get scenario var t ;;
  if is_absolute var then Ok ((scen_val - base_val) * 100)
  else if fabs base_val >? 1e-10 then
    q <- fdiv (scen_val - base_val) base_val ;; Ok (q * 100)
  else Ok 0.

Definition compute_impacts (baseline scenario : SimulationState)
    (variables : list VarName) (sim_years : list Year)
  : result (dict VarName (dict Year R)) :=
  foldM (fun impacts var =>
           let impacts := dict_set impacts var [] in
           row <- foldM (fun row t =>
                           v <- impact_value baseline scenario var t ;;
                           Ok (dict_set row t v))
                        sim_years [] ;;
           Ok (dict_set impacts var row))
        variables [].

(** ** engine.py *)

Record KeyIndicators := mkKeyIndicators {
  ki_years : list Year;
  gdp_growth : list R;
  inflation : list R;
  deficit_ratio : list R;
  unemployment : list R
}.

(** One entry of [SimulationOutput.convergence]. *)
Record ConvergenceRow := mkConvergenceRow {
  row_year : Year;
  row_iterations : nat;
  row_max_residual : R;
  row_status : string
}.

Record SimulationOutput := mkOutput {
  out_name : string;
  out_years : list Year;
  baseline_indicators : KeyIndicators;
  scenario_indicators : KeyIndicators;
  impacts : dict VarName (dict Year R);
  levels : dict VarName (dict Year R);
  convergence : list ConvergenceRow;
  out_instruments : dict string R
}.

(** The fields [SimulationEngine.__init__] fixes once and for all. *)
Definition engine_scalars : ML2Scalars := Scalars.default.
Definition engine_registry : EquationRegistry := build.
Definition engine_solver : GaussSeidelSolver := new_solver engine_registry engine_scalars.

(** *** The objects of a run

    Panels are mutable Python objects.  [heap] holds every panel allocated so
    far, a reference is an index into it.  The engine's remaining fields are
    [loader_state], what [BaselineDataLoader.load_state] decodes from the
    baseline file (the file is not part of the repository), and [_baseline]. *)

Definition loc := nat.

Record World := mkWorld {
  heap : list SimulationState;
  loader_state : result SimulationState;
  engine_baseline : option loc
}.

Definition empty_state : SimulationState := mkState [] [] (fun _ _ => 0).

Definition deref (w : World) (l : loc) : SimulationState := nth l (heap w) empty_state.

(** A panel mutated in place that may raise half-way: the exception, if any,
    and the panel as it was left. *)
Definition mutation := (option exn * SimulationState)%type.

Definition and_then (m : mutation) (k : SimulationState -> mutation) : mutation :=
  match m with
  | (None, state) => k state
  | (Some e, state) => (Some e, state)
  end.

(** The loop of the local helper [ensure] of [_ensure_variables]. *)
Fixpoint ensure_years (var : VarName) (fn : SimulationState -> Year -> result R)
    (yrs : list Year) (state : SimulationState) : mutation :=
  match yrs with
  | [] => (None, state)
  | yr :: yrs' =>
      match get state var yr with
      | Raise e => (Some e, state)
      | Ok v =>
          if v =? 0 then
            match fn state yr with
            | Raise e => (Some e, state)
            | Ok x =>
                match set state var yr x with
                | Raise e => (Some e, state)
                | Ok state' => ensure_years var fn yrs' state'
                end
            end
          else ensure_years var fn yrs' state
      end
  end.

Definition ensure (years : list Year) (var : VarName)
    (fn : SimulationState -> Year -> result R) (state : SimulationState) : mutation :=
  let state := if negb (has_var state var) then add_var state var 0 else state in
  ensure_years var fn years state.

Definition profit_fn (state : SimulationState) (yr : Year) : result R :=
  y <- get state "GDP_" yr ;;
  w <- get state "W_" yr ;;
  l <- get state "L_" yr ;;
  pc <- get state "PC_" yr ;;
  k <- get state "K_" yr ;;
  if pc * k >? 0 then fdiv (y - w * l / 1000) (pc * k) else Ok 0.06.

Definition ulc_fn (state : SimulationState) (yr : Year) : result R :=
  y <- get state "GDP_" yr ;;
  if y >? 0 then
    w <- get state "W_" yr ;; l <- get state "L_" yr ;; fdiv (w * l) y
  else Ok 0.

Definition cost_fn (state : SimulationState) (yr : Year) : result R :=
  let s := engine_scalars in
  ulc <- get state "ULC_" yr ;;
  pm <- (if has_var state "PM_" then get state "PM_" yr else Ok 1) ;;
  Ok (Scalars.cost_w s * ulc + Scalars.cost_pm s * pm).

Definition _ensure_variables (state : SimulationState) : mutation :=
  let s := engine_scalars in
  let years := years state in
  and_then (ensure years "Y_" (fun state yr => get state "GDP_" yr) state) (fun state =>
  and_then (ensure years "DD_" (fun state yr =>
              c <- get state "C_" yr ;;
              if_ <- get state "IF_" yr ;;
              ih <- get state "IH_" yr ;;
              ig <- get state "IG_" yr ;;
              cg <- get state "CG_" yr ;;
              ds <- get state "DS_" yr ;;
              Ok (c + if_ + ih + ig + cg + ds)) state) (fun state =>
  and_then (ensure years "RREAL_" (fun state yr => Ok (Scalars.r_nominal s - 0.015)) state)
    (fun state =>
  and_then (ensure years "RMORT_" (fun state yr =>
              if has_var state "RNOM_"
              then r <- get state "RNOM_" yr ;; Ok (r + 0.015)
              else Ok 0.045) state) (fun state =>
  and_then (ensure years "PROFIT_" profit_fn state) (fun state =>
  and_then (ensure years "ULC_" ulc_fn state) (fun state =>
  and_then (ensure years "COST_" cost_fn state) (fun state =>
  (None,
   fold_left (fun state var =>
                if negb (has_var state var) then add_var state var 0 else state)
             (all_variables engine_registry) state)))))))).

(** [load_baseline]: the loaded panel becomes [self._baseline] before
    [_ensure_variables] mutates it. *)
Definition load_baseline (w : World) : result Datatypes.unit * World :=
  match loader_state w with
  | Raise e => (Raise e, w)
  | Ok st =>
      let b := List.length (heap w) in
      let '(err, st') := _ensure_variables st in
      let w' := {| heap := heap w ++ [st']; loader_state := loader_state w;
                   engine_baseline := Some b |} in
      match err with
      | Some e => (Raise e, w')
      | None => (Ok tt, w')
      end
  end.

(** The property [baseline]. *)
Definition baseline (w : World) : result loc * World :=
  match engine_baseline w with
  | Some b => (Ok b, w)
  | None =>
      match load_baseline w with
      | (Raise e, w') => (Raise e, w')
      | (Ok _, w') =>
          match engine_baseline w' with
          | Some b => (Ok b, w')
          | None => (Raise KeyError, w')
          end
      end
  end.

(** [state.copy()] allocates a new panel. *)
Definition alloc_copy (w : World) (l : loc) : loc * World :=
  (List.length (heap w),
   {| heap := heap w ++ [copy (deref w l)]; loader_state := loader_state w;
      engine_baseline := engine_baseline w |}).

(** In-place mutation of the panel at [l]. *)
Fixpoint list_set {A} (l : list A) (i : nat) (x : A) : list A :=
  match l, i with
  | [], _ => []
  | _ :: l', O => x :: l'
  | y :: l', S i' => y :: list_set l' i' x
  end.

Definition store (w : World) (l : loc) (st : SimulationState) : World :=
  {| heap := list_set (heap w) l st; loader_state := loader_state w;
     engine_baseline := engine_baseline w |}.

Definition _extract_indicators (state : SimulationState) (sim_years : list Year)
  : result KeyIndicators :=
  gdp <- mapM (fun t => grt state "GDP_" t) sim_years ;;
  infl <- mapM (fun t => grt state "PC_" t) sim_years ;;
  dr <- mapM (fun t => x <- get state "DR_" t ;; Ok (x * 100)) sim_years ;;
  ur <- mapM (fun t => x <- get state "UR_" t ;; Ok (x * 100)) sim_years ;;
  Ok {| ki_years := sim_years; gdp_growth := gdp; inflation := infl;
        deficit_ratio := dr; unemployment := ur |}.

Definition level_vars : list VarName :=
  ["GDP_"; "C_"; "IF_"; "IH_"; "IG_"; "X_"; "M_";
   "PC_"; "W_"; "L_"; "U_"; "UR_"; "DR_"; "BR_";
   "YDH_"; "GDPN_"; "K_"; "PROD_"; "ULC_";
   "GRECEIPTS_"; "GEXPENSE_"; "D_"; "B_"].

Section Simulate.

Variable float_str : R -> string.
(** Python's built-in [round(x, ndigits)]. *)
Variable round : R -> Z -> R.

(** The head of [simulate]: defaults merged with the validated values. *)
Definition merge_instruments (instrument_values : option (dict string R))
  : result (dict string R) :=
  let instruments := instruments.get_default_instruments in
  match instrument_values with
  | None | Some [] => Ok instruments
  | Some values =>
      let errors := instruments.validate_instruments float_str values in
      match errors with
      | _ :: _ =>
          Raise (ValueError ("Invalid instruments: " ++ String.concat "; " errors)%string)
      | [] => Ok (dict_update instruments values)
      end
  end.

(** The rest of [simulate], once both copies exist: [scenario_state] lives at
    [sc] and is mutated in place, [baseline_state] at [bs] is only read. *)
Definition run_scenario (w : World) (bs sc : loc) (instruments : dict string R)
    (name : string) : result SimulationOutput * World :=
  let sim_years := sim_years (deref w sc) in
  match instruments.apply_instruments (deref w sc) instruments sim_years with
  | Raise e => (Raise e, w)
  | Ok applied =>
      let w := store w sc applied in
      match solve engine_solver (deref w sc) sim_years with
      | Raise e => (Raise e, w)
      | Ok (solved, convergence) =>
          let w := store w sc solved in
          let baseline_state := deref w bs in
          let scenario_state := deref w sc in
          (baseline_ind <- _extract_indicators baseline_state sim_years ;;
           scenario_ind <- _extract_indicators scenario_state sim_years ;;
           let all_vars := all_variables engine_registry in
           impacts <- compute_impacts baseline_state scenario_state all_vars sim_years ;;
           let levels := to_dict scenario_state level_vars in
           Ok {| out_name := name;
                 out_years := sim_years;
                 baseline_indicators := baseline_ind;
                 scenario_indicators := scenario_ind;
                 impacts := impacts;
                 levels := levels;
                 convergence :=
                   map (fun c => {| row_year := year c;
                                    row_iterations := iterations c;
                                    row_max_residual := round (max_residual c) 8;
                                    row_status := status_name (status c) |})
                       convergence;
                 out_instruments := instruments |},
           w)
      end
  end.

Definition simulate (w : World) (instrument_values : option (dict string R))
    (name : string) : result SimulationOutput * World :=
  match merge_instruments instrument_values with
  | Raise e => (Raise e, w)
  | Ok instruments =>
      match baseline w with
      | (Raise e, w) => (Raise e, w)
      | (Ok b, w) =>
          let '(bs, w) := alloc_copy w b in
          match baseline w with
          | (Raise e, w) => (Raise e, w)
          | (Ok b, w) =>
              let '(sc, w) := alloc_copy w b in
              run_scenario w bs sc instruments name
          end
      end
  end.

Definition get_baseline_indicators (w : World) : result KeyIndicators * World :=
  match baseline w with
  | (Raise e, w) => (Raise e, w)
  | (Ok b, w) =>
      let state := deref w b in
      (_extract_indicators state (sim_years state), w)
  end.

End Simulate.

(** * Vocabulary of the properties *)

(** [returns m P]: [m] does not raise, and its value satisfies [P]. *)
Definition returns {A} (m : result A) (P : A -> Prop) : Prop :=
  exists a, m = Ok a /\ P a.


(** Every registry variable has its column. *)
Definition cols_ok (s : SimulationState) : Prop :=
  forallb (has_var s) (all_variables build) = true.


(** [t] and its lag year are in the index. *)
Definition year_ok (s : SimulationState) (t : Year) : Prop :=
  has_year s t = true /\ has_year s (t - 1)%Z = true.


(** What a log-change equation returns, given the lagged target [prev]. *)
Definition log_change_result (prev v : R) : Prop :=
  (prev <= 0 /\ v = prev) \/ (0 < prev /\ exists x, v = prev * safe_exp x 0.5).


(** The two panels have the same index and the same columns. *)
Definition same_frame (s s' : SimulationState) : Prop :=
  years s' = years s /\ columns s' = columns s.

(** From [s] to [s'] only cells of year [t] in the columns [vars] changed. *)
Definition modifies (vars : list VarName) (t : Year) (s s' : SimulationState) : Prop :=
  same_frame s s' /\
  forall v y, ~ (In v vars /\ y = t) -> cell s' v y = cell s v y.

(** A frame on which the iterated phase of year [t] cannot raise: all columns,
    both years, and a VAT rate that keeps [1 + ITPC0R_/100] away from zero. *)
Definition solvable (s : SimulationState) (t : Year) : Prop :=
  cols_ok s /\ year_ok s t /\ cell s "ITPC0R_" t <> -100.

(** The same for a whole year, before phase 1 has set [ITPC0R_]. *)
Definition presolvable (s : SimulationState) (t : Year) : Prop :=
  cols_ok s /\ year_ok s t /\
  (has_var s "ITPC0R_X" = true -> cell s "ITPC0R_X" t <> -100).

(** The panel after [k] more sweeps of year [t] and the maximum residual of
    the last of them ([m0] when [k = 0]). *)
Fixpoint sweeps (self : GaussSeidelSolver) (t : Year) (k : nat)
    (s : SimulationState) (m0 : R) : result (SimulationState * R) :=
  match k with
  | O => Ok (s, m0)
  | S k' => '(s1, m1) <- sweep self t s ;; sweeps self t k' s1 m1
  end.

(** The residual of one update as the specification words it:
    [|relaxed - old| / |old|] if [|old| > 1e-10], else [|relaxed - old|]. *)
Definition spec_residual (old relaxed : R) : R :=
  if Rlt_dec 1e-10 (Rabs old) then Rabs (relaxed - old) / Rabs old
  else Rabs (relaxed - old).

(** ** Example panels

    Two years, 2012 (lag base) and 2013.  Nothing is produced or employed
    ([K_], [LH_], [L_], prices and wages are 0), output is half of potential
    ([Y_ = 1], [YSTAR_ = 2]), the labour force is 1 and grows to 1.005.  The
    three cells the examples vary are those of 2013 in [ZKF_], [U_] and [UR_].
    With [applied] the panel also has the instrument columns, at their
    defaults, as [apply_instruments] leaves them. *)

Definition instrument_keys : list string :=
  map instruments.key instruments.INSTRUMENTS.

Definition panel_cell (z u r : R) (v : VarName) (y : Year) : R :=
  if String.eqb v "ZKF_" then (if Z.eqb y 2013%Z then z else 0.8)
  else if String.eqb v "U_" then (if Z.eqb y 2013%Z then u else 1)
  else if String.eqb v "UR_" then (if Z.eqb y 2013%Z then r else 1)
  else if String.eqb v "NAT_" then (if Z.eqb y 2013%Z then 1.005 else 1)
  else if String.eqb v "Y_" then 1
  else if String.eqb v "YSTAR_" then 2
  else if String.eqb v "YGAP_" then -0.5
  else if String.eqb v "RNOM_" then 0.015
  else if String.eqb v "RREAL_" then 0.015
  else if String.eqb v "RMORT_" then 0.03
  else if String.eqb v "PROFIT_" then 0.06
  else if String.eqb v "ITPC0R_" then 21
  else if String.eqb v "CSSFR_" then 0.3
  else if String.eqb v "CSSHR_" then 0.13
  else if String.eqb v "ITPC0R_X" then (if Z.eqb y 2013%Z then 21 else 0)
  else if String.eqb v "CSSFR_X" then (if Z.eqb y 2013%Z then 30 else 0)
  else if String.eqb v "CSSHR_X" then (if Z.eqb y 2013%Z then 13 else 0)
  else 0.

Definition panel (applied : bool) (z u r : R) : SimulationState :=
  mkState [2012%Z; 2013%Z]
    (all_variables build ++ (if applied then instrument_keys else []))
    (panel_cell z u r).

(** What the equation of [var] evaluates to on such a panel, in 2013. *)
Definition panel_value (z u r : R) (var : VarName) : R :=
  if String.eqb var "ZKF_" then 0.8
  else if String.eqb var "U_" then 1.005
  else if String.eqb var "UR_" then u / 1.005
  else panel_cell z u r var 2013%Z.

(** The three cells after the update of [var]. *)
Definition after_z (var : VarName) (z : R) : R :=
  if String.eqb var "ZKF_" then 0.2 * 0.8 + 0.8 * z else z.
Definition after_u (var : VarName) (u : R) : R :=
  if String.eqb var "U_" then 0.2 * 1.005 + 0.8 * u else u.
Definition after_r (var : VarName) (u r : R) : R :=
  if String.eqb var "UR_" then 0.2 * (u / 1.005) + 0.8 * r else r.

(** The three cells after the updates of [l], in order. *)
Fixpoint after_all (l : list VarName) (zur : R * R * R) : R * R * R :=
  match l with
  | [] => zur
  | var :: l' =>
      let '(z, u, r) := zur in
      after_all l' (after_z var z, after_u var u, after_r var u r)
  end.

Definition panel_of (a : bool) (zur : R * R * R) : SimulationState :=
  let '(z, u, r) := zur in panel a z u r.

(** The equations of type [BEHAVIORAL] written in log-change form,
    [prev * safe_exp(dln_expr)]: all of them but the Cobb-Douglas output
    equation. *)
Definition behavioral_log_change : list Equation :=
  [ labor.LabourHoursEquation; labor.WageEquation;
    behavioral.ConsumptionEquation; behavioral.BusinessInvestmentEquation;
    behavioral.HousingInvestmentEquation; behavioral.ExportVolumeEquation;
    behavioral.ImportVolumeEquation;
    prices.ConsumerPriceEquation; prices.BusinessInvestmentDeflatorEquation;
    prices.HousingInvestmentDeflatorEquation; prices.ExportPriceEquation ].

(** [clamp(x, lo, hi)] as the specification uses it. *)
Definition spec_clamp (x lo hi : R) : R :=
  if Rlt_dec x lo then lo else if Rlt_dec hi x then hi else x.

(** The impact of one variable in one year as the specification states it. *)
Definition spec_impact (var : VarName) (base scen : R) : R :=
  if in_dec string_dec var ["DR_"; "UR_"; "BR_"; "TBR_"; "YGAP_"; "ZKF_"]
  then (scen - base) * 100
  else if Rlt_dec 1e-10 (Rabs base) then (scen - base) / base * 100
  else 0.

(** An entry of the supplied instruments that the specification rejects:
    an unknown key, or a value outside the declared [min, max]. *)
Definition offending (kv : string * R) : Prop :=
  match dict_get instruments.INSTRUMENT_MAP (fst kv) with
  | None => True
  | Some spec =>
      ~ (instruments.min_val spec <= snd kv <= instruments.max_val spec)
  end.

(** [k] occurs in [msg]. *)
Definition occurs_in (k msg : string) : Prop :=
  exists pre post, msg = (pre ++ k ++ post)%string.

(** How far the stored labour-market cells of year [t] are from the
    identity [U_ + L_ + NG_ = NAT_]. *)
Definition labour_gap (s : SimulationState) (t : Year) : R :=
  cell s "U_" t + cell s "L_" t + cell s "NG_" t - cell s "NAT_" t.

(** What [simulate] computes from the contents [base] of the engine's
    baseline panel: the steps of [simulate] with the object store taken
    away, both copies being [copy base]. *)
Definition simulate_on (float_str : R -> string) (round : R -> Z -> R)
    (base : SimulationState) (instrument_values : option (dict string R))
    (name : string) : result SimulationOutput :=
  instruments <- merge_instruments float_str instrument_values ;;
  let baseline_state := copy base in
  let sim_years := sim_years (copy base) in
  applied <- instruments.apply_instruments (copy base) instruments sim_years ;;
  '(solved, convergence) <- solve engine_solver applied sim_years ;;
  baseline_ind <- _extract_indicators baseline_state sim_years ;;
  scenario_ind <- _extract_indicators solved sim_years ;;
  impacts <- compute_impacts baseline_state solved (all_variables engine_registry)
               sim_years ;;
  Ok {| out_name := name;
        out_years := sim_years;
        baseline_indicators := baseline_ind;
        scenario_indicators := scenario_ind;
        impacts := impacts;
        levels := to_dict solved level_vars;
        convergence :=
          map (fun c => {| row_year := year c;
                           row_iterations := iterations c;
                           row_max_residual := round (max_residual c) 8%Z;
                           row_status := status_name (status c) |})
              convergence;
        out_instruments := instruments |}.

(** A world whose engine has loaded its baseline into a panel of the store. *)
Definition loaded (w : World) (b : loc) : Prop :=
  engine_baseline w = Some b /\ (b < List.length (heap w))%nat.

(** A panel on which, in year [t], every registered equation returns the
    value already stored for its variable. *)
Definition equilibrium (s : SimulationState) (t : Year) : Prop :=
  cols_ok s /\ year_ok s t /\
  forall var eq, registry_get build var = Some eq ->
    compute eq s t engine_scalars = Ok (cell s var t).

(** The report of a year that was already solved. *)
Definition settled (t : Year) : YearConvergence :=
  {| year := t; iterations := 1; max_residual := 0; status := CONVERGED |}.

(** The example panel with the columns [extra] after the registry's. *)
Definition panel_with (extra : list string) (z u r : R) : SimulationState :=
  mkState [2012%Z; 2013%Z] (all_variables build ++ extra) (panel_cell z u r).

(** [SimulationEngine()] before any baseline is loaded, given what the
    loader will read. *)
Definition fresh_engine (file : SimulationState) : World :=
  {| heap := []; loader_state := Ok file; engine_baseline := None |}.

(** An engine whose baseline has been loaded and holds [base]. *)
Definition engine_with (base : SimulationState) : World :=
  {| heap := [base]; loader_state := Ok base; engine_baseline := Some 0%nat |}.


(** The variables the [compute] of the equation of [var] reads although its
    [depends_on] does not list them: instrument columns, and a few model
    variables. *)
Definition undeclared_reads (var : VarName) : list VarName :=
  if String.eqb var "IG_" then ["VIG_X"]
  else if String.eqb var "NG_" then ["NG_X"]
  else if String.eqb var "TGH_" then ["TGH_X"]
  else if String.eqb var "ITPC0R_" then ["ITPC0R_X"]
  else if String.eqb var "CSSFR_" then ["CSSFR_X"]
  else if String.eqb var "CSSHR_" then ["CSSHR_X"]
  else if String.eqb var "W_" then ["WR_X"; "ZX_X"]
  else if String.eqb var "WG_" then ["WGRR_X"]
  else if String.eqb var "GRECEIPTS_" then ["DTH_X"]
  else if String.eqb var "YDH_" then ["DTH_X"; "CSSFR_"; "CSSHR_"]
  else if String.eqb var "PGDP_" then ["DS_"; "GDP_"]
  else if String.eqb var "YSTAR_" then ["LH_"; "L_"]
  else [].

(** The value [apply_instruments] leaves in column [v] in each year it is
    applied to, when it writes that column: the mapped level for the three
    rate columns whose instrument is supplied ([ITPC0R_X] as it is, the two
    contribution rates divided by 100), the supplied value for a column
    named by a key. *)
Definition instrument_target (ins : dict string R) (v : VarName) : option R :=
  match (if String.eqb v "CSSHR_" then dict_get ins "CSSHR_X" else None) with
  | Some x => Some (x / 100)
  | None =>
      match (if String.eqb v "CSSFR_" then dict_get ins "CSSFR_X" else None) with
      | Some x => Some (x / 100)
      | None =>
          match (if String.eqb v "ITPC0R_" then dict_get ins "ITPC0R_X" else None) with
          | Some x => Some x
          | None => dict_get ins v
          end
      end
  end.

(** From [a] to [b] the index is the same, no column was lost, and a cell
    of a column of [a] changed only if it held 0 and its column is one of
    [vars]. *)
Definition fills (vars : list VarName) (a b : SimulationState) : Prop :=
  years b = years a /\
  (forall v, has_var a v = true -> has_var b v = true) /\
  (forall v y, has_var a v = true -> cell a v y <> 0 \/ ~ In v vars ->
     cell b v y = cell a v y).

(** The variables [_ensure_variables] computes defaults for. *)
Definition ensured : list VarName :=
  ["Y_"; "DD_"; "RREAL_"; "RMORT_"; "PROFIT_"; "ULC_"; "COST_"].

(** The columns the defaults are computed from. *)
Definition ensure_inputs : list VarName :=
  ["GDP_"; "C_"; "IF_"; "IH_"; "IG_"; "CG_"; "DS_"; "W_"; "L_"; "PC_"; "K_"].

(** A baseline file with one year and no series at all. *)
Definition bare_panel : SimulationState := mkState [2012%Z] [] (fun _ _ => 0).


(** * Properties *)

(** ** Reals as the code tests them *)

Lemma Rltb_spec (x y : R) : reflect (x < y) (x <? y).
Proof. unfold Rltb. destruct (Rlt_dec x y); constructor; assumption. Qed.

Lemma Rleb_spec (x y : R) : reflect (x <= y) (x <=? y).
Proof. unfold Rleb. destruct (Rle_dec x y); constructor; assumption. Qed.

Lemma Reqb_spec (x y : R) : reflect (x = y) (x =? y).
Proof. unfold Reqb. destruct (Req_dec_T x y); constructor; assumption. Qed.

Lemma Rltb_true (x y : R) : (x <? y) = true <-> x < y.
Proof. destruct (Rltb_spec x y); split; intros; try discriminate; tauto. Qed.

Lemma Rltb_false (x y : R) : (x <? y) = false <-> y <= x.
Proof. destruct (Rltb_spec x y); split; intros; try discriminate; try lra; auto. Qed.

Lemma Rleb_true (x y : R) : (x <=? y) = true <-> x <= y.
Proof. destruct (Rleb_spec x y); split; intros; try discriminate; tauto. Qed.

Lemma Rleb_false (x y : R) : (x <=? y) = false <-> y < x.
Proof. destruct (Rleb_spec x y); split; intros; try discriminate; try lra; auto. Qed.

Lemma Reqb_true (x y : R) : (x =? y) = true <-> x = y.
Proof. destruct (Reqb_spec x y); split; intros; try discriminate; tauto. Qed.

Lemma Reqb_false (x y : R) : (x =? y) = false <-> x <> y.
Proof. destruct (Reqb_spec x y); split; intros; try discriminate; tauto. Qed.

(** Turns the boolean tests among the hypotheses into facts for [lra]. *)
Ltac boolR :=
  repeat match goal with
  | H : (_ && _) = true |- _ => apply andb_true_iff in H; destruct H
  | H : (_ || _) = false |- _ => apply orb_false_iff in H; destruct H
  | H : (_ <? _) = true |- _ => apply Rltb_true in H
  | H : (_ <? _) = false |- _ => apply Rltb_false in H
  | H : (_ <=? _) = true |- _ => apply Rleb_true in H
  | H : (_ <=? _) = false |- _ => apply Rleb_false in H
  | H : (_ =? _) = true |- _ => apply Reqb_true in H
  | H : (_ =? _) = false |- _ => apply Reqb_false in H
  end.

Lemma fabs_Rabs (x : R) : fabs x = Rabs x.
Proof.
  unfold fabs, Rabs. destruct (Rltb_spec x 0), (Rcase_abs x); lra.
Qed.

Lemma fabs_nonneg (x : R) : 0 <= fabs x.
Proof. unfold fabs. destruct (Rltb_spec x 0); lra. Qed.

Lemma fmax_spec (a b : R) : a <= fmax a b /\ b <= fmax a b /\ (fmax a b = a \/ fmax a b = b).
Proof. unfold fmax. destruct (Rltb_spec a b); lra. Qed.

Lemma fmin_spec (a b : R) : fmin a b <= a /\ fmin a b <= b /\ (fmin a b = a \/ fmin a b = b).
Proof. unfold fmin. destruct (Rltb_spec b a); lra. Qed.

(** ** The panel *)

Lemma has_var_write s var t x v : has_var (write s var t x) v = has_var s v.
Proof. reflexivity. Qed.

Lemma has_year_write s var t x y : has_year (write s var t x) y = has_year s y.
Proof. reflexivity. Qed.

Lemma cell_write_same s var t x : cell (write s var t x) var t = x.
Proof. simpl. now rewrite String.eqb_refl, Z.eqb_refl. Qed.

Lemma cell_write_other s var t x v y :
  v <> var \/ y <> t -> cell (write s var t x) v y = cell s v y.
Proof.
  intros H. simpl.
  destruct (String.eqb_spec v var), (Z.eqb_spec y t); simpl; try reflexivity.
  destruct H; contradiction.
Qed.

Lemma get_ok s var t :
  has_var s var = true -> has_year s t = true -> get s var t = Ok (cell s var t).
Proof. intros Hv Ht. unfold get. now rewrite Hv, Ht. Qed.

Lemma get_inv s var t x :
  get s var t = Ok x -> has_var s var = true /\ has_year s t = true /\ cell s var t = x.
Proof.
  unfold get. destruct (has_var s var), (has_year s t); simpl; intros H;
    inversion H; auto.
Qed.

Lemma set_ok s var t x :
  has_var s var = true -> has_year s t = true -> set s var t x = Ok (write s var t x).
Proof. intros Hv Ht. unfold set. now rewrite Hv, Ht. Qed.

Lemma set_inv s var t x s' :
  set s var t x = Ok s' ->
  has_var s var = true /\ has_year s t = true /\ s' = write s var t x.
Proof.
  unfold set. destruct (has_var s var), (has_year s t); simpl; intros H;
    inversion H; auto.
Qed.

(** Writing back the value a cell already holds changes nothing. *)
Lemma write_same s var t : write s var t (cell s var t) = s.
Proof.
  destruct s as [ys cs c]. unfold write. simpl. f_equal.
  extensionality v. extensionality y.
  destruct (String.eqb_spec v var), (Z.eqb_spec y t); simpl; subst; reflexivity.
Qed.

(** ** A small program logic for the error monad *)

Lemma returns_ok {A} (a : A) (P : A -> Prop) : P a -> returns (Ok a) P.
Proof. intros H. exists a. auto. Qed.

Lemma returns_bind {A B} (m : result A) (k : A -> result B) (P : B -> Prop) :
  returns m (fun a => returns (k a) P) -> returns (bind m k) P.
Proof. intros (a & -> & H). exact H. Qed.

Lemma returns_weaken {A} (m : result A) (P Q : A -> Prop) :
  returns m P -> (forall a, P a -> Q a) -> returns m Q.
Proof. intros (a & -> & H) HPQ. exists a. auto. Qed.

Lemma returns_bind_any {A B} (m : result A) (k : A -> result B) (P : B -> Prop) :
  returns m (fun _ => True) -> (forall a, returns (k a) P) -> returns (bind m k) P.
Proof. intros (a & -> & _) H. apply H. Qed.

Lemma returns_if {A} (b : bool) (m1 m2 : result A) (P : A -> Prop) :
  (b = true -> returns m1 P) -> (b = false -> returns m2 P) ->
  returns (if b then m1 else m2) P.
Proof. destruct b; auto. Qed.

Lemma returns_inv {A} (m : result A) (P : A -> Prop) a :
  returns m P -> m = Ok a -> P a.
Proof. intros (a' & -> & H) E. inversion E; subst; exact H. Qed.

Lemma returns_get s var t (P : R -> Prop) :
  has_var s var = true -> has_year s t = true -> P (cell s var t) ->
  returns (get s var t) P.
Proof. intros Hv Ht H. rewrite (get_ok _ _ _ Hv Ht). now apply returns_ok. Qed.

Lemma returns_lag s var (t n : Z) (P : R -> Prop) :
  has_var s var = true -> has_year s (t - n)%Z = true -> P (cell s var (t - n)%Z) ->
  returns (lag s var t n) P.
Proof. apply returns_get. Qed.

Lemma returns_fdiv (a b : R) (P : R -> Prop) :
  b <> 0 -> P (a / b) -> returns (fdiv a b) P.
Proof.
  intros Hb H. unfold fdiv. destruct (Reqb_spec b 0); [contradiction|].
  now apply returns_ok.
Qed.

Lemma returns_flog (x : R) (P : R -> Prop) :
  0 < x -> P (ln x) -> returns (flog x) P.
Proof.
  intros Hx H. unfold flog. destruct (Rltb_spec 0 x); [|contradiction].
  now apply returns_ok.
Qed.

Lemma returns_dln s var t :
  has_var s var = true -> has_year s t = true -> has_year s (t - 1)%Z = true ->
  returns (dln s var t) (fun _ => True).
Proof.
  intros Hv Ht Ht1. unfold dln.
  apply returns_bind, returns_get; auto.
  apply returns_bind, returns_lag; auto.
  apply returns_if; intros Hc; [now apply returns_ok|]. boolR.
  apply returns_bind, returns_flog; [lra|].
  apply returns_bind, returns_flog; [lra|].
  now apply returns_ok.
Qed.

Lemma returns_d s var t :
  has_var s var = true -> has_year s t = true -> has_year s (t - 1)%Z = true ->
  returns (d s var t) (fun _ => True).
Proof.
  intros Hv Ht Ht1. unfold d.
  apply returns_bind, returns_get; auto.
  apply returns_bind, returns_lag; auto.
  now apply returns_ok.
Qed.

Lemma returns_grt s var t :
  has_var s var = true -> has_year s t = true -> has_year s (t - 1)%Z = true ->
  returns (grt s var t) (fun _ => True).
Proof.
  intros Hv Ht Ht1. unfold grt.
  apply returns_bind, returns_lag; auto.
  apply returns_if; intros Hc; [now apply returns_ok|]. boolR.
  apply returns_bind, returns_get; auto.
  apply returns_bind, returns_fdiv; auto.
  now apply returns_ok.
Qed.

(** ** Frames on which a year can be solved *)

Lemma cols_ok_has s v :
  cols_ok s -> existsb (String.eqb v) (all_variables build) = true ->
  has_var s v = true.
Proof.
  intros Hc Hv. unfold cols_ok in Hc. rewrite forallb_forall in Hc.
  apply existsb_exists in Hv. destruct Hv as (x & Hin & Heq).
  apply String.eqb_eq in Heq. subst. auto.
Qed.

Ltac col := solve [ assumption | eapply cols_ok_has; [eassumption | reflexivity] ].
Ltac yr := solve [ assumption | match goal with H : year_ok _ _ |- _ => apply H end ].
Ltac pos :=
  solve [ lra
        | apply Rdiv_lt_0_compat; lra
        | apply Rgt_not_eq; repeat apply Rmult_lt_0_compat; lra
        | match goal with |- fmax ?a ?b <> 0 => pose proof (fmax_spec a b); lra end
        | nra ].

(** One step of symbolic execution of an equation body. *)
Ltac step :=
  lazymatch goal with
  | |- returns (bind (get _ _ _) _) _ => apply returns_bind, returns_get; [col | yr | ]
  | |- returns (bind (lag _ _ _ _) _) _ => apply returns_bind, returns_lag; [col | yr | ]
  | |- returns (bind (fdiv _ _) _) _ => apply returns_bind, returns_fdiv; [pos | ]
  | |- returns (bind (flog _) _) _ => apply returns_bind, returns_flog; [pos | ]
  | |- returns (bind (dln _ _ _) _) _ =>
      apply returns_bind_any; [apply returns_dln; [col | yr | yr] | intro]
  | |- returns (bind (d _ _ _) _) _ =>
      apply returns_bind_any; [apply returns_d; [col | yr | yr] | intro]
  | |- returns (bind (if _ then _ else _) _) _ =>
      apply returns_bind_any; [ | intro]
  | |- returns (if ?b then _ else _) _ =>
      let H := fresh "Hc" in apply returns_if; intros H; boolR
  | |- returns (get _ _ _) _ => apply returns_get; [col | yr | ]
  | |- returns (lag _ _ _ _) _ => apply returns_lag; [col | yr | ]
  | |- returns (fdiv _ _) _ => apply returns_fdiv; [pos | ]
  | |- returns (flog _) _ => apply returns_flog; [pos | ]
  | |- returns (dln _ _ _) _ => eapply returns_weaken; [apply returns_dln; [col | yr | yr] | intros ]
  | |- returns (Ok _) _ => apply returns_ok
  | |- returns (let x := _ in _) _ => cbv zeta
  | |- returns (bind (let x := _ in _) _) _ => cbv zeta
  end.

Ltac open_eq :=
  lazymatch goal with
  | |- returns (compute ?e _ _ _) _ => unfold e; cbn [compute]; cbv beta zeta
  end;
  repeat match goal with
  | Hc : cols_ok ?s |- context [has_var ?s ?v] =>
      rewrite (cols_ok_has s v Hc eq_refl)
  end;
  cbv beta iota zeta.

Ltac steps := open_eq; repeat (step; cbv beta zeta).


(** ** Every equation returns on a well-formed frame *)

Ltac shape_leaf :=
  solve [ exact I
        | left; split; [lra | reflexivity]
        | right; split; [lra | eexists; reflexivity] ].

Section EquationsReturn.

Variables (s : SimulationState) (t : Year) (sc : ML2Scalars).
Hypothesis Hcols : cols_ok s.
Hypothesis Hyear : year_ok s t.

Lemma total_TFPEquation :
  returns (compute production.TFPEquation s t sc) (fun _ => True).
Proof. steps; auto. Qed.

Lemma total_CapitalEquation :
  returns (compute production.CapitalEquation s t sc) (fun _ => True).
Proof. steps; auto. Qed.

Lemma total_OutputEquation :
  returns (compute production.OutputEquation s t sc) (fun _ => True).
Proof. steps; auto. Qed.

Lemma total_PotentialOutputEquation :
  returns (compute production.PotentialOutputEquation s t sc) (fun _ => True).
Proof. steps; auto. Qed.

Lemma total_OutputGapEquation :
  returns (compute production.OutputGapEquation s t sc) (fun _ => True).
Proof. steps; auto. Qed.

Lemma total_CapacityUtilizationEquation :
  returns (compute production.CapacityUtilizationEquation s t sc) (fun _ => True).
Proof. steps; auto. Qed.

Lemma shape_LabourHoursEquation :
  returns (compute labor.LabourHoursEquation s t sc) (log_change_result (cell s "LH_" (t - 1)%Z)).
Proof. steps; shape_leaf. Qed.

Lemma total_LabourHoursEquation :
  returns (compute labor.LabourHoursEquation s t sc) (fun _ => True).
Proof. eapply returns_weaken; [apply shape_LabourHoursEquation | auto]. Qed.

Lemma total_EmploymentEquation :
  returns (compute labor.EmploymentEquation s t sc) (fun _ => True).
Proof. steps; auto. Qed.

Lemma total_UnemploymentEquation :
  returns (compute labor.UnemploymentEquation s t sc) (fun _ => True).
Proof. steps; auto. Qed.

Lemma total_UnemploymentRateEquation :
  returns (compute labor.UnemploymentRateEquation s t sc) (fun _ => True).
Proof. steps; auto. Qed.

Lemma shape_WageEquation :
  returns (compute labor.WageEquation s t sc) (log_change_result (cell s "W_" (t - 1)%Z)).
Proof. steps; shape_leaf. Qed.

Lemma total_WageEquation :
  returns (compute labor.WageEquation s t sc) (fun _ => True).
Proof. eapply returns_weaken; [apply shape_WageEquation | auto]. Qed.

Lemma total_PublicWageEquation :
  returns (compute labor.PublicWageEquation s t sc) (fun _ => True).
Proof. steps; auto. Qed.

Lemma shape_ConsumptionEquation :
  returns (compute behavioral.ConsumptionEquation s t sc) (log_change_result (cell s "C_" (t - 1)%Z)).
Proof. steps; shape_leaf. Qed.

Lemma total_ConsumptionEquation :
  returns (compute behavioral.ConsumptionEquation s t sc) (fun _ => True).
Proof. eapply returns_weaken; [apply shape_ConsumptionEquation | auto]. Qed.

Lemma shape_BusinessInvestmentEquation :
  returns (compute behavioral.BusinessInvestmentEquation s t sc) (log_change_result (cell s "IF_" (t - 1)%Z)).
Proof. steps; shape_leaf. Qed.

Lemma total_BusinessInvestmentEquation :
  returns (compute behavioral.BusinessInvestmentEquation s t sc) (fun _ => True).
Proof. eapply returns_weaken; [apply shape_BusinessInvestmentEquation | auto]. Qed.

Lemma shape_HousingInvestmentEquation :
  returns (compute behavioral.HousingInvestmentEquation s t sc) (log_change_result (cell s "IH_" (t - 1)%Z)).
Proof. steps; shape_leaf. Qed.

Lemma total_HousingInvestmentEquation :
  returns (compute behavioral.HousingInvestmentEquation s t sc) (fun _ => True).
Proof. eapply returns_weaken; [apply shape_HousingInvestmentEquation | auto]. Qed.

Lemma shape_ExportVolumeEquation :
  returns (compute behavioral.ExportVolumeEquation s t sc) (log_change_result (cell s "X_" (t - 1)%Z)).
Proof. steps; shape_leaf. Qed.

Lemma total_ExportVolumeEquation :
  returns (compute behavioral.ExportVolumeEquation s t sc) (fun _ => True).
Proof. eapply returns_weaken; [apply shape_ExportVolumeEquation | auto]. Qed.

Lemma shape_ImportVolumeEquation :
  returns (compute behavioral.ImportVolumeEquation s t sc) (log_change_result (cell s "M_" (t - 1)%Z)).
Proof. steps; shape_leaf. Qed.

Lemma total_ImportVolumeEquation :
  returns (compute behavioral.ImportVolumeEquation s t sc) (fun _ => True).
Proof. eapply returns_weaken; [apply shape_ImportVolumeEquation | auto]. Qed.

Lemma total_UnitLabourCostEquation :
  returns (compute prices.UnitLabourCostEquation s t sc) (fun _ => True).
Proof. steps; auto. Qed.

Lemma total_MacroCostEquation :
  returns (compute prices.MacroCostEquation s t sc) (fun _ => True).
Proof. steps; auto. Qed.

Lemma shape_ConsumerPriceEquation :
  returns (compute prices.ConsumerPriceEquation s t sc) (log_change_result (cell s "PC_" (t - 1)%Z)).
Proof. steps; shape_leaf. Qed.

Lemma total_ConsumerPriceEquation :
  returns (compute prices.ConsumerPriceEquation s t sc) (fun _ => True).
Proof. eapply returns_weaken; [apply shape_ConsumerPriceEquation | auto]. Qed.

Lemma shape_BusinessInvestmentDeflatorEquation :
  returns (compute prices.BusinessInvestmentDeflatorEquation s t sc) (log_change_result (cell s "PIF_" (t - 1)%Z)).
Proof. steps; shape_leaf. Qed.

Lemma total_BusinessInvestmentDeflatorEquation :
  returns (compute prices.BusinessInvestmentDeflatorEquation s t sc) (fun _ => True).
Proof. eapply returns_weaken; [apply shape_BusinessInvestmentDeflatorEquation | auto]. Qed.

Lemma shape_HousingInvestmentDeflatorEquation :
  returns (compute prices.HousingInvestmentDeflatorEquation s t sc) (log_change_result (cell s "PIH_" (t - 1)%Z)).
Proof. steps; shape_leaf. Qed.

Lemma total_HousingInvestmentDeflatorEquation :
  returns (compute prices.HousingInvestmentDeflatorEquation s t sc) (fun _ => True).
Proof. eapply returns_weaken; [apply shape_HousingInvestmentDeflatorEquation | auto]. Qed.

Lemma shape_PublicInvestmentDeflatorEquation :
  returns (compute prices.PublicInvestmentDeflatorEquation s t sc) (log_change_result (cell s "PIG_" (t - 1)%Z)).
Proof. steps; shape_leaf. Qed.

Lemma total_PublicInvestmentDeflatorEquation :
  returns (compute prices.PublicInvestmentDeflatorEquation s t sc) (fun _ => True).
Proof. eapply returns_weaken; [apply shape_PublicInvestmentDeflatorEquation | auto]. Qed.

Lemma shape_ExportPriceEquation :
  returns (compute prices.ExportPriceEquation s t sc) (log_change_result (cell s "PX_" (t - 1)%Z)).
Proof. steps; shape_leaf. Qed.

Lemma total_ExportPriceEquation :
  returns (compute prices.ExportPriceEquation s t sc) (fun _ => True).
Proof. eapply returns_weaken; [apply shape_ExportPriceEquation | auto]. Qed.

Lemma total_ImportPriceEquation :
  returns (compute prices.ImportPriceEquation s t sc) (fun _ => True).
Proof. steps; auto. Qed.

Lemma total_GovernmentReceiptsEquation :
  cell s "ITPC0R_" t <> -100 ->
  returns (compute public_finance.GovernmentReceiptsEquation s t sc) (fun _ => True).
Proof.
  intros Hvat. steps; auto.
  all: intros E; apply Hvat; lra.
Qed.

Lemma total_GovernmentExpenditureEquation :
  returns (compute public_finance.GovernmentExpenditureEquation s t sc) (fun _ => True).
Proof. steps; auto. Qed.

Lemma total_DeficitEquation :
  returns (compute public_finance.DeficitEquation s t sc) (fun _ => True).
Proof. steps; auto. Qed.

Lemma total_DebtEquation :
  returns (compute public_finance.DebtEquation s t sc) (fun _ => True).
Proof. steps; auto. Qed.

Lemma total_DeficitRatioEquation :
  returns (compute public_finance.DeficitRatioEquation s t sc) (fun _ => True).
Proof. steps; auto. Qed.

Lemma total_DebtRatioEquation :
  returns (compute public_finance.DebtRatioEquation s t sc) (fun _ => True).
Proof. steps; auto. Qed.

Lemma total_NominalExportsEquation :
  returns (compute foreign.NominalExportsEquation s t sc) (fun _ => True).
Proof. steps; auto. Qed.

Lemma total_NominalImportsEquation :
  returns (compute foreign.NominalImportsEquation s t sc) (fun _ => True).
Proof. steps; auto. Qed.

Lemma total_TradeBalanceEquation :
  returns (compute foreign.TradeBalanceEquation s t sc) (fun _ => True).
Proof. steps; auto. Qed.

Lemma total_TradeBalanceRatioEquation :
  returns (compute foreign.TradeBalanceRatioEquation s t sc) (fun _ => True).
Proof. steps; auto. Qed.

Lemma total_PublicInvestmentEquation :
  returns (compute identities.PublicInvestmentEquation s t sc) (fun _ => True).
Proof. steps; auto. Qed.

Lemma total_PublicConsumptionEquation :
  returns (compute identities.PublicConsumptionEquation s t sc) (fun _ => True).
Proof. steps; auto. Qed.

Lemma total_StockChangeEquation :
  returns (compute identities.StockChangeEquation s t sc) (fun _ => True).
Proof. steps; auto. Qed.

Lemma total_DomesticDemandEquation :
  returns (compute identities.DomesticDemandEquation s t sc) (fun _ => True).
Proof. steps; auto. Qed.

Lemma total_GDPEquation :
  returns (compute identities.GDPEquation s t sc) (fun _ => True).
Proof. steps; auto. Qed.

Lemma total_GDPDeflatorEquation :
  returns (compute identities.GDPDeflatorEquation s t sc) (fun _ => True).
Proof. steps; auto. Qed.

Lemma total_NominalGDPEquation :
  returns (compute identities.NominalGDPEquation s t sc) (fun _ => True).
Proof. steps; auto. Qed.

Lemma total_TotalInvestmentEquation :
  returns (compute identities.TotalInvestmentEquation s t sc) (fun _ => True).
Proof. steps; auto. Qed.

Lemma total_ProfitEquation :
  returns (compute identities.ProfitEquation s t sc) (fun _ => True).
Proof. steps; auto. Qed.

Lemma total_RealInterestRateEquation :
  returns (compute identities.RealInterestRateEquation s t sc) (fun _ => True).
Proof. steps; auto. Qed.

Lemma total_MortgageRateEquation :
  returns (compute identities.MortgageRateEquation s t sc) (fun _ => True).
Proof. steps; auto. Qed.

Lemma total_LabourForceEquation :
  returns (compute identities.LabourForceEquation s t sc) (fun _ => True).
Proof. steps; auto. Qed.

Lemma total_PublicEmploymentEquation :
  returns (compute identities.PublicEmploymentEquation s t sc) (fun _ => True).
Proof. steps; auto. Qed.

Lemma total_DisposableIncomeEquation :
  returns (compute identities.DisposableIncomeEquation s t sc) (fun _ => True).
Proof. steps; auto. Qed.

Lemma total_TransfersEquation :
  returns (compute identities.TransfersEquation s t sc) (fun _ => True).
Proof. steps; auto. Qed.

Lemma total_VATRateEquation :
  returns (compute identities.VATRateEquation s t sc) (fun _ => True).
Proof. steps; auto. Qed.

Lemma total_EmployerSSCRateEquation :
  returns (compute identities.EmployerSSCRateEquation s t sc) (fun _ => True).
Proof. steps; auto. Qed.

Lemma total_EmployeeSSCRateEquation :
  returns (compute identities.EmployeeSSCRateEquation s t sc) (fun _ => True).
Proof. steps; auto. Qed.

Lemma total_NominalInterestRateEquation :
  returns (compute identities.NominalInterestRateEquation s t sc) (fun _ => True).
Proof. steps; auto. Qed.

Lemma total_WorldDemandEquation :
  returns (compute identities.WorldDemandEquation s t sc) (fun _ => True).
Proof. steps; auto. Qed.

Lemma total_CompetitorPriceEquation :
  returns (compute identities.CompetitorPriceEquation s t sc) (fun _ => True).
Proof. steps; auto. Qed.

Lemma total_WageBillEquation :
  returns (compute identities.WageBillEquation s t sc) (fun _ => True).
Proof. steps; auto. Qed.

Lemma total_ProductivityEquation :
  returns (compute identities.ProductivityEquation s t sc) (fun _ => True).
Proof. steps; auto. Qed.

End EquationsReturn.

Create HintDb totality.
#[export] Hint Resolve total_TFPEquation : totality.
#[export] Hint Resolve total_CapitalEquation : totality.
#[export] Hint Resolve total_OutputEquation : totality.
#[export] Hint Resolve total_PotentialOutputEquation : totality.
#[export] Hint Resolve total_OutputGapEquation : totality.
#[export] Hint Resolve total_CapacityUtilizationEquation : totality.
#[export] Hint Resolve total_LabourHoursEquation : totality.
#[export] Hint Resolve total_EmploymentEquation : totality.
#[export] Hint Resolve total_UnemploymentEquation : totality.
#[export] Hint Resolve total_UnemploymentRateEquation : totality.
#[export] Hint Resolve total_WageEquation : totality.
#[export] Hint Resolve total_PublicWageEquation : totality.
#[export] Hint Resolve total_ConsumptionEquation : totality.
#[export] Hint Resolve total_BusinessInvestmentEquation : totality.
#[export] Hint Resolve total_HousingInvestmentEquation : totality.
#[export] Hint Resolve total_ExportVolumeEquation : totality.
#[export] Hint Resolve total_ImportVolumeEquation : totality.
#[export] Hint Resolve total_UnitLabourCostEquation : totality.
#[export] Hint Resolve total_MacroCostEquation : totality.
#[export] Hint Resolve total_ConsumerPriceEquation : totality.
#[export] Hint Resolve total_BusinessInvestmentDeflatorEquation : totality.
#[export] Hint Resolve total_HousingInvestmentDeflatorEquation : totality.
#[export] Hint Resolve total_PublicInvestmentDeflatorEquation : totality.
#[export] Hint Resolve total_ExportPriceEquation : totality.
#[export] Hint Resolve total_ImportPriceEquation : totality.
#[export] Hint Resolve total_GovernmentReceiptsEquation : totality.
#[export] Hint Resolve total_GovernmentExpenditureEquation : totality.
#[export] Hint Resolve total_DeficitEquation : totality.
#[export] Hint Resolve total_DebtEquation : totality.
#[export] Hint Resolve total_DeficitRatioEquation : totality.
#[export] Hint Resolve total_DebtRatioEquation : totality.
#[export] Hint Resolve total_NominalExportsEquation : totality.
#[export] Hint Resolve total_NominalImportsEquation : totality.
#[export] Hint Resolve total_TradeBalanceEquation : totality.
#[export] Hint Resolve total_TradeBalanceRatioEquation : totality.
#[export] Hint Resolve total_PublicInvestmentEquation : totality.
#[export] Hint Resolve total_PublicConsumptionEquation : totality.
#[export] Hint Resolve total_StockChangeEquation : totality.
#[export] Hint Resolve total_DomesticDemandEquation : totality.
#[export] Hint Resolve total_GDPEquation : totality.
#[export] Hint Resolve total_GDPDeflatorEquation : totality.
#[export] Hint Resolve total_NominalGDPEquation : totality.
#[export] Hint Resolve total_TotalInvestmentEquation : totality.
#[export] Hint Resolve total_ProfitEquation : totality.
#[export] Hint Resolve total_RealInterestRateEquation : totality.
#[export] Hint Resolve total_MortgageRateEquation : totality.
#[export] Hint Resolve total_LabourForceEquation : totality.
#[export] Hint Resolve total_PublicEmploymentEquation : totality.
#[export] Hint Resolve total_DisposableIncomeEquation : totality.
#[export] Hint Resolve total_TransfersEquation : totality.
#[export] Hint Resolve total_VATRateEquation : totality.
#[export] Hint Resolve total_EmployerSSCRateEquation : totality.
#[export] Hint Resolve total_EmployeeSSCRateEquation : totality.
#[export] Hint Resolve total_NominalInterestRateEquation : totality.
#[export] Hint Resolve total_WorldDemandEquation : totality.
#[export] Hint Resolve total_CompetitorPriceEquation : totality.
#[export] Hint Resolve total_WageBillEquation : totality.
#[export] Hint Resolve total_ProductivityEquation : totality.

(** ** The registry *)

Lemma equations_build :
  equations build =
  [("TFP_", production.TFPEquation);
   ("K_", production.CapitalEquation);
   ("Y_", production.OutputEquation);
   ("YSTAR_", production.PotentialOutputEquation);
   ("YGAP_", production.OutputGapEquation);
   ("ZKF_", production.CapacityUtilizationEquation);
   ("LH_", labor.LabourHoursEquation);
   ("L_", labor.EmploymentEquation);
   ("U_", labor.UnemploymentEquation);
   ("UR_", labor.UnemploymentRateEquation);
   ("W_", labor.WageEquation);
   ("WG_", labor.PublicWageEquation);
   ("C_", behavioral.ConsumptionEquation);
   ("IF_", behavioral.BusinessInvestmentEquation);
   ("IH_", behavioral.HousingInvestmentEquation);
   ("X_", behavioral.ExportVolumeEquation);
   ("M_", behavioral.ImportVolumeEquation);
   ("ULC_", prices.UnitLabourCostEquation);
   ("COST_", prices.MacroCostEquation);
   ("PC_", prices.ConsumerPriceEquation);
   ("PIF_", prices.BusinessInvestmentDeflatorEquation);
   ("PIH_", prices.HousingInvestmentDeflatorEquation);
   ("PIG_", prices.PublicInvestmentDeflatorEquation);
   ("PX_", prices.ExportPriceEquation);
   ("PM_", prices.ImportPriceEquation);
   ("IG_", identities.PublicInvestmentEquation);
   ("CG_", identities.PublicConsumptionEquation);
   ("DS_", identities.StockChangeEquation);
   ("DD_", identities.DomesticDemandEquation);
   ("GDP_", identities.GDPEquation);
   ("PGDP_", identities.GDPDeflatorEquation);
   ("GDPN_", identities.NominalGDPEquation);
   ("I_", identities.TotalInvestmentEquation);
   ("PROFIT_", identities.ProfitEquation);
   ("RREAL_", identities.RealInterestRateEquation);
   ("RMORT_", identities.MortgageRateEquation);
   ("NAT_", identities.LabourForceEquation);
   ("NG_", identities.PublicEmploymentEquation);
   ("YDH_", identities.DisposableIncomeEquation);
   ("TGH_", identities.TransfersEquation);
   ("ITPC0R_", identities.VATRateEquation);
   ("CSSFR_", identities.EmployerSSCRateEquation);
   ("CSSHR_", identities.EmployeeSSCRateEquation);
   ("RNOM_", identities.NominalInterestRateEquation);
   ("XWORLD_", identities.WorldDemandEquation);
   ("PCOMP_", identities.CompetitorPriceEquation);
   ("WB_", identities.WageBillEquation);
   ("PROD_", identities.ProductivityEquation);
   ("GRECEIPTS_", public_finance.GovernmentReceiptsEquation);
   ("GEXPENSE_", public_finance.GovernmentExpenditureEquation);
   ("D_", public_finance.DeficitEquation);
   ("B_", public_finance.DebtEquation);
   ("DR_", public_finance.DeficitRatioEquation);
   ("BR_", public_finance.DebtRatioEquation);
   ("XN_", foreign.NominalExportsEquation);
   ("MN_", foreign.NominalImportsEquation);
   ("TB_", foreign.TradeBalanceEquation);
   ("TBR_", foreign.TradeBalanceRatioEquation)].
Proof. reflexivity. Qed.

Lemma registry_get_name var eq :
  registry_get build var = Some eq -> name eq = var.
Proof.
  unfold registry_get. rewrite equations_build. cbn [dict_get].
  repeat match goal with
  | |- context [@key_eqb ?K ?I ?a var] =>
      destruct (@key_eqb_spec K I a var) as [Heq | _];
      [intros E; inversion E; subst; reflexivity | ]
  end.
  discriminate.
Qed.

(** Every registered equation returns on a well-formed frame; the receipts
    equation divides by [1 + ITPC0R_/100]. *)
Lemma registry_total var eq s t sc :
  registry_get build var = Some eq ->
  cols_ok s -> year_ok s t ->
  (var = "GRECEIPTS_" -> cell s "ITPC0R_" t <> -100) ->
  returns (compute eq s t sc) (fun _ => True).
Proof.
  unfold registry_get. rewrite equations_build. cbn [dict_get].
  intros E Hc Hy Hvat. revert E.
  repeat match goal with
  | |- context [@key_eqb ?K ?I ?a var] =>
      destruct (@key_eqb_spec K I a var) as [Heq | _];
      [intros E; inversion E; subst; clear E; eauto with totality | ]
  end.
  discriminate.
Qed.

(** ** Loops in the error monad *)

Lemma bind_ok_inv {A B} (m : result A) (k : A -> result B) b :
  bind m k = Ok b -> exists a, m = Ok a /\ k a = Ok b.
Proof. destruct m; simpl; intros H; [eauto | discriminate]. Qed.

Lemma returns_and {A} (m : result A) (P Q : A -> Prop) :
  returns m P -> (forall a, m = Ok a -> Q a) -> returns m (fun a => P a /\ Q a).
Proof. intros (a & E & H) HQ. exists a. auto. Qed.

Lemma foldM_app {A S} (body : S -> A -> result S) l1 l2 st :
  foldM body (l1 ++ l2) st = (st' <- foldM body l1 st ;; foldM body l2 st').
Proof.
  revert st. induction l1 as [|x l1 IH]; intros st; simpl; [reflexivity|].
  destruct (body st x); simpl; auto.
Qed.

(** An invariant every iteration keeps holds when the loop ends, and the
    loop does not raise. *)
Lemma foldM_returns {A S} (body : S -> A -> result S) (Inv : S -> Prop) l :
  (forall st x, In x l -> Inv st -> returns (body st x) Inv) ->
  forall st, Inv st -> returns (foldM body l st) Inv.
Proof.
  induction l as [|x l IH]; intros Hbody st Hst; simpl.
  - now apply returns_ok.
  - apply returns_bind.
    eapply returns_weaken; [apply Hbody; simpl; auto|].
    intros st' Hst'. apply IH; auto. intros; apply Hbody; simpl; auto.
Qed.

(** A reflexive and transitive relation every iteration respects relates the
    state before the loop to the state after it. *)
Lemma foldM_rel {A S} (body : S -> A -> result S) (Rel : S -> S -> Prop) l :
  (forall st, Rel st st) ->
  (forall a b c, Rel a b -> Rel b c -> Rel a c) ->
  (forall st x st', In x l -> body st x = Ok st' -> Rel st st') ->
  forall st st', foldM body l st = Ok st' -> Rel st st'.
Proof.
  intros Hrefl Htrans. induction l as [|x l IH]; intros Hbody st st' E; simpl in E.
  - inversion E; subst. apply Hrefl.
  - apply bind_ok_inv in E. destruct E as (st1 & E1 & E2).
    eapply Htrans; [eapply Hbody; [simpl; auto | exact E1]|].
    apply IH; auto. intros; eapply Hbody; eauto; simpl; auto.
Qed.

(** ** What a solve may change *)

Lemma same_frame_refl s : same_frame s s.
Proof. split; reflexivity. Qed.

Lemma same_frame_trans a b c : same_frame a b -> same_frame b c -> same_frame a c.
Proof. intros [H1 H2] [H3 H4]. split; congruence. Qed.

Lemma same_frame_has_var s s' v : same_frame s s' -> has_var s' v = has_var s v.
Proof. intros [_ H]. unfold has_var. now rewrite H. Qed.

Lemma same_frame_has_year s s' y : same_frame s s' -> has_year s' y = has_year s y.
Proof. intros [H _]. unfold has_year. now rewrite H. Qed.

Lemma same_frame_cols_ok s s' : same_frame s s' -> cols_ok s -> cols_ok s'.
Proof.
  intros H. unfold cols_ok. rewrite !forallb_forall. intros Hc v Hv.
  rewrite (same_frame_has_var _ _ v H). auto.
Qed.

Lemma same_frame_year_ok s s' t : same_frame s s' -> year_ok s t -> year_ok s' t.
Proof.
  intros H [H1 H2]. split; now rewrite (same_frame_has_year _ _ _ H).
Qed.

Lemma modifies_refl vars t s : modifies vars t s s.
Proof. split; [apply same_frame_refl | reflexivity]. Qed.

Lemma modifies_trans vars t a b c :
  modifies vars t a b -> modifies vars t b c -> modifies vars t a c.
Proof.
  intros [F1 H1] [F2 H2]. split; [eapply same_frame_trans; eauto|].
  intros v y H. rewrite H2, H1; auto.
Qed.

Lemma modifies_incl vars vars' t s s' :
  incl vars vars' -> modifies vars t s s' -> modifies vars' t s s'.
Proof.
  intros Hi [F H]. split; [exact F|].
  intros v y Hn. apply H. intros [Hin Hy]. apply Hn. auto.
Qed.

Lemma modifies_write vars t s var x :
  In var vars -> modifies vars t s (write s var t x).
Proof.
  intros Hin. split; [split; reflexivity|].
  intros v y Hn. apply cell_write_other.
  destruct (String.eqb_spec v var), (Z.eqb_spec y t); subst; auto.
Qed.

Lemma modifies_other vars t s s' v y :
  modifies vars t s s' -> existsb (String.eqb v) vars = false \/ y <> t ->
  cell s' v y = cell s v y.
Proof.
  intros [_ H] Hn. apply H. intros [Hin Hy].
  destruct Hn as [Hn | Hn]; [|contradiction].
  assert (existsb (String.eqb v) vars = true) as E; [|congruence].
  apply existsb_exists. exists v. split; [exact Hin | apply String.eqb_refl].
Qed.

Lemma modifies_solvable vars t s s' :
  modifies vars t s s' -> existsb (String.eqb "ITPC0R_") vars = false ->
  solvable s t -> solvable s' t.
Proof.
  intros Hm Hn (Hc & Hy & Hv). destruct Hm as [F Hm'].
  repeat split; try apply (same_frame_year_ok _ _ _ F Hy).
  - exact (same_frame_cols_ok _ _ F Hc).
  - rewrite (modifies_other vars t s s' "ITPC0R_" t (conj F Hm')); auto.
Qed.

Lemma modifies_presolvable vars t t' s s' :
  modifies vars t s s' -> existsb (String.eqb "ITPC0R_X") vars = false ->
  presolvable s t' -> presolvable s' t'.
Proof.
  intros Hm Hn (Hc & Hy & Hv). destruct Hm as [F Hm'].
  repeat split; try apply (same_frame_year_ok _ _ _ F Hy).
  - exact (same_frame_cols_ok _ _ F Hc).
  - rewrite (same_frame_has_var _ _ _ F).
    rewrite (modifies_other vars t s s' "ITPC0R_X" t' (conj F Hm')); auto.
Qed.

Section SolverFacts.

Variable self : GaussSeidelSolver.
Hypothesis Hreg : solver_registry self = build.

Lemma recursive_step_modifies t s var s' :
  recursive_step self t s var = Ok s' -> modifies [var] t s s'.
Proof.
  unfold recursive_step. destruct (registry_get _ var) as [eq|].
  - intros E. apply bind_ok_inv in E. destruct E as (val & _ & E).
    apply set_inv in E. destruct E as (_ & _ & ->).
    apply modifies_write. simpl; auto.
  - intros E. inversion E; subst. apply modifies_refl.
Qed.

Lemma phase_modifies t l s s' :
  foldM (recursive_step self t) l s = Ok s' -> modifies l t s s'.
Proof.
  apply (foldM_rel (recursive_step self t) (modifies l t)).
  - intros; apply modifies_refl.
  - intros a b c; apply modifies_trans.
  - intros st x st' Hin E. apply recursive_step_modifies in E.
    eapply modifies_incl; [|exact E]. intros y [<-|[]]; exact Hin.
Qed.

Lemma inter_step_inv t s m var s' m' :
  inter_step self t (s, m) var = Ok (s', m') ->
  (registry_get (solver_registry self) var = None /\ s' = s /\ m' = m) \/
  (exists eq old_val new_val,
      registry_get (solver_registry self) var = Some eq /\
      get s var t = Ok old_val /\
      compute eq s t (solver_scalars self) = Ok new_val /\
      let relaxed := relaxation self * new_val + (1 - relaxation self) * old_val in
      s' = write s var t relaxed /\
      m' = fmax m (if fabs old_val >? 1e-10
                   then fabs (relaxed - old_val) / fabs old_val
                   else fabs (relaxed - old_val))).
Proof.
  unfold inter_step. destruct (registry_get _ var) as [eq|].
  - intros E. right.
    apply bind_ok_inv in E. destruct E as (old_val & Eo & E).
    apply bind_ok_inv in E. destruct E as (new_val & En & E).
    apply bind_ok_inv in E. destruct E as (st & Es & E).
    apply bind_ok_inv in E. destruct E as (resid & Er & E).
    apply set_inv in Es. destruct Es as (_ & _ & ->).
    inversion E; subst; clear E.
    exists eq, old_val, new_val. repeat split; auto.
    f_equal. destruct (fabs old_val >? 1e-10) eqn:Hc.
    + unfold fdiv in Er. destruct (_ =? 0); inversion Er; reflexivity.
    + inversion Er; reflexivity.
  - intros E. inversion E; subst. left. auto.
Qed.

Lemma inter_step_modifies t s m var s' m' :
  inter_step self t (s, m) var = Ok (s', m') -> modifies [var] t s s' /\ m <= m'.
Proof.
  intros E. apply inter_step_inv in E.
  destruct E as [(_ & -> & ->) | (eq & o & n & _ & _ & _ & -> & ->)].
  - split; [apply modifies_refl | lra].
  - split; [apply modifies_write; simpl; auto | apply fmax_spec].
Qed.

Lemma sweep_from_modifies t l acc acc' :
  foldM (inter_step self t) l acc = Ok acc' ->
  modifies l t (fst acc) (fst acc') /\ snd acc <= snd acc'.
Proof.
  apply (foldM_rel (inter_step self t)
           (fun a b => modifies l t (fst a) (fst b) /\ snd a <= snd b)).
  - intros; split; [apply modifies_refl | lra].
  - intros a b c [H1 H2] [H3 H4]. split; [eapply modifies_trans; eauto | lra].
  - intros [s m] x [s' m'] Hin E. apply inter_step_modifies in E. simpl.
    destruct E as [E1 E2]. split; [|exact E2].
    eapply modifies_incl; [|exact E1]. intros y [<-|[]]; exact Hin.
Qed.

Lemma sweep_modifies t s s' m :
  sweep self t s = Ok (s', m) ->
  modifies (inter_order (solver_registry self)) t s s' /\ 0 <= m.
Proof. intros E. apply sweep_from_modifies in E. exact E. Qed.

Lemma inter_phase_modifies t its :
  forall s it0 m0 s' r,
  inter_phase self t its s it0 m0 = Ok (s', r) ->
  modifies (inter_order (solver_registry self)) t s s'.
Proof.
  induction its as [|it its IH]; intros s it0 m0 s' r E; simpl in E.
  - inversion E; subst. apply modifies_refl.
  - apply bind_ok_inv in E. destruct E as ([s1 m1] & Es & E).
    apply sweep_modifies in Es. destruct Es as [Hm _].
    destruct (m1 <? eps self).
    + inversion E; subst. exact Hm.
    + eapply modifies_trans; [exact Hm | eapply IH; exact E].
Qed.

Lemma solve_year_modifies s t s' r :
  solve_year self s t = Ok (s', r) ->
  modifies (all_variables (solver_registry self)) t s s' /\ year r = t.
Proof.
  unfold solve_year. intros E.
  apply bind_ok_inv in E. destruct E as (s1 & E1 & E).
  apply bind_ok_inv in E. destruct E as ([s2 [[it m] st]] & E2 & E).
  apply bind_ok_inv in E. destruct E as (s3 & E3 & E).
  inversion E; subst; clear E. split; [|reflexivity].
  apply phase_modifies in E1, E3. apply inter_phase_modifies in E2.
  unfold all_variables.
  eapply modifies_trans; [eapply modifies_incl; [|exact E1]|].
  { intros x Hx. apply in_or_app. auto. }
  eapply modifies_trans; [eapply modifies_incl; [|exact E2]|].
  { intros x Hx. apply in_or_app. right. apply in_or_app. auto. }
  eapply modifies_incl; [|exact E3].
  intros x Hx. apply in_or_app. right. apply in_or_app. auto.
Qed.

End SolverFacts.

(** ** The solver does not raise on a well-formed frame *)

Lemma returns_post {A} (m : result A) (Q : A -> Prop) :
  returns m (fun _ => True) -> (forall a, m = Ok a -> Q a) -> returns m Q.
Proof. intros (a & E & _) HQ. exists a. auto. Qed.

Section SolverReturns.

Variable self : GaussSeidelSolver.
Hypothesis Hreg : solver_registry self = build.
Hypothesis Hsc : solver_scalars self = Scalars.default.

Lemma recursive_step_returns t s var :
  cols_ok s -> year_ok s t ->
  existsb (String.eqb var) (all_variables build) = true ->
  (var = "GRECEIPTS_" -> cell s "ITPC0R_" t <> -100) ->
  returns (recursive_step self t s var) (modifies [var] t s).
Proof.
  intros Hc Hy Hin Hvat.
  apply returns_post; [|intros; eapply recursive_step_modifies; eassumption].
  unfold recursive_step. rewrite Hreg.
  destruct (registry_get build var) as [eq|] eqn:E; [|now apply returns_ok].
  apply returns_bind_any; [eapply registry_total; eauto|].
  intros val. rewrite set_ok; [now apply returns_ok | | apply Hy].
  now apply cols_ok_has.
Qed.

(** Phases 1 and 3, and any part of them. *)
Lemma phase_returns t l :
  forallb (fun var => existsb (String.eqb var) (all_variables build)
                      && negb (String.eqb var "GRECEIPTS_")) l = true ->
  forall s, cols_ok s -> year_ok s t ->
  returns (foldM (recursive_step self t) l s) (modifies l t s).
Proof.
  intros Hl s Hc Hy.
  apply returns_post; [|intros; eapply phase_modifies; eassumption].
  eapply returns_weaken.
  - apply (foldM_returns (recursive_step self t)
             (fun st => cols_ok st /\ year_ok st t)); [|auto].
    intros st x Hx [Hc' Hy'].
    rewrite forallb_forall in Hl. specialize (Hl x Hx).
    apply andb_true_iff in Hl. destruct Hl as [Hx1 Hx2].
    eapply returns_weaken; [apply recursive_step_returns; auto|].
    + intros ->. discriminate.
    + intros st' [F _]. split;
        [eapply same_frame_cols_ok | eapply same_frame_year_ok]; eauto.
  - auto.
Qed.

Lemma foldM_single {A S} (body : S -> A -> result S) x st :
  foldM body [x] st = body st x.
Proof. simpl. destruct (body st x); reflexivity. Qed.

Local Opaque foldM.

Lemma pre_phase_returns t s :
  presolvable s t ->
  returns (foldM (recursive_step self t) (pre_order build) s)
          (fun s' => solvable s' t /\ modifies (pre_order build) t s s').
Proof.
  intros (Hc & Hy & Hx).
  apply returns_and; [|intros; eapply phase_modifies; eassumption].
  change (pre_order build) with
    (["TFP_"; "NAT_"; "NG_"; "XWORLD_"; "PCOMP_"; "PM_"; "RNOM_"; "RMORT_"]
     ++ ["ITPC0R_"] ++ ["CSSFR_"; "CSSHR_"; "IG_"; "TGH_"; "DS_"]).
  rewrite foldM_app.
  apply returns_bind.
  eapply returns_weaken; [apply phase_returns; auto; reflexivity|].
  intros s1 H1. rewrite foldM_app, foldM_single.
  assert (presolvable s1 t) as (Hc1 & Hy1 & Hx1).
  { eapply modifies_presolvable; [exact H1 | reflexivity | repeat split; auto; apply Hy]. }
  apply returns_bind.
  assert (returns (recursive_step self t s1 "ITPC0R_")
            (fun s2 => solvable s2 t)) as H2.
  { unfold recursive_step. rewrite Hreg, Hsc.
    change (registry_get build "ITPC0R_") with (Some identities.VATRateEquation).
    cbn [compute identities.VATRateEquation].
    assert (has_var s1 "ITPC0R_" = true) as Hv by col.
    destruct (has_var s1 "ITPC0R_X") eqn:HX.
    - rewrite get_ok by (auto; apply Hy1). cbn [bind].
      rewrite set_ok by (auto; apply Hy1). cbn [bind].
      apply returns_ok. repeat split; auto; try apply Hy1.
      rewrite cell_write_same. auto.
    - cbn [bind]. rewrite set_ok by (auto; apply Hy1). cbn [bind].
      apply returns_ok. repeat split; auto; try apply Hy1.
      rewrite cell_write_same. cbn. lra. }
  eapply returns_weaken; [exact H2|].
  intros s2 Hs2.
  eapply returns_weaken;
    [apply phase_returns; [reflexivity | apply Hs2 | apply Hs2]|].
  intros s3 H3. eapply modifies_solvable; [exact H3 | reflexivity | exact Hs2].
Qed.

Local Transparent foldM.

Lemma inter_step_returns t s m var :
  solvable s t -> In var (inter_order build) ->
  returns (inter_step self t (s, m) var) (fun acc => solvable (fst acc) t).
Proof.
  intros Hs Hin.
  assert (existsb (String.eqb var) (inter_order build) = true) as Hb.
  { apply existsb_exists. exists var. split; [exact Hin | apply String.eqb_refl]. }
  assert (existsb (String.eqb "ITPC0R_") [var] = false) as Hne.
  { cbn [existsb]. rewrite orb_false_r. apply String.eqb_neq. intros <-.
    vm_compute in Hb. discriminate. }
  assert (existsb (String.eqb var) (all_variables build) = true) as Hall.
  { apply existsb_exists. exists var. split; [|apply String.eqb_refl].
    unfold all_variables. apply in_or_app. right. apply in_or_app. now left. }
  destruct Hs as (Hc & Hy & Hv).
  set (P := fun acc : SimulationState * R => modifies [var] t s (fst acc)).
  apply returns_weaken with (P := P).
  2:{ intros acc Hm. eapply modifies_solvable; eauto. repeat split; auto; apply Hy. }
  unfold inter_step. rewrite Hreg.
  destruct (registry_get build var) as [eq|] eqn:E;
    [|apply returns_ok; apply modifies_refl].
  apply returns_bind, returns_get; [now apply cols_ok_has | apply Hy |].
  apply returns_bind_any; [eapply registry_total; eauto|].
  intros new_val. rewrite set_ok; [| now apply cols_ok_has | apply Hy].
  cbn [bind]. apply returns_bind_any.
  - apply returns_if; intros Hg; boolR.
    + apply returns_fdiv; [lra | exact I].
    + now apply returns_ok.
  - intros resid. apply returns_ok. apply modifies_write. simpl; auto.
Qed.

Lemma sweep_returns t s :
  solvable s t -> returns (sweep self t s) (fun acc => solvable (fst acc) t).
Proof.
  intros Hs. unfold sweep. rewrite Hreg.
  apply (foldM_returns (inter_step self t) (fun acc => solvable (fst acc) t)); auto.
  intros [st m] x Hx Hst. now apply inter_step_returns.
Qed.

Lemma inter_phase_returns t its :
  forall s it0 m0, solvable s t ->
  returns (inter_phase self t its s it0 m0) (fun r => solvable (fst r) t).
Proof.
  induction its as [|it its IH]; intros s it0 m0 Hs; simpl.
  - now apply returns_ok.
  - apply returns_bind. eapply returns_weaken; [now apply sweep_returns|].
    intros [s1 m1] H1. simpl in H1.
    destruct (m1 <? eps self); [now apply returns_ok | now apply IH].
Qed.

Lemma solve_year_returns s t :
  presolvable s t ->
  returns (solve_year self s t)
          (fun r => modifies (all_variables build) t s (fst r) /\ year (snd r) = t).
Proof.
  intros Hs.
  apply returns_post.
  2:{ intros [s' r] E. apply solve_year_modifies in E. now rewrite Hreg in E. }
  unfold solve_year. rewrite Hreg.
  apply returns_bind.
  eapply returns_weaken; [now apply pre_phase_returns|].
  intros s1 [H1 _].
  apply returns_bind.
  eapply returns_weaken; [now apply inter_phase_returns|].
  intros [s2 [[it m] st]] H2. simpl in H2.
  apply returns_bind_any; [|intros; now apply returns_ok].
  eapply returns_weaken;
    [apply phase_returns; [reflexivity | apply H2 | apply H2] | auto].
Qed.

Lemma solve_years_reported l :
  forall s rs s' rs',
  foldM (fun acc t =>
           let '(state, results) := acc in
           '(state', conv) <- solve_year self state t ;;
           Ok (state', results ++ [conv])) l (s, rs) = Ok (s', rs') ->
  map year rs' = map year rs ++ l.
Proof.
  induction l as [|t l IH]; intros s rs s' rs' E; simpl in E.
  - inversion E; subst. now rewrite app_nil_r.
  - apply bind_ok_inv in E. destruct E as ([s1 rs1] & E1 & E).
    apply bind_ok_inv in E1. destruct E1 as ([s2 c] & E2 & E1).
    inversion E1; subst; clear E1.
    apply solve_year_modifies in E2. destruct E2 as [_ Hy].
    apply IH in E. rewrite E, map_app. simpl. rewrite Hy, <- app_assoc. reflexivity.
Qed.

(** [solve] returns one report per year, in order. *)
Lemma solve_returns s sim_years :
  (forall t, In t sim_years -> presolvable s t) ->
  returns (solve self s sim_years) (fun r => map year (snd r) = sim_years).
Proof.
  intros Hs.
  apply returns_post.
  - unfold solve.
    eapply returns_weaken.
    + apply (foldM_returns _ (fun acc => forall t, In t sim_years -> presolvable (fst acc) t));
        [|exact Hs].
      intros [st rs] t Ht Hst. simpl in Hst.
      apply returns_bind.
      eapply returns_weaken; [apply solve_year_returns; auto|].
      intros [st' c] [Hm _]. apply returns_ok. simpl. intros t' Ht'.
      eapply modifies_presolvable; [exact Hm | reflexivity | auto].
    + auto.
  - intros [s' rs'] E. apply solve_years_reported in E. exact E.
Qed.

End SolverReturns.

(** ** The iterated phase *)

Section InterPhase.

Variable self : GaussSeidelSolver.
Variable t : Year.

(** How the loop over [it = a, a+1, ..., a+n-1] ends. *)
Lemma inter_phase_seq n :
  forall a s it0 m0 s' it m st,
  inter_phase self t (seq a n) s it0 m0 = Ok (s', (it, m, st)) ->
  (st = CONVERGED /\
   exists k, (1 <= k <= n)%nat /\ it = (a + k - 1)%nat /\
     sweeps self t k s m0 = Ok (s', m) /\ m < eps self /\
     forall j, (1 <= j < k)%nat ->
       exists sj mj, sweeps self t j s m0 = Ok (sj, mj) /\ eps self <= mj)
  \/
  (st = MAX_ITERATIONS /\
   sweeps self t n s m0 = Ok (s', m) /\
   (n = 0%nat -> it = it0) /\ (n <> 0%nat -> it = (a + n - 1)%nat) /\
   forall j, (1 <= j <= n)%nat ->
     exists sj mj, sweeps self t j s m0 = Ok (sj, mj) /\ eps self <= mj).
Proof.
  induction n as [|n IH]; intros a s it0 m0 s' it m st E.
  - simpl in E. inversion E; subst. right.
    repeat split; auto; try congruence. intros j Hj. lia.
  - cbn [seq inter_phase] in E.
    apply bind_ok_inv in E. destruct E as ([s1 m1] & Es & E).
    destruct (Rltb_spec m1 (eps self)) as [Hlt | Hge].
    + inversion E; subst; clear E. left. split; [reflexivity|].
      exists 1%nat. repeat split; try lia; try exact Hlt.
      cbn [sweeps]. rewrite Es. reflexivity.
    + assert (forall j, sweeps self t (S j) s m0 = sweeps self t j s1 m1) as Hshift.
      { intros j. cbn [sweeps]. rewrite Es. reflexivity. }
      assert (forall j B, (1 <= j <= S B)%nat ->
                (forall j', (1 <= j' <= B)%nat ->
                   exists sj mj, sweeps self t j' s1 m1 = Ok (sj, mj) /\ eps self <= mj) ->
                exists sj mj, sweeps self t j s m0 = Ok (sj, mj) /\ eps self <= mj) as Hall.
      { intros j B Hj HB. destruct j as [|[|j]]; [lia | |].
        - exists s1, m1. rewrite Hshift. split; [reflexivity | lra].
        - rewrite Hshift. apply HB. lia. }
      apply IH in E.
      destruct E as [(-> & k & Hk & -> & Hsw & Hm & Hprev)
                    | (-> & Hsw & Hit0 & Hit & Hprev)].
      * left. split; [reflexivity|]. exists (S k).
        split; [lia|]. split; [lia|]. split; [now rewrite Hshift|].
        split; [exact Hm|].
        intros j Hj. apply (Hall j (k - 1)%nat); [lia|].
        intros j' Hj'. apply Hprev. lia.
      * right. split; [reflexivity|].
        split; [now rewrite Hshift|]. split; [discriminate|].
        split.
        -- intros _. destruct n as [|n'];
             [rewrite Hit0 by reflexivity | rewrite Hit by discriminate]; lia.
        -- intros j Hj. apply (Hall j n); [lia | exact Hprev].
Qed.

(** The loop never leaves [status] at a value other than the two it assigns. *)
Lemma inter_phase_status its :
  forall s it0 m0 s' it m st,
  inter_phase self t its s it0 m0 = Ok (s', (it, m, st)) ->
  st = CONVERGED \/ st = MAX_ITERATIONS.
Proof.
  induction its as [|i its IH]; intros s it0 m0 s' it m st E; simpl in E.
  - inversion E; auto.
  - apply bind_ok_inv in E. destruct E as ([s1 m1] & _ & E).
    destruct (m1 <? eps self); [inversion E; auto | eapply IH; eauto].
Qed.

End InterPhase.

Lemma spec_residual_code (old relaxed : R) :
  (if fabs old >? 1e-10 then fabs (relaxed - old) / fabs old
   else fabs (relaxed - old)) = spec_residual old relaxed.
Proof.
  unfold spec_residual. rewrite !fabs_Rabs.
  destruct (Rltb_spec 1e-10 (Rabs old)), (Rlt_dec 1e-10 (Rabs old));
    try reflexivity; contradiction.
Qed.

(** ** Evaluating the equations on the example panels *)

(** Decides one test on reals whose operands are known. *)
Ltac decide_test :=
  match goal with
  | |- context [?a <? ?b] =>
      first [ rewrite (proj2 (Rltb_true a b)) by lra
            | rewrite (proj2 (Rltb_false a b)) by lra ]
  | |- context [?a <=? ?b] =>
      first [ rewrite (proj2 (Rleb_true a b)) by lra
            | rewrite (proj2 (Rleb_false a b)) by lra ]
  | |- context [?a =? ?b] =>
      first [ rewrite (proj2 (Reqb_true a b)) by lra
            | rewrite (proj2 (Reqb_false a b)) by lra ]
  end.

Ltac evaluate :=
  cbn; repeat (first [decide_test | progress unfold fdiv, flog, fmax, fmin, fabs]; cbn).

Lemma panel_equation (a : bool) (z u r : R) var eq :
  registry_get build var = Some eq ->
  compute eq (panel a z u r) 2013%Z Scalars.default = Ok (panel_value z u r var).
Proof.
  unfold registry_get. rewrite equations_build. cbn [dict_get].
  repeat match goal with
  | |- context [@key_eqb ?K ?I ?k var] =>
      destruct (@key_eqb_spec K I k var) as [Heq | _];
      [ intros E; inversion E; subst; clear E;
        destruct a; evaluate; f_equal; lra | ]
  end.
  discriminate.
Qed.

(** ** One update of the solver, in general *)

Section StepValue.

Variable self : GaussSeidelSolver.
Hypothesis Hreg : solver_registry self = build.

Lemma recursive_step_value t s var eq val :
  registry_get build var = Some eq ->
  compute eq s t (solver_scalars self) = Ok val ->
  has_var s var = true -> has_year s t = true ->
  recursive_step self t s var = Ok (write s var t val).
Proof.
  intros E Hv Hc Hy. unfold recursive_step. rewrite Hreg, E, Hv. cbn [bind].
  now apply set_ok.
Qed.

Lemma inter_step_value t s m var eq old_val new_val :
  registry_get build var = Some eq ->
  get s var t = Ok old_val ->
  compute eq s t (solver_scalars self) = Ok new_val ->
  let relaxed := relaxation self * new_val + (1 - relaxation self) * old_val in
  inter_step self t (s, m) var =
    Ok (write s var t relaxed, fmax m (spec_residual old_val relaxed)).
Proof.
  intros E Ho Hn relaxed. unfold inter_step. rewrite Hreg, E, Ho, Hn. cbn [bind].
  apply get_inv in Ho. destruct Ho as (Hc & Hy & _).
  rewrite (set_ok _ _ _ _ Hc Hy). cbn [bind]. fold relaxed.
  rewrite <- spec_residual_code.
  destruct (Rltb_spec 1e-10 (fabs old_val)) as [Hg | Hg]; [|reflexivity].
  unfold fdiv. destruct (Reqb_spec (fabs old_val) 0) as [E0 | _]; [lra | reflexivity].
Qed.

End StepValue.

Lemma spec_residual_nonneg old relaxed : 0 <= spec_residual old relaxed.
Proof.
  unfold spec_residual. destruct (Rlt_dec 1e-10 (Rabs old)).
  - apply Rmult_le_pos; [apply Rabs_pos|].
    apply Rlt_le, Rinv_0_lt_compat. lra.
  - apply Rabs_pos.
Qed.

Lemma spec_residual_same x : spec_residual x x = 0.
Proof.
  unfold spec_residual. replace (x - x) with 0 by lra. rewrite Rabs_R0.
  destruct (Rlt_dec 1e-10 (Rabs x)); lra.
Qed.

Lemma write_id s var t x : cell s var t = x -> write s var t x = s.
Proof. intros <-. apply write_same. Qed.

(** ** The solver on the example panels *)

Lemma panel_write a z u r var x :
  write (panel a z u r) var 2013%Z x =
  mkState [2012%Z; 2013%Z]
    (all_variables build ++ (if a then instrument_keys else []))
    (fun v y => if String.eqb v var && Z.eqb y 2013%Z then x else panel_cell z u r v y).
Proof. reflexivity. Qed.

Lemma panel_write_ZKF a z u r x :
  write (panel a z u r) "ZKF_" 2013%Z x = panel a x u r.
Proof.
  unfold write, panel. cbn [years columns cell]. f_equal.
  extensionality v. extensionality y. unfold panel_cell.
  destruct (String.eqb_spec v "ZKF_") as [-> | ?]; [|reflexivity].
  cbn. destruct (Z.eqb y 2013%Z); reflexivity.
Qed.

Lemma panel_write_U a z u r x :
  write (panel a z u r) "U_" 2013%Z x = panel a z x r.
Proof.
  unfold write, panel. cbn [years columns cell]. f_equal.
  extensionality v. extensionality y. unfold panel_cell.
  destruct (String.eqb_spec v "U_") as [-> | ?]; [|reflexivity].
  cbn. destruct (Z.eqb y 2013%Z); reflexivity.
Qed.

Lemma panel_write_UR a z u r x :
  write (panel a z u r) "UR_" 2013%Z x = panel a z u x.
Proof.
  unfold write, panel. cbn [years columns cell]. f_equal.
  extensionality v. extensionality y. unfold panel_cell.
  destruct (String.eqb_spec v "UR_") as [-> | ?]; [|reflexivity].
  cbn. destruct (Z.eqb y 2013%Z); reflexivity.
Qed.

Lemma panel_has_var a z u r var :
  existsb (String.eqb var) (all_variables build) = true ->
  has_var (panel a z u r) var = true.
Proof.
  intros H. unfold has_var, panel. cbn [columns]. rewrite existsb_app.
  apply orb_true_iff. left. exact H.
Qed.

Lemma panel_get a z u r var :
  existsb (String.eqb var) (all_variables build) = true ->
  get (panel a z u r) var 2013%Z = Ok (panel_cell z u r var 2013%Z).
Proof. intros H. apply get_ok; [now apply panel_has_var | reflexivity]. Qed.

Lemma registered var :
  existsb (String.eqb var) (all_variables build) = true ->
  exists eq, registry_get build var = Some eq.
Proof.
  intros H. apply existsb_exists in H. destruct H as (x & Hin & Hx).
  apply String.eqb_eq in Hx. subst x.
  cbn in Hin. unfold registry_get. rewrite equations_build.
  repeat (destruct Hin as [<- | Hin]; [eexists; reflexivity|]). contradiction.
Qed.

Lemma panel_inter_step a z u r m var :
  existsb (String.eqb var) (all_variables build) = true ->
  exists m',
    inter_step engine_solver 2013%Z (panel a z u r, m) var =
      Ok (panel a (after_z var z) (after_u var u) (after_r var u r), m') /\ m <= m'.
Proof.
  intros Hin. destruct (registered var Hin) as (eq & E).
  eexists. split.
  - rewrite (inter_step_value engine_solver eq_refl 2013%Z (panel a z u r) m var eq
               (panel_cell z u r var 2013%Z) (panel_value z u r var) E);
      [ | now apply panel_get | now apply panel_equation ].
    f_equal. f_equal.
    unfold after_z, after_u, after_r, panel_value.
    destruct (String.eqb_spec var "ZKF_") as [-> | Hz].
    { cbn. rewrite panel_write_ZKF. f_equal. lra. }
    destruct (String.eqb_spec var "U_") as [-> | Hu].
    { cbn. rewrite panel_write_U. f_equal. lra. }
    destruct (String.eqb_spec var "UR_") as [-> | Hr].
    { cbn. rewrite panel_write_UR. f_equal. lra. }
    apply write_id. cbn [cell panel relaxation engine_solver new_solver]. lra.
  - apply fmax_spec.
Qed.

Lemma panel_sweep_from a l :
  forallb (fun var => existsb (String.eqb var) (all_variables build)) l = true ->
  forall zur m,
  exists m',
    foldM (inter_step engine_solver 2013%Z) l (panel_of a zur, m) =
      Ok (panel_of a (after_all l zur), m') /\ m <= m'.
Proof.
  induction l as [|var l IH]; intros Hl [[z u] r] m.
  - exists m. split; [reflexivity | lra].
  - cbn [forallb] in Hl. apply andb_true_iff in Hl. destruct Hl as [Hv Hl].
    destruct (panel_inter_step a z u r m var Hv) as (m1 & E1 & Hm1).
    destruct (IH Hl (after_z var z, after_u var u, after_r var u r) m1)
      as (m2 & E2 & Hm2).
    exists m2. split; [|lra].
    cbn [foldM panel_of after_all]. rewrite E1. cbn [bind]. exact E2.
Qed.

Lemma panel_sweep a z u r :
  exists m,
    sweep engine_solver 2013%Z (panel a z u r) =
      Ok (panel a (0.16 + 0.8 * z) (0.201 + 0.8 * u)
                  (0.2 * ((0.201 + 0.8 * u) / 1.005) + 0.8 * r), m).
Proof.
  destruct (panel_sweep_from a (inter_order build) eq_refl (z, u, r) 0)
    as (m & E & _).
  exists m. unfold sweep. change (solver_registry engine_solver) with build.
  change (panel a z u r) with (panel_of a (z, u, r)). rewrite E.
  f_equal. f_equal. cbn. f_equal; lra.
Qed.

(** Phases 1 and 3 find every value already in place. *)
Lemma panel_phase a z u r l :
  forallb (fun var => existsb (String.eqb var) (all_variables build)
                      && negb (existsb (String.eqb var) ["ZKF_"; "U_"; "UR_"])) l = true ->
  foldM (recursive_step engine_solver 2013%Z) l (panel a z u r) = Ok (panel a z u r).
Proof.
  induction l as [|var l IH]; intros Hl; [reflexivity|].
  cbn [forallb] in Hl. apply andb_true_iff in Hl. destruct Hl as [Hv Hl].
  apply andb_true_iff in Hv. destruct Hv as [Hv Hn].
  destruct (registered var Hv) as (eq & E).
  cbn [foldM].
  rewrite (recursive_step_value engine_solver eq_refl 2013%Z (panel a z u r) var eq
             (panel_value z u r var) E);
    [ | now apply panel_equation | now apply panel_has_var | reflexivity ].
  cbn [bind]. rewrite write_id; [now apply IH|].
  unfold panel_value. cbn [existsb] in Hn.
  destruct (String.eqb var "ZKF_"), (String.eqb var "U_"), (String.eqb var "UR_");
    try discriminate Hn. reflexivity.
Qed.

(** After [k] sweeps the two cells have covered the fraction [1 - 0.8^k] of
    the way to the values their equations return. *)
Lemma panel_inter_phase a its :
  forall z u r it0 m0,
  exists k z' u' r' res,
    inter_phase engine_solver 2013%Z its (panel a z u r) it0 m0 =
      Ok (panel a z' u' r', res) /\
    (k <= List.length its)%nat /\ (its <> [] -> (1 <= k)%nat) /\
    z' = 0.8 - (0.8 - z) * 0.8 ^ k /\
    u' = 1.005 - (1.005 - u) * 0.8 ^ k.
Proof.
  induction its as [|it its IH]; intros z u r it0 m0.
  - exists 0%nat, z, u, r. eexists. cbn. repeat split; try lia; try lra.
    congruence.
  - destruct (panel_sweep a z u r) as (m & Es).
    cbn [inter_phase]. rewrite Es. cbn [bind].
    destruct (m <? eps engine_solver).
    + exists 1%nat. do 4 eexists. split; [reflexivity|].
      cbn [List.length pow]. repeat split; try lia; lra.
    + destruct (IH (0.16 + 0.8 * z) (0.201 + 0.8 * u)
                   (0.2 * ((0.201 + 0.8 * u) / 1.005) + 0.8 * r) it m)
        as (k & z' & u' & r' & res & E & Hk & _ & Hz & Hu).
      exists (S k), z', u', r', res. split; [exact E|].
      cbn [List.length pow]. repeat split; try lia.
      * rewrite Hz. generalize (0.8 ^ k). intros p. nra.
      * rewrite Hu. generalize (0.8 ^ k). intros p. nra.
Qed.

Lemma pow_08_bounds k : (1 <= k)%nat -> 0 < 0.8 ^ k <= 0.8.
Proof.
  intros Hk. split; [apply pow_lt; lra|].
  destruct k as [|k]; [lia|]. cbn [pow].
  assert (0 < 0.8 ^ k <= 1) as [H0 H1].
  { split; [apply pow_lt; lra|]. clear Hk. induction k; cbn [pow]; nra. }
  nra.
Qed.

Lemma panel_solve_year a z u r :
  exists k z' u' r' conv,
    solve_year engine_solver (panel a z u r) 2013%Z = Ok (panel a z' u' r', conv) /\
    (1 <= k)%nat /\
    z' = 0.8 - (0.8 - z) * 0.8 ^ k /\
    u' = 1.005 - (1.005 - u) * 0.8 ^ k.
Proof.
  unfold solve_year. change (solver_registry engine_solver) with build.
  rewrite panel_phase by reflexivity. cbn [bind].
  destruct (panel_inter_phase a (seq 1 (max_iter engine_solver)) z u r 0%nat 0)
    as (k & z' & u' & r' & [[it m] st] & E & _ & Hk & Hz & Hu).
  rewrite E. cbn [bind].
  rewrite panel_phase by reflexivity. cbn [bind].
  exists k, z', u', r'. eexists. split; [reflexivity|].
  split; [|auto]. apply Hk. discriminate.
Qed.

Lemma panel_solve a z u r :
  exists k z' u' r' convs,
    solve engine_solver (panel a z u r) (sim_years (panel a z u r)) =
      Ok (panel a z' u' r', convs) /\
    (1 <= k)%nat /\
    z' = 0.8 - (0.8 - z) * 0.8 ^ k /\
    u' = 1.005 - (1.005 - u) * 0.8 ^ k.
Proof.
  destruct (panel_solve_year a z u r) as (k & z' & u' & r' & conv & E & H).
  exists k, z', u', r', [conv]. split; [|exact H].
  unfold solve. cbn [sim_years years panel tl foldM]. rewrite E. reflexivity.
Qed.

(** ** Numeric guards *)

Lemma behavioral_log_change_complete eq :
  In eq (map snd (equations build)) -> equation_type eq = BEHAVIORAL ->
  eq = production.OutputEquation \/ In eq behavioral_log_change.
Proof.
  rewrite equations_build. cbn [map snd]. intros Hin Hty.
  repeat (destruct Hin as [<- | Hin];
          [first [ discriminate Hty | left; reflexivity | right; cbn; tauto ] | ]).
  contradiction.
Qed.

Lemma behavioral_log_change_typed eq :
  In eq behavioral_log_change ->
  equation_type eq = BEHAVIORAL /\ registry_get build (name eq) = Some eq.
Proof.
  intros Hin. cbn in Hin.
  repeat (destruct Hin as [<- | Hin]; [split; reflexivity|]). contradiction.
Qed.

Lemma log_change_guard eq :
  In eq behavioral_log_change ->
  forall s t sc prev,
  lag s (name eq) t 1 = Ok prev -> prev <= 0 -> compute eq s t sc = Ok prev.
Proof.
  intros Hin s t sc prev Hlag Hprev. cbn in Hin.
  repeat (destruct Hin as [<- | Hin];
          [ match goal with |- compute ?e _ _ _ = _ => unfold e in * end;
            cbn [compute name] in *; rewrite Hlag; cbn [bind];
            rewrite (proj2 (Rleb_true prev 0) Hprev); reflexivity | ]).
  contradiction.
Qed.

(** C7. Numerical degeneracy raises nothing: on known cells [dln] is 0.0 as
    soon as the current or the lagged value is non-positive, [grt] is 0.0
    when the lagged value is zero, and every behavioral log-change equation
    returns the lagged target unchanged when it is non-positive. *)
Theorem degeneracy_guards :
  (forall s var t cur prev,
     get s var t = Ok cur -> lag s var t 1 = Ok prev ->
     cur <= 0 \/ prev <= 0 -> dln s var t = Ok 0)
  /\ (forall s var t, lag s var t 1 = Ok 0 -> grt s var t = Ok 0)
  /\ (forall eq, In eq behavioral_log_change ->
      forall s t sc prev,
        lag s (name eq) t 1 = Ok prev -> prev <= 0 ->
        compute eq s t sc = Ok prev)
  /\ (forall eq, In eq (map snd (equations build)) ->
      equation_type eq = BEHAVIORAL ->
      eq = production.OutputEquation \/ In eq behavioral_log_change).
Proof.
  repeat split.
  - intros s var t cur prev Hc Hp Hle. unfold dln. rewrite Hc, Hp. cbn [bind].
    destruct Hle as [Hle | Hle].
    + now rewrite (proj2 (Rleb_true cur 0) Hle).
    + rewrite (proj2 (Rleb_true prev 0) Hle). now rewrite orb_true_r.
  - intros s var t Hp. unfold grt. rewrite Hp. cbn [bind].
    now rewrite (proj2 (Reqb_true 0 0) eq_refl).
  - exact log_change_guard.
  - exact behavioral_log_change_complete.
Qed.

(** ** The clamped exponential *)

Lemma safe_exp_clamp x : safe_exp x 0.5 = exp (spec_clamp x (-0.5) 0.5).
Proof.
  unfold safe_exp, spec_clamp, fmax, fmin. f_equal.
  destruct (Rlt_dec x (-0.5)), (Rlt_dec 0.5 x), (Rltb_spec x 0.5); try lra;
    match goal with |- context [?a <? ?b] => destruct (Rltb_spec a b) end; lra.
Qed.

Lemma exp_le x y : x <= y -> exp x <= exp y.
Proof.
  intros [H | ->]; [left; now apply exp_increasing | right; reflexivity].
Qed.

Lemma safe_exp_bounds x : exp (-0.5) <= safe_exp x 0.5 <= exp 0.5.
Proof.
  rewrite safe_exp_clamp. unfold spec_clamp.
  destruct (Rlt_dec x (-0.5)), (Rlt_dec 0.5 x); split; apply exp_le; lra.
Qed.

Lemma log_change_shape eq :
  In eq behavioral_log_change ->
  forall s t sc, cols_ok s -> year_ok s t ->
  returns (compute eq s t sc) (log_change_result (cell s (name eq) (t - 1)%Z)).
Proof.
  intros Hin s t sc Hc Hy. cbn in Hin.
  repeat (destruct Hin as [<- | Hin];
          [ first [ now apply shape_LabourHoursEquation
                  | now apply shape_WageEquation
                  | now apply shape_ConsumptionEquation
                  | now apply shape_BusinessInvestmentEquation
                  | now apply shape_HousingInvestmentEquation
                  | now apply shape_ExportVolumeEquation
                  | now apply shape_ImportVolumeEquation
                  | now apply shape_ConsumerPriceEquation
                  | now apply shape_BusinessInvestmentDeflatorEquation
                  | now apply shape_HousingInvestmentDeflatorEquation
                  | now apply shape_ExportPriceEquation ] | ]).
  contradiction.
Qed.

(** C8. [safe_exp] is the exponential of its argument clamped to
    [-0.5, 0.5], so it lies between [exp(-0.5)] and [exp(0.5)]; hence a
    behavioral log-change equation whose lagged target [prev] is positive
    returns a value between [prev * exp(-0.5)] and [prev * exp(0.5)]. *)
Theorem clamped_exp_bounds :
  (forall x, safe_exp x 0.5 = exp (spec_clamp x (-0.5) 0.5))
  /\ (forall x, exp (-0.5) <= safe_exp x 0.5 <= exp 0.5)
  /\ (forall eq, In eq behavioral_log_change ->
      forall s t sc prev,
        cols_ok s -> year_ok s t ->
        lag s (name eq) t 1 = Ok prev -> 0 < prev ->
        exists v, compute eq s t sc = Ok v /\
                  prev * exp (-0.5) <= v <= prev * exp 0.5).
Proof.
  split; [exact safe_exp_clamp|]. split; [exact safe_exp_bounds|].
  intros eq Hin s t sc prev Hc Hy Hlag Hprev.
  apply get_inv in Hlag. destruct Hlag as (_ & _ & Hcell).
  destruct (log_change_shape eq Hin s t sc Hc Hy) as (v & Ev & Hv).
  exists v. split; [exact Ev|].
  rewrite Hcell in Hv. destruct Hv as [[Hle _] | [_ (x & ->)]]; [lra|].
  pose proof (safe_exp_bounds x) as [Hlo Hhi].
  split; apply Rmult_le_compat_l; lra.
Qed.

(** ** The solver's contract *)

Lemma inter_registered var :
  In var (inter_order build) -> exists eq, registry_get build var = Some eq.
Proof.
  intros Hin. apply registered. apply existsb_exists. exists var.
  split; [|apply String.eqb_refl].
  unfold all_variables. apply in_or_app. right. apply in_or_app. now left.
Qed.

Lemma inter_step_rule st t m var :
  solvable st t -> In var (inter_order build) ->
  exists eq old raw,
    registry_get build var = Some eq /\
    get st var t = Ok old /\
    compute eq st t engine_scalars = Ok raw /\
    inter_step engine_solver t (st, m) var =
      Ok (write st var t (0.2 * raw + 0.8 * old),
          fmax m (spec_residual old (0.2 * raw + 0.8 * old))).
Proof.
  intros (Hc & Hy & Hv) Hin.
  destruct (inter_registered var Hin) as (eq & E).
  assert (existsb (String.eqb var) (all_variables build) = true) as Hall.
  { apply existsb_exists. exists var. split; [|apply String.eqb_refl].
    unfold all_variables. apply in_or_app. right. apply in_or_app. now left. }
  assert (has_var st var = true) as Hcol by now apply cols_ok_has.
  destruct (registry_total var eq st t engine_scalars E Hc Hy (fun _ => Hv))
    as (raw & Eraw & _).
  exists eq, (cell st var t), raw.
  split; [exact E|]. split; [apply get_ok; [exact Hcol | apply Hy]|].
  split; [exact Eraw|].
  rewrite (inter_step_value engine_solver eq_refl t st m var eq (cell st var t) raw E);
    [ | apply get_ok; [exact Hcol | apply Hy] | exact Eraw ].
  cbn [relaxation engine_solver new_solver].
  replace (0.2 * raw + (1 - 0.2) * cell st var t)
    with (0.2 * raw + 0.8 * cell st var t) by lra.
  reflexivity.
Qed.

Lemma solve_year_exit st t :
  presolvable st t ->
  exists s1 s2 s3 conv,
    foldM (recursive_step engine_solver t) (pre_order build) st = Ok s1 /\
    foldM (recursive_step engine_solver t) (post_order build) s2 = Ok s3 /\
    solve_year engine_solver st t = Ok (s3, conv) /\
    year conv = t /\
    ((status conv = CONVERGED /\
      (1 <= iterations conv <= max_iter engine_solver)%nat /\
      sweeps engine_solver t (iterations conv) s1 0 = Ok (s2, max_residual conv) /\
      max_residual conv < eps engine_solver /\
      forall j, (1 <= j < iterations conv)%nat ->
        exists sj mj, sweeps engine_solver t j s1 0 = Ok (sj, mj) /\
                      eps engine_solver <= mj)
     \/
     (status conv = MAX_ITERATIONS /\
      iterations conv = max_iter engine_solver /\
      sweeps engine_solver t (max_iter engine_solver) s1 0 = Ok (s2, max_residual conv) /\
      forall j, (1 <= j <= max_iter engine_solver)%nat ->
        exists sj mj, sweeps engine_solver t j s1 0 = Ok (sj, mj) /\
                      eps engine_solver <= mj)).
Proof.
  intros Hs.
  destruct (pre_phase_returns engine_solver eq_refl eq_refl t st Hs)
    as (s1 & E1 & Hs1 & _).
  destruct (inter_phase_returns engine_solver eq_refl t
              (seq 1 (max_iter engine_solver)) s1 0%nat 0 Hs1)
    as ([s2 [[it m] stt]] & E2 & Hs2).
  cbn [fst] in Hs2.
  destruct (phase_returns engine_solver eq_refl t (post_order build) eq_refl s2)
    as (s3 & E3 & _); [apply Hs2 | apply Hs2 |].
  exists s1, s2, s3,
    {| year := t; iterations := it; max_residual := m; status := stt |}.
  split; [exact E1|]. split; [exact E3|].
  split.
  { unfold solve_year. change (solver_registry engine_solver) with build.
    rewrite E1. cbn [bind]. rewrite E2. cbn [bind]. rewrite E3. reflexivity. }
  split; [reflexivity|]. cbn [status iterations max_residual].
  apply inter_phase_seq in E2.
  destruct E2 as [(-> & k & Hk & -> & Hsw & Hm & Hprev)
                 | (-> & Hsw & _ & Hit & Hprev)].
  - left. split; [reflexivity|].
    replace (1 + k - 1)%nat with k by lia. auto.
  - right. split; [reflexivity|].
    rewrite Hit by discriminate.
    replace (1 + max_iter engine_solver - 1)%nat with (max_iter engine_solver) by lia.
    auto.
Qed.

(** C1. Phase 2 of a year sweeps the fixed inter order; each update computes
    the equation, stores [0.2 * raw + 0.8 * old] and records the residual
    [|relaxed - old| / |old|] ([|relaxed - old|] when [|old| <= 1e-10]); the
    year ends CONVERGED at the first sweep whose maximum residual is below
    [1e-4], MAX_ITERATIONS after 1000 sweeps otherwise; nothing is raised,
    and [solve] returns one report per year. *)
Theorem inter_phase_contract (s : SimulationState) (sim_years : list Year) :
  (forall t, In t sim_years -> presolvable s t) ->
  (exists s' reports,
     solve engine_solver s sim_years = Ok (s', reports) /\
     map year reports = sim_years)
  /\
  (forall st t, presolvable st t ->
     exists s1 s2 s3 conv,
       foldM (recursive_step engine_solver t) (pre_order build) st = Ok s1 /\
       foldM (recursive_step engine_solver t) (post_order build) s2 = Ok s3 /\
       solve_year engine_solver st t = Ok (s3, conv) /\
       year conv = t /\
       ((status conv = CONVERGED /\
         (1 <= iterations conv <= 1000)%nat /\
         sweeps engine_solver t (iterations conv) s1 0 = Ok (s2, max_residual conv) /\
         max_residual conv < 0.0001 /\
         forall j, (1 <= j < iterations conv)%nat ->
           exists sj mj, sweeps engine_solver t j s1 0 = Ok (sj, mj) /\ 0.0001 <= mj)
        \/
        (status conv = MAX_ITERATIONS /\
         iterations conv = 1000%nat /\
         sweeps engine_solver t 1000 s1 0 = Ok (s2, max_residual conv) /\
         forall j, (1 <= j <= 1000)%nat ->
           exists sj mj, sweeps engine_solver t j s1 0 = Ok (sj, mj) /\ 0.0001 <= mj)))
  /\
  (forall st t,
     sweep engine_solver t st =
     foldM (inter_step engine_solver t)
       ["K_"; "Y_"; "YSTAR_"; "YGAP_"; "ZKF_"; "LH_"; "L_"; "U_"; "UR_"; "W_";
        "WG_"; "ULC_"; "COST_"; "PC_"; "PIF_"; "PIH_"; "PIG_"; "PX_"; "RREAL_";
        "PROFIT_"; "CG_"; "YDH_"; "C_"; "IF_"; "IH_"; "DD_"; "X_"; "M_"; "GDP_";
        "PGDP_"; "GDPN_"; "GRECEIPTS_"; "GEXPENSE_"; "D_"; "B_"] (st, 0))
  /\
  (forall st t m var, solvable st t -> In var (inter_order build) ->
     exists eq old raw,
       registry_get build var = Some eq /\
       get st var t = Ok old /\
       compute eq st t engine_scalars = Ok raw /\
       inter_step engine_solver t (st, m) var =
         Ok (write st var t (0.2 * raw + 0.8 * old),
             fmax m (spec_residual old (0.2 * raw + 0.8 * old)))).
Proof.
  intros Hs. split; [|split; [|split]].
  - destruct (solve_returns engine_solver eq_refl eq_refl s sim_years Hs)
      as ([s' reports] & E & Hy).
    exists s', reports. auto.
  - exact solve_year_exit.
  - reflexivity.
  - exact inter_step_rule.
Qed.

(** C10. A year never ends with the status DIVERGED: whatever the solver,
    the panel and the year, a returned report is CONVERGED or
    MAX_ITERATIONS; and on a well-formed frame the engine's solver does
    return one. *)
Theorem never_diverged (self : GaussSeidelSolver) (s : SimulationState) (t : Year) :
  (forall s' conv, solve_year self s t = Ok (s', conv) ->
     status conv = CONVERGED \/ status conv = MAX_ITERATIONS)
  /\
  (presolvable s t ->
     exists s' conv, solve_year engine_solver s t = Ok (s', conv) /\
                     status conv <> DIVERGED).
Proof.
  assert (forall slv s' conv, solve_year slv s t = Ok (s', conv) ->
            status conv = CONVERGED \/ status conv = MAX_ITERATIONS) as Hst.
  { intros slv s' conv E. unfold solve_year in E.
    apply bind_ok_inv in E. destruct E as (s1 & _ & E).
    apply bind_ok_inv in E. destruct E as ([s2 [[it m] st]] & E2 & E).
    apply bind_ok_inv in E. destruct E as (s3 & _ & E).
    inversion E; subst; clear E. cbn [status].
    eapply inter_phase_status; eauto. }
  split; [apply Hst|].
  intros Hs.
  destruct (solve_year_returns engine_solver eq_refl eq_refl s t Hs)
    as ([s' conv] & E & _).
  exists s', conv. split; [exact E|].
  destruct (Hst _ _ _ E) as [H | H]; rewrite H; discriminate.
Qed.

(** ** Dictionaries *)

Lemma dict_get_set_same {K V} `{Key K} (dct : dict K V) k v :
  dict_get (dict_set dct k v) k = Some v.
Proof.
  induction dct as [|[k' v'] dct IH]; cbn.
  - destruct (key_eqb_spec k k); [reflexivity | contradiction].
  - destruct (key_eqb_spec k' k) as [-> | Hne]; cbn.
    + destruct (key_eqb_spec k k); [reflexivity | contradiction].
    + destruct (key_eqb_spec k' k); [contradiction | exact IH].
Qed.

Lemma dict_get_set_other {K V} `{Key K} (dct : dict K V) k v k' :
  k' <> k -> dict_get (dict_set dct k v) k' = dict_get dct k'.
Proof.
  intros Hne. induction dct as [|[k0 v0] dct IH]; cbn.
  - destruct (key_eqb_spec k k'); [congruence | reflexivity].
  - destruct (key_eqb_spec k0 k) as [-> | Hne0]; cbn.
    + destruct (key_eqb_spec k k'); [congruence | reflexivity].
    + destruct (key_eqb_spec k0 k'); [reflexivity | exact IH].
Qed.

(** A dictionary filled key by key holds, for every key, the value computed
    for it. *)
Lemma dict_fill {K V} `{Key K} (f : K -> result V) (keys : list K) :
  forall d0 dct,
  foldM (fun acc k => v <- f k ;; Ok (dict_set acc k v)) keys d0 = Ok dct ->
  forall k,
    (In k keys -> exists v, f k = Ok v /\ dict_get dct k = Some v) /\
    (~ In k keys -> dict_get dct k = dict_get d0 k).
Proof.
  induction keys as [|x keys IH]; intros d0 dct E k; cbn [foldM] in E.
  - inversion E; subst. split; [intros [] | reflexivity].
  - apply bind_ok_inv in E. destruct E as (d1 & E1 & E).
    apply bind_ok_inv in E1. destruct E1 as (v0 & Ev0 & E1).
    inversion E1; subst d1; clear E1.
    destruct (IH _ _ E k) as [Hin Hout].
    assert (In k keys \/ ~ In k keys) as [Hk | Hk].
    { destruct (in_dec (fun a b => reflect_dec _ _ (key_eqb_spec a b)) k keys); auto. }
    + split; [intros _; now apply Hin | intros Hn; exfalso; apply Hn; now right].
    + split.
      * intros [<- | Hk']; [|contradiction].
        exists v0. split; [exact Ev0|]. rewrite (Hout Hk). apply dict_get_set_same.
      * intros Hn. rewrite (Hout Hk). apply dict_get_set_other.
        intros ->. apply Hn. now left.
Qed.

Lemma dict_fill_returns {K V} `{Key K} (f : K -> result V) (keys : list K) d0 :
  (forall k, In k keys -> exists v, f k = Ok v) ->
  exists dct, foldM (fun acc k => v <- f k ;; Ok (dict_set acc k v)) keys d0 = Ok dct.
Proof.
  revert d0. induction keys as [|x keys IH]; intros d0 Hf; cbn [foldM].
  - eauto.
  - destruct (Hf x (or_introl eq_refl)) as (v & ->). cbn [bind].
    apply IH. intros k Hk. apply Hf. now right.
Qed.

(** ** Impacts *)

Lemma is_absolute_spec var :
  is_absolute var = true <->
  In var ["DR_"; "UR_"; "BR_"; "TBR_"; "YGAP_"; "ZKF_"].
Proof.
  unfold is_absolute, ABSOLUTE_IMPACT_VARS. rewrite existsb_exists. split.
  - intros (x & Hin & Hx). apply String.eqb_eq in Hx. now subst.
  - intros Hin. exists var. split; [exact Hin | apply String.eqb_refl].
Qed.

Lemma impact_value_spec baseline scenario var t base scen :
  get baseline var t = Ok base -> get scenario var t = Ok scen ->
  impact_value baseline scenario var t = Ok (spec_impact var base scen).
Proof.
  intros Hb Hs. unfold impact_value, spec_impact. rewrite Hb, Hs. cbn [bind].
  destruct (in_dec string_dec var _) as [Hin | Hin].
  - apply is_absolute_spec in Hin. now rewrite Hin.
  - destruct (is_absolute var) eqn:Ha;
      [exfalso; apply Hin; now apply is_absolute_spec|].
    rewrite fabs_Rabs.
    destruct (Rltb_spec 1e-10 (Rabs base)), (Rlt_dec 1e-10 (Rabs base));
      try contradiction; [|reflexivity].
    unfold fdiv. destruct (Reqb_spec base 0) as [-> | _]; [|reflexivity].
    rewrite Rabs_R0 in *. lra.
Qed.

(** [compute_impacts] fills every requested cell with the specified value. *)
Lemma compute_impacts_spec (baseline scenario : SimulationState)
    (variables : list VarName) (sim_years : list Year) :
  (forall var t, In var variables -> In t sim_years ->
     exists base scen,
       get baseline var t = Ok base /\ get scenario var t = Ok scen) ->
  exists impacts,
    compute_impacts baseline scenario variables sim_years = Ok impacts /\
    forall var t, In var variables -> In t sim_years ->
      exists base scen row,
        get baseline var t = Ok base /\ get scenario var t = Ok scen /\
        dict_get impacts var = Some row /\
        dict_get row t = Some (spec_impact var base scen).
Proof.
  intros Hcells.
  set (rowf := fun var : VarName =>
         foldM (fun row t =>
                  v <- impact_value baseline scenario var t ;; Ok (dict_set row t v))
               sim_years ([] : dict Year R)).
  assert (forall var, In var variables -> exists row, rowf var = Ok row) as Hrow.
  { intros var Hvar. apply dict_fill_returns. intros t Ht.
    destruct (Hcells var t Hvar Ht) as (b & s & Hb & Hs).
    eexists. eapply impact_value_spec; eassumption. }
  assert (forall d0, exists d1,
            foldM (fun impacts var =>
                     let impacts := dict_set impacts var [] in
                     row <- rowf var ;; Ok (dict_set impacts var row))
                  variables d0 = Ok d1 /\
            forall var, In var variables ->
              exists row, rowf var = Ok row /\ dict_get d1 var = Some row) as Hout.
  { clear Hcells. induction variables as [|x vars IH]; intros d0; cbn [foldM].
    - exists d0. split; [reflexivity | intros var []].
    - destruct (Hrow x (or_introl eq_refl)) as (rx & Erx). rewrite Erx. cbn [bind].
      destruct (IH (fun v Hv => Hrow v (or_intror Hv))
                   (dict_set (dict_set d0 x []) x rx)) as (d1 & E1 & H1).
      exists d1. split; [exact E1|].
      intros var [<- | Hvar]; [|now apply H1].
      destruct (in_dec string_dec x vars) as [Hin | Hout]; [now apply H1|].
      exists rx. split; [exact Erx|].
      assert (forall d, foldM (fun impacts var =>
                                 let impacts := dict_set impacts var [] in
                                 row <- rowf var ;; Ok (dict_set impacts var row)) vars d = Ok d1 ->
                        dict_get d1 x = dict_get d x) as Hkeep.
      { clear - Hout. revert d1. induction vars as [|y vars IHv]; intros d1 d E; cbn [foldM] in E.
        - inversion E; reflexivity.
        - apply bind_ok_inv in E. destruct E as (d2 & E2 & E).
          apply bind_ok_inv in E2. destruct E2 as (ry & _ & E2).
          inversion E2; subst d2; clear E2.
          rewrite (IHv (fun H => Hout (or_intror H)) _ _ E).
          rewrite !dict_get_set_other; [reflexivity | |];
            intros ->; apply Hout; now left. }
      rewrite (Hkeep _ E1). apply dict_get_set_same. }
  destruct (Hout []) as (d1 & E1 & H1).
  exists d1. split; [exact E1|].
  intros var t Hvar Ht.
  destruct (Hcells var t Hvar Ht) as (b & s & Hb & Hs).
  destruct (H1 var Hvar) as (row & Erow & Hget).
  exists b, s, row. repeat split; auto.
  destruct (dict_fill _ _ _ _ Erow t) as [Hin _].
  destruct (Hin Ht) as (v & Ev & Hv).
  rewrite (impact_value_spec _ _ _ _ _ _ Hb Hs) in Ev. inversion Ev; subst. exact Hv.
Qed.

(** C6. [compute_impacts] follows the per-variable rule: percentage points
    for the six ratio variables, percent deviation when the baseline value
    exceeds [1e-10] in absolute value, and 0 otherwise. *)
Theorem compute_impacts_rule (baseline scenario : SimulationState)
    (variables : list VarName) (sim_years : list Year) :
  (forall var t, In var variables -> In t sim_years ->
     exists base scen,
       get baseline var t = Ok base /\ get scenario var t = Ok scen) ->
  exists impacts,
    compute_impacts baseline scenario variables sim_years = Ok impacts /\
    forall var t, In var variables -> In t sim_years ->
      exists base scen row,
        get baseline var t = Ok base /\ get scenario var t = Ok scen /\
        dict_get impacts var = Some row /\
        dict_get row t = Some (spec_impact var base scen).
Proof. exact (compute_impacts_spec baseline scenario variables sim_years). Qed.


(** ** Validation of instruments *)

Lemma append_assoc (a b c : string) :
  ((a ++ b) ++ c)%string = (a ++ b ++ c)%string.
Proof. induction a as [|ch a IH]; cbn; [reflexivity | now rewrite IH]. Qed.

Lemma occurs_in_refl k : occurs_in k k.
Proof.
  exists "", "". cbn. induction k as [|ch k IH]; cbn; [reflexivity | now rewrite <- IH].
Qed.

Lemma occurs_in_append_l k a b : occurs_in k a -> occurs_in k (a ++ b)%string.
Proof.
  intros (pre & post & ->). exists pre, (post ++ b)%string.
  now rewrite !append_assoc.
Qed.

Lemma occurs_in_append_r k a b : occurs_in k b -> occurs_in k (a ++ b)%string.
Proof.
  intros (pre & post & ->). exists (a ++ pre)%string, post.
  now rewrite !append_assoc.
Qed.

Lemma occurs_in_trans a b c : occurs_in a b -> occurs_in b c -> occurs_in a c.
Proof.
  intros Hab (pre & post & ->).
  apply occurs_in_append_r, occurs_in_append_l. exact Hab.
Qed.

Lemma occurs_in_concat sep e errors :
  In e errors -> occurs_in e (String.concat sep errors).
Proof.
  induction errors as [|x [|y errors] IH]; intros Hin.
  - contradiction.
  - destruct Hin as [<- | []]. apply occurs_in_refl.
  - destruct Hin as [<- | Hin].
    + cbn [String.concat]. apply occurs_in_append_l, occurs_in_refl.
    + cbn [String.concat]. apply occurs_in_append_r, occurs_in_append_r.
      apply IH. exact Hin.
Qed.

Section Validation.

Variable float_str : R -> string.
Variable round : R -> Z -> R.

Lemma validate_flat_map values :
  instruments.validate_instruments float_str values =
  flat_map (instruments.entry_errors float_str) values.
Proof.
  unfold instruments.validate_instruments.
  assert (forall acc,
            fold_left (fun errors kv => errors ++ instruments.entry_errors float_str kv)
              values acc
            = acc ++ flat_map (instruments.entry_errors float_str) values) as H.
  { induction values as [|kv values IH]; intros acc; cbn [fold_left flat_map].
    - now rewrite app_nil_r.
    - rewrite IH. now rewrite app_assoc. }
  apply (H []).
Qed.

(** One message per offending entry, naming its key; none for a valid one. *)
Lemma entry_errors_spec kv :
  (offending kv ->
     exists msg, instruments.entry_errors float_str kv = [msg] /\
                 occurs_in (fst kv) msg)
  /\ (~ offending kv -> instruments.entry_errors float_str kv = []).
Proof.
  destruct kv as [k v]. unfold offending, instruments.entry_errors. cbn [fst snd].
  destruct (dict_get instruments.INSTRUMENT_MAP k) as [spec|].
  - destruct (Rltb_spec v (instruments.min_val spec)) as [Hlo | Hlo];
      destruct (Rltb_spec (instruments.max_val spec) v) as [Hhi | Hhi];
      cbn [orb]; split; intros Hoff;
      try (exfalso; apply Hoff; lra); try (exfalso; lra); try reflexivity;
      eexists; (split; [reflexivity | apply occurs_in_append_l, occurs_in_refl]).
  - split; intros Hoff; [|exfalso; now apply Hoff].
    eexists. split; [reflexivity|]. apply occurs_in_append_r, occurs_in_refl.
Qed.

Lemma validate_nil_iff values :
  instruments.validate_instruments float_str values = [] <->
  forall kv, In kv values -> ~ offending kv.
Proof.
  rewrite validate_flat_map. induction values as [|kv values IH]; cbn [flat_map].
  - split; [intros _ kv [] | reflexivity].
  - split.
    + intros E. apply app_eq_nil in E. destruct E as [E1 E2].
      intros kv' [<- | Hin]; [|now apply IH].
      intros Hoff. destruct (proj1 (entry_errors_spec kv) Hoff) as (msg & Em & _).
      congruence.
    + intros Hall.
      rewrite (proj2 (entry_errors_spec kv)) by (apply Hall; now left).
      apply IH. intros kv' Hin. apply Hall. now right.
Qed.

(** C4. [validate_instruments] returns one message per offending entry
    (unknown key, or value outside the declared range), so the empty list
    exactly when every entry is valid; [simulate] called with an offending
    entry raises [ValueError] with the message ["Invalid instruments: "]
    followed by the messages joined by ["; "], in which every offending key
    occurs, and leaves the engine and every panel as they were. *)
Theorem invalid_instruments_rejected :
  (forall values,
     instruments.validate_instruments float_str values =
     flat_map (instruments.entry_errors float_str) values)
  /\ (forall kv,
        (offending kv ->
           exists msg, instruments.entry_errors float_str kv = [msg] /\
                       occurs_in (fst kv) msg)
        /\ (~ offending kv -> instruments.entry_errors float_str kv = []))
  /\ (forall values,
        instruments.validate_instruments float_str values = [] <->
        forall kv, In kv values -> ~ offending kv)
  /\ (forall w values name,
        (exists kv, In kv values /\ offending kv) ->
        let msg := ("Invalid instruments: "
                    ++ String.concat "; "
                         (instruments.validate_instruments float_str values))%string in
        simulate float_str round w (Some values) name = (Raise (ValueError msg), w)
        /\ forall kv, In kv values -> offending kv -> occurs_in (fst kv) msg).
Proof.
  split; [exact validate_flat_map|]. split; [exact entry_errors_spec|].
  split; [exact validate_nil_iff|].
  intros w values name (kv0 & Hin0 & Hoff0) msg. split.
  - subst msg. unfold simulate, merge_instruments.
    destruct values as [|kv values]; [destruct Hin0|].
    destruct (instruments.validate_instruments float_str (kv :: values)) eqn:E.
    + exfalso. apply (proj1 (validate_nil_iff _) E kv0 Hin0 Hoff0).
    + reflexivity.
  - intros kv Hin Hoff. subst msg.
    apply occurs_in_append_r.
    destruct (proj1 (entry_errors_spec kv) Hoff) as (m & Em & Hocc).
    eapply occurs_in_trans; [exact Hocc|].
    apply occurs_in_concat. rewrite validate_flat_map.
    apply in_flat_map. exists kv. split; [exact Hin|]. rewrite Em. now left.
Qed.

End Validation.

(** ** Capacity utilisation under relaxation *)

Lemma zkf_compute_bounds s t sc v :
  compute production.CapacityUtilizationEquation s t sc = Ok v -> 0.80 <= v <= 1.10.
Proof.
  cbn [compute production.CapacityUtilizationEquation]. intros E.
  apply bind_ok_inv in E. destruct E as (ystar & _ & E).
  destruct (ystar =? 0).
  - inversion E; subst. lra.
  - apply bind_ok_inv in E. destruct E as (y & _ & E).
    apply bind_ok_inv in E. destruct E as (raw & _ & E).
    inversion E; subst; clear E.
    pose proof (fmin_spec 1.10 raw). pose proof (fmax_spec 0.80 (fmin 1.10 raw)). lra.
Qed.

Section ZkfInvariant.

Variable self : GaussSeidelSolver.
Hypothesis Hreg : solver_registry self = build.
Hypothesis Hrelax : 0 <= relaxation self <= 1.

Variables (t : Year) (lo hi : R).
Hypothesis Hlo : lo <= 0.80.
Hypothesis Hhi : 1.10 <= hi.

Let zkf_in (s : SimulationState) : Prop := lo <= cell s "ZKF_" t <= hi.

Lemma inter_step_zkf y s m var s' m' :
  inter_step self y (s, m) var = Ok (s', m') -> zkf_in s -> zkf_in s'.
Proof.
  intros E Hin. apply inter_step_inv in E.
  destruct E as [(_ & -> & _) | (eq & o & n & Ereg & Eo & En & -> & _)]; [exact Hin|].
  unfold zkf_in in *.
  destruct (String.eqb_spec "ZKF_" var) as [<- | Hne], (Z.eqb_spec t y) as [<- | Hy];
    try (rewrite cell_write_other; [exact Hin | solve [auto]]).
  rewrite cell_write_same.
  rewrite Hreg in Ereg. inversion Ereg; subst eq; clear Ereg.
  apply zkf_compute_bounds in En. apply get_inv in Eo. destruct Eo as (_ & _ & <-).
  nra.
Qed.

Lemma sweep_zkf y s s' m :
  sweep self y s = Ok (s', m) -> zkf_in s -> zkf_in s'.
Proof.
  unfold sweep. intros E.
  refine (foldM_rel (inter_step self y)
            (fun a b => zkf_in (fst a) -> zkf_in (fst b)) _ _ _ _ (s, 0) (s', m) E).
  - auto.
  - auto.
  - intros [st mm] x [st' mm'] _ Ex. cbn [fst]. eapply inter_step_zkf; eauto.
Qed.

Lemma inter_phase_zkf y its :
  forall s it0 m0 s' res,
  inter_phase self y its s it0 m0 = Ok (s', res) -> zkf_in s -> zkf_in s'.
Proof.
  induction its as [|it its IH]; intros s it0 m0 s' res E Hin; cbn [inter_phase] in E.
  - inversion E; subst. exact Hin.
  - apply bind_ok_inv in E. destruct E as ([s1 m1] & Es & E).
    apply sweep_zkf in Es; auto.
    destruct (m1 <? eps self); [inversion E; subst; exact Es | eapply IH; eauto].
Qed.

Lemma solve_year_zkf y s s' conv :
  solve_year self s y = Ok (s', conv) -> zkf_in s -> zkf_in s'.
Proof.
  unfold solve_year. rewrite Hreg. intros E Hin.
  apply bind_ok_inv in E. destruct E as (s1 & E1 & E).
  apply bind_ok_inv in E. destruct E as ([s2 [[it m] st]] & E2 & E).
  apply bind_ok_inv in E. destruct E as (s3 & E3 & E).
  inversion E; subst; clear E.
  apply phase_modifies in E1, E3. apply inter_phase_zkf in E2.
  - unfold zkf_in in *.
    rewrite (modifies_other _ _ _ _ "ZKF_" t E3) by (left; reflexivity). exact E2.
  - unfold zkf_in in *.
    rewrite (modifies_other _ _ _ _ "ZKF_" t E1) by (left; reflexivity). exact Hin.
Qed.

Lemma solve_zkf yrs s s' reports :
  solve self s yrs = Ok (s', reports) -> zkf_in s -> zkf_in s'.
Proof.
  unfold solve. intros E.
  refine (foldM_rel _ (fun a b : SimulationState * list YearConvergence =>
                         zkf_in (fst a) -> zkf_in (fst b)) _ _ _ _ (s, []) (s', reports) E).
  - auto.
  - auto.
  - intros [st rs] y [st' rs'] _ Ey. cbn [fst].
    apply bind_ok_inv in Ey. destruct Ey as ([s1 c] & Ey & E1).
    inversion E1; subst; clear E1. eapply solve_year_zkf; eauto.
Qed.

End ZkfInvariant.

(** C2, as the code has it.  The solver stores the relaxed blend of the
    clamped value and the value stored before, so after a run [ZKF_(t)] lies
    between [min(z0, 0.80)] and [max(z0, 1.10)], [z0] being the value stored
    before the run; it is within [0.80, 1.10] when [z0] was. *)
Theorem zkf_bounds_preserved (s : SimulationState) (sim_years : list Year) :
  (forall t, In t sim_years -> presolvable s t) ->
  exists s' reports,
    solve engine_solver s sim_years = Ok (s', reports) /\
    forall t, In t sim_years ->
      Rmin (cell s "ZKF_" t) 0.80 <= cell s' "ZKF_" t <= Rmax (cell s "ZKF_" t) 1.10
      /\ (0.80 <= cell s "ZKF_" t <= 1.10 -> 0.80 <= cell s' "ZKF_" t <= 1.10).
Proof.
  intros Hs.
  destruct (solve_returns engine_solver eq_refl eq_refl s sim_years Hs)
    as ([s' reports] & E & _).
  exists s', reports. split; [exact E|].
  intros t _.
  assert (0 <= relaxation engine_solver <= 1) as Hr by (cbn; lra).
  split.
  - apply (solve_zkf engine_solver eq_refl Hr t _ _ (Rmin_r _ _) (Rmax_r _ _) _ _ _ _ E).
    split; [apply Rmin_l | apply Rmax_l].
  - intros Hin.
    apply (solve_zkf engine_solver eq_refl Hr t 0.80 1.10 (Rle_refl _) (Rle_refl _)
             _ _ _ _ E Hin).
Qed.

(** C2 fails as stated: on the example panel with [ZKF_(2013) = 0] (the
    value of a freshly added column) the solver leaves [ZKF_(2013)] below
    0.80. *)
Lemma zkf_below_bound :
  exists s' reports,
    solve engine_solver (panel false 0 0 0) (sim_years (panel false 0 0 0))
      = Ok (s', reports) /\
    In 2013%Z (sim_years (panel false 0 0 0)) /\
    ~ (0.80 <= cell s' "ZKF_" 2013%Z <= 1.10).
Proof.
  destruct (panel_solve false 0 0 0) as (k & z' & u' & r' & convs & E & Hk & Hz & _).
  exists (panel false z' u' r'), convs. split; [exact E|]. split; [cbn; auto|].
  cbn [cell panel]. unfold panel_cell. cbn.
  pose proof (pow_08_bounds k Hk). nra.
Qed.

(** ** The labour-market identity under relaxation *)

Lemma unemployment_equation_identity s t sc u :
  compute labor.UnemploymentEquation s t sc = Ok u ->
  u + cell s "L_" t + cell s "NG_" t = cell s "NAT_" t.
Proof.
  cbn [compute labor.UnemploymentEquation]. intros E.
  apply bind_ok_inv in E. destruct E as (nat_ & En & E).
  apply bind_ok_inv in E. destruct E as (l & El & E).
  apply bind_ok_inv in E. destruct E as (ng & Eg & E).
  inversion E; subst; clear E.
  apply get_inv in En, El, Eg.
  destruct En as (_ & _ & <-), El as (_ & _ & <-), Eg as (_ & _ & <-). lra.
Qed.

Lemma labour_gap_modifies vars t s s' :
  modifies vars t s s' ->
  existsb (fun v => existsb (String.eqb v) vars) ["U_"; "L_"; "NG_"; "NAT_"] = false ->
  labour_gap s' t = labour_gap s t.
Proof.
  intros Hm Hn. cbn [existsb] in Hn. rewrite orb_false_r in Hn.
  repeat (apply orb_false_iff in Hn; destruct Hn as [? Hn]).
  unfold labour_gap.
  rewrite !(modifies_other vars t s s' _ t Hm) by (left; assumption).
  reflexivity.
Qed.

Section LastSweep.

Variable self : GaussSeidelSolver.
Hypothesis Hreg : solver_registry self = build.
Hypothesis Hrelax : relaxation self = 0.2.

Lemma sweeps_last t k :
  forall s m0 s2 m, (1 <= k)%nat ->
  sweeps self t k s m0 = Ok (s2, m) ->
  exists sl, sweep self t sl = Ok (s2, m).
Proof.
  induction k as [|k IH]; intros s m0 s2 m Hk E; [lia|].
  cbn [sweeps] in E. apply bind_ok_inv in E. destruct E as ([s1 m1] & Es & E).
  destruct k as [|k].
  - cbn [sweeps] in E. inversion E; subst. eauto.
  - eapply IH; [lia | exact E].
Qed.

(** After a sweep the gap is four times the last move of [U_], and the
    sweep's maximum residual dominates the residual of that move. *)
Lemma sweep_labour_gap t sl s2 m :
  sweep self t sl = Ok (s2, m) ->
  exists u_prev,
    labour_gap s2 t = 4 * (u_prev - cell s2 "U_" t) /\
    spec_residual u_prev (cell s2 "U_" t) <= m.
Proof.
  unfold sweep. rewrite Hreg.
  change (inter_order build) with
    (["K_"; "Y_"; "YSTAR_"; "YGAP_"; "ZKF_"; "LH_"; "L_"] ++ ["U_"] ++
     ["UR_"; "W_"; "WG_"; "ULC_"; "COST_"; "PC_"; "PIF_"; "PIH_"; "PIG_"; "PX_";
      "RREAL_"; "PROFIT_"; "CG_"; "YDH_"; "C_"; "IF_"; "IH_"; "DD_"; "X_"; "M_";
      "GDP_"; "PGDP_"; "GDPN_"; "GRECEIPTS_"; "GEXPENSE_"; "D_"; "B_"]).
  rewrite foldM_app. intros E.
  apply bind_ok_inv in E. destruct E as ([sa ma] & _ & E).
  rewrite foldM_app in E. 
  apply bind_ok_inv in E. destruct E as ([sb mb] & Eu & E).
  rewrite foldM_single in Eu.
  apply sweep_from_modifies in E. cbn [fst snd] in E. destruct E as [Hm Hle].
  apply inter_step_inv in Eu.
  destruct Eu as [(Ereg & _) | (eq & o & n & Ereg & Eo & En & Hsb & Hmb)];
    rewrite Hreg in Ereg; [discriminate Ereg|].
  inversion Ereg; subst eq; clear Ereg.
  apply unemployment_equation_identity in En.
  apply get_inv in Eo. destruct Eo as (_ & _ & Eo).
  cbv zeta in Hsb, Hmb. rewrite Hrelax in Hsb, Hmb.
  rewrite spec_residual_code in Hmb.
  assert (cell sb "U_" t = 0.2 * n + (1 - 0.2) * o) as HU
    by (rewrite Hsb; apply cell_write_same).
  assert (labour_gap sb t = 4 * (o - cell sb "U_" t)) as Hgap.
  { unfold labour_gap. rewrite HU. subst sb.
    rewrite !cell_write_other by (left; discriminate). lra. }
  exists o. split.
  - rewrite (modifies_other _ _ _ _ "U_" t Hm) by (left; reflexivity).
    rewrite <- Hgap. eapply labour_gap_modifies; [exact Hm | reflexivity].
  - rewrite (modifies_other _ _ _ _ "U_" t Hm) by (left; reflexivity).
    rewrite HU. pose proof (fmax_spec ma (spec_residual o (0.2 * n + (1 - 0.2) * o))).
    lra.
Qed.

Lemma solve_year_labour_gap s t s' conv :
  (1 <= max_iter self)%nat ->
  solve_year self s t = Ok (s', conv) ->
  exists u_prev,
    labour_gap s' t = 4 * (u_prev - cell s' "U_" t) /\
    spec_residual u_prev (cell s' "U_" t) <= max_residual conv.
Proof.
  intros Hmax E. unfold solve_year in E. rewrite Hreg in E.
  apply bind_ok_inv in E. destruct E as (s1 & _ & E).
  apply bind_ok_inv in E. destruct E as ([s2 [[it m] st]] & E2 & E).
  apply bind_ok_inv in E. destruct E as (s3 & E3 & E).
  inversion E; subst; clear E. cbn [max_residual].
  apply phase_modifies in E3.
  assert (exists k, (1 <= k)%nat /\ sweeps self t k s1 0 = Ok (s2, m)) as (k & Hk & Hsw).
  { apply inter_phase_seq in E2.
    destruct E2 as [(_ & k & Hk & _ & Hsw & _) | (_ & Hsw & _)].
    - exists k. split; [lia | exact Hsw].
    - exists (max_iter self). split; [exact Hmax | exact Hsw]. }
  destruct (sweeps_last t k _ _ _ _ Hk Hsw) as (sl & Esl).
  destruct (sweep_labour_gap t sl s2 m Esl) as (u_prev & Hgap & Hres).
  exists u_prev.
  rewrite (modifies_other _ _ _ _ "U_" t E3) by (left; reflexivity).
  split; [|exact Hres].
  rewrite <- Hgap. eapply labour_gap_modifies; [exact E3 | reflexivity].
Qed.

End LastSweep.

Lemma solve_labour_gap_fold yrs :
  forall s rs s' rs',
  NoDup yrs ->
  foldM (fun acc t =>
           let '(state, results) := acc in
           '(state', conv) <- solve_year engine_solver state t ;;
           Ok (state', results ++ [conv])) yrs (s, rs) = Ok (s', rs') ->
  (forall t, In t yrs ->
     exists conv u_prev,
       In conv rs' /\ year conv = t /\
       labour_gap s' t = 4 * (u_prev - cell s' "U_" t) /\
       spec_residual u_prev (cell s' "U_" t) <= max_residual conv)
  /\ (forall c, In c rs -> In c rs')
  /\ (forall v y, ~ In y yrs -> cell s' v y = cell s v y).
Proof.
  induction yrs as [|t yrs IH]; intros s rs s' rs' Hnd E; cbn [foldM] in E.
  - inversion E; subst. repeat split; auto. intros t [].
  - apply bind_ok_inv in E. destruct E as ([s1 rs1] & E1 & E).
    apply bind_ok_inv in E1. destruct E1 as ([s1' c] & Ey & E1).
    inversion E1; subst s1' rs1; clear E1.
    inversion Hnd as [|? ? Hnotin Hnd']; subst.
    destruct (IH _ _ _ _ Hnd' E) as (Hgap & Hkeep & Hframe).
    pose proof (solve_year_modifies _ _ _ _ _ Ey) as [Hm Hyc].
    split; [|split].
    + intros t' [<- | Hin]; [|now apply Hgap].
      destruct (solve_year_labour_gap engine_solver eq_refl eq_refl s t s1 c)
        as (u_prev & Hg & Hr); [cbn; lia | exact Ey |].
      exists c, u_prev. split; [apply Hkeep, in_or_app; right; now left|].
      split; [exact Hyc|].
      unfold labour_gap in *. rewrite !(Hframe _ t Hnotin). auto.
    + intros c' Hc'. apply Hkeep, in_or_app. now left.
    + intros v y Hy. rewrite Hframe by (intros H; apply Hy; now right).
      destruct Hm as [_ Hm]. apply Hm. intros [_ ->]. apply Hy. now left.
Qed.

(** C3, as the code has it.  The [U_] equation returns [NAT_ - L_ - NG_],
    but the solver stores the relaxed blend of that value and the previous
    one: after a run, [U_(t) + L_(t) + NG_(t) - NAT_(t)] is four times the
    last move of [U_(t)], a move whose residual is at most the year's
    reported [max_residual]. *)
Theorem labour_identity_relaxed (s : SimulationState) (sim_years : list Year) :
  (forall t, In t sim_years -> presolvable s t) ->
  NoDup sim_years ->
  (forall st t sc u,
     compute labor.UnemploymentEquation st t sc = Ok u ->
     u + cell st "L_" t + cell st "NG_" t = cell st "NAT_" t)
  /\
  exists s' reports,
    solve engine_solver s sim_years = Ok (s', reports) /\
    forall t, In t sim_years ->
      exists conv u_prev,
        In conv reports /\ year conv = t /\
        cell s' "U_" t + cell s' "L_" t + cell s' "NG_" t - cell s' "NAT_" t
          = 4 * (u_prev - cell s' "U_" t) /\
        spec_residual u_prev (cell s' "U_" t) <= max_residual conv.
Proof.
  intros Hs Hnd. split; [exact unemployment_equation_identity|].
  destruct (solve_returns engine_solver eq_refl eq_refl s sim_years Hs)
    as ([s' reports] & E & _).
  exists s', reports. split; [exact E|].
  destruct (solve_labour_gap_fold sim_years s [] s' reports Hnd E) as (H & _).
  exact H.
Qed.

(** C3 fails as stated: on the example panel with [U_(2013) = 0] the solver
    stops with [U_ + L_ + NG_] short of [NAT_]. *)
Lemma labour_identity_broken :
  exists s' reports,
    solve engine_solver (panel false 0 0 0) (sim_years (panel false 0 0 0))
      = Ok (s', reports) /\
    In 2013%Z (sim_years (panel false 0 0 0)) /\
    cell s' "U_" 2013%Z + cell s' "L_" 2013%Z + cell s' "NG_" 2013%Z
      <> cell s' "NAT_" 2013%Z.
Proof.
  destruct (panel_solve false 0 0 0) as (k & z' & u' & r' & convs & E & Hk & _ & Hu).
  exists (panel false z' u' r'), convs. split; [exact E|]. split; [cbn; auto|].
  cbn [cell panel]. unfold panel_cell. cbn.
  pose proof (pow_08_bounds k Hk). nra.
Qed.

(** ** The engine over its object store *)

Lemma copy_id s : copy s = s.
Proof. destruct s; reflexivity. Qed.

Lemma list_set_app_r {A} (l l' : list A) i x :
  list_set (l ++ l') (List.length l + i) x = l ++ list_set l' i x.
Proof. induction l as [|y l IH]; cbn; [reflexivity | now rewrite IH]. Qed.

Lemma nth_app_r {A} (l l' : list A) i dflt :
  nth (List.length l + i) (l ++ l') dflt = nth i l' dflt.
Proof. induction l as [|y l IH]; cbn; [reflexivity | exact IH]. Qed.

Lemma nth_app_l {A} (l l' : list A) i dflt :
  (i < List.length l)%nat -> nth i (l ++ l') dflt = nth i l dflt.
Proof. intros Hi. now apply app_nth1. Qed.

Section EngineFacts.

Variable float_str : R -> string.
Variable round : R -> Z -> R.

(** On a loaded engine [simulate] returns what [simulate_on] computes from
    the baseline panel; it only adds panels to the store. *)
Lemma simulate_loaded w b values name :
  loaded w b ->
  exists extra,
    simulate float_str round w values name =
      (simulate_on float_str round (deref w b) values name,
       {| heap := heap w ++ extra; loader_state := loader_state w;
          engine_baseline := engine_baseline w |}).
Proof.
  intros [Hb Hlt]. destruct w as [hp ld eb]. cbn in Hb, Hlt. subst eb.
  cbn [heap loader_state engine_baseline].
  unfold simulate, simulate_on.
  destruct (merge_instruments float_str values) as [ins | e]; cbn [bind].
  2:{ exists []. now rewrite app_nil_r. }
  unfold baseline, alloc_copy, deref. cbn [engine_baseline heap loader_state].
  set (base := nth b hp empty_state).
  rewrite (nth_app_l hp [copy base] b empty_state Hlt). fold base.
  rewrite length_app. cbn [List.length].
  replace (List.length hp + 1)%nat with (S (List.length hp)) by lia.
  rewrite <- app_assoc. cbn [app].
  assert (forall x, nth (S (List.length hp)) (hp ++ [copy base; x]) empty_state = x) as Hsc.
  { intros x. replace (S (List.length hp)) with (List.length hp + 1)%nat by lia.
    now rewrite nth_app_r. }
  assert (forall x, nth (List.length hp) (hp ++ [copy base; x]) empty_state = copy base) as Hbs.
  { intros x. replace (List.length hp) with (List.length hp + 0)%nat at 1 by lia.
    now rewrite nth_app_r. }
  assert (forall x y, list_set (hp ++ [copy base; x]) (S (List.length hp)) y
                      = hp ++ [copy base; y]) as Hset.
  { intros x y. replace (S (List.length hp)) with (List.length hp + 1)%nat by lia.
    now rewrite list_set_app_r. }
  unfold run_scenario, deref, store. cbn [heap loader_state engine_baseline].
  rewrite Hsc.
  destruct (instruments.apply_instruments (copy base) ins (sim_years (copy base)))
    as [applied | e]; cbn [bind].
  2:{ exists [copy base; copy base]. reflexivity. }
  rewrite Hset, Hsc.
  destruct (solve engine_solver applied (sim_years (copy base)))
    as [[solved convs] | e]; cbn [bind].
  2:{ exists [copy base; applied]. reflexivity. }
  rewrite Hset, Hsc, Hbs.
  exists [copy base; solved]. reflexivity.
Qed.

End EngineFacts.

(** ** A baseline that already solves the model *)

Lemma registry_get_in_all var eq :
  registry_get build var = Some eq ->
  existsb (String.eqb var) (all_variables build) = true.
Proof.
  unfold registry_get. rewrite equations_build. cbn [dict_get].
  repeat match goal with
  | |- context [@key_eqb ?K ?I ?k var] =>
      destruct (@key_eqb_spec K I k var) as [Heq | _];
      [intros _; subst var; reflexivity | ]
  end.
  discriminate.
Qed.

Lemma spec_impact_same var x : spec_impact var x x = 0.
Proof.
  unfold spec_impact. replace (x - x) with 0 by lra.
  destruct (in_dec string_dec var _); [lra|].
  destruct (Rlt_dec 1e-10 (Rabs x)); [|reflexivity].
  unfold Rdiv. lra.
Qed.

Section Equilibrium.

Variables (s : SimulationState) (t : Year).
Hypothesis Heq : equilibrium s t.

Lemma equilibrium_recursive_step var :
  recursive_step engine_solver t s var = Ok s.
Proof.
  destruct Heq as (Hc & Hy & Hval).
  unfold recursive_step. change (solver_registry engine_solver) with build.
  destruct (registry_get build var) as [eq|] eqn:E; [|reflexivity].
  change (solver_scalars engine_solver) with engine_scalars.
  rewrite (Hval var eq E). cbn [bind].
  rewrite set_ok; [now rewrite write_same | | apply Hy].
  apply cols_ok_has; [exact Hc | now apply registry_get_in_all with eq].
Qed.

Lemma equilibrium_phase l :
  foldM (recursive_step engine_solver t) l s = Ok s.
Proof.
  induction l as [|var l IH]; [reflexivity|].
  cbn [foldM]. now rewrite equilibrium_recursive_step.
Qed.

Lemma equilibrium_inter_step var :
  inter_step engine_solver t (s, 0) var = Ok (s, 0).
Proof.
  destruct Heq as (Hc & Hy & Hval).
  destruct (registry_get build var) as [eq|] eqn:E.
  - rewrite (inter_step_value engine_solver eq_refl t s 0 var eq
               (cell s var t) (cell s var t) E).
    + cbn [relaxation engine_solver new_solver].
      replace (0.2 * cell s var t + (1 - 0.2) * cell s var t) with (cell s var t) by lra.
      rewrite write_same, spec_residual_same.
      unfold fmax. destruct (Rltb_spec 0 0); [lra | reflexivity].
    + apply get_ok; [|apply Hy].
      apply cols_ok_has; [exact Hc | now apply registry_get_in_all with eq].
    + now apply Hval.
  - unfold inter_step. change (solver_registry engine_solver) with build.
    now rewrite E.
Qed.

Lemma equilibrium_sweep : sweep engine_solver t s = Ok (s, 0).
Proof.
  unfold sweep. generalize (inter_order (solver_registry engine_solver)).
  induction l as [|var l IH]; [reflexivity|].
  cbn [foldM]. now rewrite equilibrium_inter_step.
Qed.

Lemma equilibrium_solve_year :
  solve_year engine_solver s t = Ok (s, settled t).
Proof.
  unfold solve_year. rewrite equilibrium_phase. cbn [bind].
  change (seq 1 (max_iter engine_solver)) with (1%nat :: seq 2 999).
  cbn [inter_phase]. rewrite equilibrium_sweep. cbn [bind].
  replace (0 <? eps engine_solver) with true
    by (symmetry; apply Rltb_true; cbn; lra).
  cbn [bind]. rewrite equilibrium_phase. reflexivity.
Qed.

End Equilibrium.

Lemma equilibrium_solve s yrs :
  (forall t, In t yrs -> equilibrium s t) ->
  solve engine_solver s yrs = Ok (s, map settled yrs).
Proof.
  intros Heq. unfold solve.
  assert (forall rs,
            foldM (fun acc t =>
                     let '(state, results) := acc in
                     '(state', conv) <- solve_year engine_solver state t ;;
                     Ok (state', results ++ [conv])) yrs (s, rs)
            = Ok (s, rs ++ map settled yrs)) as H.
  { induction yrs as [|t yrs IH]; intros rs; cbn [foldM map].
    - now rewrite app_nil_r.
    - rewrite equilibrium_solve_year by (apply Heq; now left). cbn [bind].
      rewrite IH by (intros; apply Heq; now right).
      now rewrite <- app_assoc. }
  apply (H []).
Qed.

Lemma mapM_returns {A B} (f : A -> result B) l :
  (forall x, In x l -> exists y, f x = Ok y) -> exists ys, mapM f l = Ok ys.
Proof.
  induction l as [|x l IH]; intros Hf; cbn [mapM]; [eauto|].
  destruct (Hf x (or_introl eq_refl)) as (y & ->).
  destruct IH as (ys & ->); [intros; apply Hf; now right|].
  cbn [bind]. eauto.
Qed.

Lemma extract_indicators_returns s yrs :
  cols_ok s -> (forall t, In t yrs -> year_ok s t) ->
  exists ki, _extract_indicators s yrs = Ok ki.
Proof.
  intros Hc Hy. unfold _extract_indicators.
  destruct (mapM_returns (fun t => grt s "GDP_" t) yrs) as (g & ->).
  { intros t Ht. destruct (returns_grt s "GDP_" t) as (v & E & _); eauto; try col;
      apply (Hy t Ht). }
  destruct (mapM_returns (fun t => grt s "PC_" t) yrs) as (i & ->).
  { intros t Ht. destruct (returns_grt s "PC_" t) as (v & E & _); eauto; try col;
      apply (Hy t Ht). }
  destruct (mapM_returns (fun t => x <- get s "DR_" t ;; Ok (x * 100)) yrs) as (dr & ->).
  { intros t Ht. rewrite get_ok; [cbn; eauto | col | apply (Hy t Ht)]. }
  destruct (mapM_returns (fun t => x <- get s "UR_" t ;; Ok (x * 100)) yrs) as (ur & ->).
  { intros t Ht. rewrite get_ok; [cbn; eauto | col | apply (Hy t Ht)]. }
  cbn [bind]. eauto.
Qed.

Section EngineClaims.

Variable float_str : R -> string.
Variable round : R -> Z -> R.

(** C5, as the code has it.  [simulate] compares the solved scenario with the
    baseline panel as loaded, which the solver never ran on.  With every
    instrument at its default the reported impact is 0 for every registry
    variable and simulation year provided the baseline is already a solution:
    applying the defaults leaves the registry cells as they are and every
    equation returns the stored value. *)
Theorem default_scenario_zero_impacts (w : World) (b : loc)
    (values : option (dict string R)) (name : string) (applied : SimulationState) :
  loaded w b ->
  merge_instruments float_str values = Ok instruments.get_default_instruments ->
  instruments.apply_instruments (deref w b) instruments.get_default_instruments
    (sim_years (deref w b)) = Ok applied ->
  cols_ok (deref w b) ->
  (forall t, In t (sim_years (deref w b)) ->
     year_ok (deref w b) t /\ equilibrium applied t /\
     forall var, In var (all_variables build) ->
       cell applied var t = cell (deref w b) var t) ->
  exists out w',
    simulate float_str round w values name = (Ok out, w') /\
    forall var t, In var (all_variables build) -> In t (sim_years (deref w b)) ->
      exists row, dict_get (impacts out) var = Some row /\ dict_get row t = Some 0.
Proof.
  intros Hl Hmerge Happly Hcols Hyears.
  destruct (simulate_loaded float_str round w b values name Hl) as (extra & ->).
  set (base := deref w b) in *.
  unfold simulate_on. rewrite Hmerge. cbn [bind].
  rewrite copy_id, Happly. cbn [bind].
  rewrite equilibrium_solve by (intros t Ht; apply (Hyears t Ht)). cbn [bind].
  destruct (extract_indicators_returns base (sim_years base) Hcols) as (bi & ->).
  { intros t Ht. apply (Hyears t Ht). }
  destruct (extract_indicators_returns applied (sim_years base)) as (si & ->).
  { destruct (sim_years base) as [|t0 l] eqn:E.
    - cbn in Happly. inversion Happly; subst. exact Hcols.
    - apply (Hyears t0). now left. }
  { intros t Ht. apply (Hyears t Ht). }
  cbn [bind].
  destruct (compute_impacts_spec base applied (all_variables engine_registry)
              (sim_years base)) as (imp & -> & Himp).
  { intros var t Hvar Ht. destruct (Hyears t Ht) as ((Hy1 & _) & (Hc2 & (Hy2 & _) & _) & _).
    assert (existsb (String.eqb var) (all_variables build) = true) as Hb.
    { apply existsb_exists. exists var. split; [exact Hvar | apply String.eqb_refl]. }
    exists (cell base var t), (cell applied var t).
    split; apply get_ok; auto; now apply cols_ok_has. }
  cbn [bind]. do 2 eexists. split; [reflexivity|].
  cbn [impacts]. intros var t Hvar Ht.
  destruct (Himp var t Hvar Ht) as (bv & sv & row & Hb & Hs & Hrow & Hcell).
  exists row. split; [exact Hrow|]. rewrite Hcell. f_equal.
  apply get_inv in Hb, Hs. destruct Hb as (_ & _ & <-), Hs as (_ & _ & <-).
  destruct (Hyears t Ht) as (_ & _ & Hsame). rewrite (Hsame var Hvar).
  apply spec_impact_same.
Qed.

End EngineClaims.

Section Determinism.

Variable float_str : R -> string.
Variable round : R -> Z -> R.

(** C9. Two calls of [simulate] with the same instrument values on a loaded
    engine return the same output; a call only adds panels to the store (its
    two copies of the baseline), so the engine's baseline panel and every
    other panel that existed are left as they were. *)
Theorem simulate_deterministic (w : World) (b : loc)
    (values : option (dict string R)) (name : string) :
  loaded w b ->
  let first := simulate float_str round w values name in
  let second := simulate float_str round (snd first) values name in
  fst second = fst first
  /\ (exists extra, heap (snd first) = heap w ++ extra)
  /\ engine_baseline (snd first) = Some b
  /\ deref (snd first) b = deref w b
  /\ loaded (snd first) b.
Proof.
  intros Hl first second.
  destruct (simulate_loaded float_str round w b values name Hl) as (extra & E1).
  assert (loaded (snd first) b /\ deref (snd first) b = deref w b) as [Hl1 Hd].
  { subst first. rewrite E1. cbn [snd]. destruct Hl as [Hb Hlt]. split.
    - split; [exact Hb|]. cbn [heap]. rewrite length_app. lia.
    - unfold deref. cbn [heap]. now apply nth_app_l. }
  destruct (simulate_loaded float_str round (snd first) b values name Hl1)
    as (extra2 & E2).
  subst second. rewrite E2. cbn [fst]. rewrite Hd.
  subst first. rewrite E1. cbn [fst snd heap engine_baseline].
  destruct Hl as [Hb Hlt].
  repeat split; eauto.
  cbn [heap]. rewrite length_app. lia.
Qed.

End Determinism.

(** ** The engine on the example panels *)

Lemma ensure_years_noop var fn yrs s :
  has_var s var = true ->
  (forall yr, In yr yrs ->
     has_year s yr = true /\
     (cell s var yr <> 0 \/ fn s yr = Ok (cell s var yr))) ->
  ensure_years var fn yrs s = (None, s).
Proof.
  intros Hv. induction yrs as [|yr yrs IH]; intros Hy; [reflexivity|].
  cbn [ensure_years].
  destruct (Hy yr (or_introl eq_refl)) as [Hyr Hcase].
  rewrite (get_ok _ _ _ Hv Hyr).
  destruct (Reqb_spec (cell s var yr) 0) as [E0 | Hne].
  - destruct Hcase as [Hne | Hfn]; [contradiction|].
    rewrite Hfn, (set_ok _ _ _ _ Hv Hyr), write_same.
    apply IH. intros; apply Hy; now right.
  - apply IH. intros; apply Hy; now right.
Qed.

Lemma ensure_noop yrs var fn s :
  has_var s var = true ->
  (forall yr, In yr yrs ->
     has_year s yr = true /\
     (cell s var yr <> 0 \/ fn s yr = Ok (cell s var yr))) ->
  ensure yrs var fn s = (None, s).
Proof.
  intros Hv Hy. unfold ensure. rewrite Hv. cbn [negb]. now apply ensure_years_noop.
Qed.

Lemma add_missing_noop l s :
  forallb (has_var s) l = true ->
  fold_left (fun state var =>
               if negb (has_var state var) then add_var state var 0 else state) l s = s.
Proof.
  induction l as [|var l IH]; intros H; [reflexivity|].
  cbn [forallb] in H. apply andb_true_iff in H. destruct H as [Hv Hl].
  cbn [fold_left]. rewrite Hv. cbn [negb]. now apply IH.
Qed.

Ltac both_years :=
  let yr := fresh "yr" in
  intros yr [<- | [<- | []]]; (split; [reflexivity|]).

Lemma ensure_panel z u r :
  _ensure_variables (panel false z u r) = (None, panel false z u r).
Proof.
  unfold _ensure_variables.
  rewrite ensure_noop; [cbn [and_then] | reflexivity | ].
  2:{ both_years; left; cbn; lra. }
  rewrite ensure_noop; [cbn [and_then] | reflexivity | ].
  2:{ both_years; right; evaluate; f_equal; lra. }
  rewrite ensure_noop; [cbn [and_then] | reflexivity | ].
  2:{ both_years; left; cbn; lra. }
  rewrite ensure_noop; [cbn [and_then] | reflexivity | ].
  2:{ both_years; left; cbn; lra. }
  rewrite ensure_noop; [cbn [and_then] | reflexivity | ].
  2:{ both_years; left; cbn; lra. }
  rewrite ensure_noop; [cbn [and_then] | reflexivity | ].
  2:{ both_years; right; unfold ulc_fn; evaluate; f_equal; lra. }
  rewrite ensure_noop; [cbn [and_then] | reflexivity | ].
  2:{ both_years; right; unfold cost_fn; evaluate; f_equal; lra. }
  rewrite add_missing_noop; reflexivity.
Qed.

Lemma apply_entry extra z u r k v :
  has_var (panel_with extra z u r) k = false ->
  panel_cell z u r k 2013%Z = v ->
  (forall y, Z.eqb y 2013%Z = false -> panel_cell z u r k y = 0) ->
  set (if negb (has_var (panel_with extra z u r) k)
       then add_var (panel_with extra z u r) k 0 else panel_with extra z u r)
      k 2013%Z v
  = Ok (panel_with (extra ++ [k]) z u r).
Proof.
  intros Hfresh Hv H0. rewrite Hfresh. cbn [negb].
  unfold add_var. rewrite Hfresh.
  rewrite set_ok; [ | | reflexivity].
  2:{ unfold has_var. cbn [columns panel_with]. rewrite existsb_app. cbn [existsb].
      now rewrite String.eqb_refl, orb_true_r. }
  unfold write, panel_with. cbn [years columns cell]. rewrite <- app_assoc.
  f_equal. f_equal.
  extensionality x. extensionality y.
  destruct (String.eqb_spec x k) as [-> | Hne]; cbn [andb]; [|reflexivity].
  destruct (Z.eqb y 2013%Z) eqn:Ey.
  - apply Z.eqb_eq in Ey. now subst.
  - symmetry. now apply H0.
Qed.

Ltac entry_side :=
  first [ reflexivity
        | unfold panel_cell; cbn; lra
        | let y := fresh "y" in let H := fresh "H" in
          intros y H; unfold panel_cell; cbn; try rewrite H; reflexivity ].

Lemma apply_panel z u r :
  instruments.apply_instruments (panel false z u r)
    instruments.get_default_instruments (sim_years (panel false z u r))
  = Ok (panel true z u r).
Proof.
  change (panel false z u r) with (panel_with [] z u r).
  change (sim_years (panel_with [] z u r)) with [2013%Z].
  unfold instruments.apply_instruments. cbn [foldM].
  unfold instruments.apply_year.
  change instruments.get_default_instruments with
    [("VIG_X", 0); ("ITPC0R_X", 21); ("DTH_X", 0); ("CSSFR_X", 30); ("CSSHR_X", 13);
     ("TGH_X", 0); ("WR_X", 0); ("WGRR_X", 0); ("NG_X", 0); ("ZX_X", 0)].
  cbn [foldM dict_get key_eqb string_Key].
  repeat (rewrite apply_entry by entry_side; cbn [bind app]).
  cbn [String.eqb Ascii.eqb Bool.eqb].
  change (panel_with _ z u r) with (panel true z u r).
  repeat (rewrite set_ok by reflexivity; cbn [bind];
          rewrite write_id by (cbn; lra)).
  reflexivity.
Qed.

Lemma panel_cols_ok a z u r : cols_ok (panel a z u r).
Proof. destruct a; reflexivity. Qed.

Lemma panel_year_ok a z u r : year_ok (panel a z u r) 2013%Z.
Proof. split; reflexivity. Qed.

Lemma panel_presolvable z u r : presolvable (panel false z u r) 2013%Z.
Proof.
  split; [apply panel_cols_ok|]. split; [apply panel_year_ok|].
  intros H. discriminate H.
Qed.

Section Unloaded.

Variable float_str : R -> string.
Variable round : R -> Z -> R.

(** The first call loads the baseline, then goes on as on a loaded engine. *)
Lemma simulate_fresh file values name ins :
  merge_instruments float_str values = Ok ins ->
  _ensure_variables file = (None, file) ->
  simulate float_str round (fresh_engine file) values name
  = simulate float_str round (engine_with file) values name.
Proof.
  intros Hm He. unfold simulate. rewrite Hm.
  unfold baseline at 1, load_baseline, fresh_engine.
  cbn [engine_baseline loader_state heap]. rewrite He.
  cbn [engine_baseline loader_state heap app List.length].
  reflexivity.
Qed.

End Unloaded.

(** C5 fails as stated: a fresh engine whose baseline file holds the example
    panel, asked for the default scenario, reports a non-zero impact for
    [ZKF_] in 2013: the scenario has been solved, the baseline it is compared
    with has not. *)
Lemma default_scenario_nonzero_impact :
  exists out w' row v,
    simulate (fun _ => "") (fun x _ => x) (fresh_engine (panel false 0 0 0))
      None "Scenario" = (Ok out, w') /\
    In "ZKF_" (all_variables build) /\ In 2013%Z (out_years out) /\
    dict_get (impacts out) "ZKF_" = Some row /\
    dict_get row 2013%Z = Some v /\ v <> 0.
Proof.
  rewrite (simulate_fresh _ _ (panel false 0 0 0) None "Scenario"
             instruments.get_default_instruments eq_refl (ensure_panel 0 0 0)).
  destruct (simulate_loaded (fun _ => "") (fun x _ => x)
              (engine_with (panel false 0 0 0)) 0%nat None "Scenario")
    as (extra & ->); [split; [reflexivity | cbn; lia]|].
  change (deref (engine_with (panel false 0 0 0)) 0%nat) with (panel false 0 0 0).
  unfold simulate_on. cbn [merge_instruments bind].
  rewrite copy_id, apply_panel. cbn [bind].
  destruct (panel_solve true 0 0 0) as (k & z' & u' & r' & convs & E & Hk & Hz & _).
  change (sim_years (panel false 0 0 0)) with (sim_years (panel true 0 0 0)).
  rewrite E. cbn [bind].
  change (sim_years (panel true 0 0 0)) with [2013%Z].
  destruct (extract_indicators_returns (panel false 0 0 0) [2013%Z]) as (bi & ->);
    [apply panel_cols_ok | intros t [<- | []]; apply panel_year_ok |].
  destruct (extract_indicators_returns (panel true z' u' r') [2013%Z]) as (si & ->);
    [apply panel_cols_ok | intros t [<- | []]; apply panel_year_ok |].
  cbn [bind].
  destruct (compute_impacts_spec (panel false 0 0 0) (panel true z' u' r')
              (all_variables engine_registry) [2013%Z]) as (imp & -> & Himp).
  { intros var t Hvar [<- | []].
    assert (existsb (String.eqb var) (all_variables build) = true) as Hb.
    { apply existsb_exists. exists var. split; [exact Hvar | apply String.eqb_refl]. }
    do 2 eexists. split; apply panel_get; exact Hb. }
  cbn [bind].
  destruct (Himp "ZKF_" 2013%Z) as (bv & sv & row & Hb & Hs & Hrow & Hcell);
    [cbn; tauto | now left |].
  do 2 eexists. exists row, (spec_impact "ZKF_" bv sv).
  split; [reflexivity|]. split; [cbn; tauto|]. split; [now left|].
  split; [exact Hrow|]. split; [exact Hcell|].
  rewrite panel_get in Hb, Hs by reflexivity.
  inversion Hb; inversion Hs; subst bv sv.
  unfold spec_impact, panel_cell. cbn.
  pose proof (pow_08_bounds k Hk). nra.
Qed.

(** ** The properties at work on the example panels *)

Lemma panel_equilibrium a : equilibrium (panel a 0.8 1.005 1) 2013%Z.
Proof.
  split; [apply panel_cols_ok|]. split; [apply panel_year_ok|].
  intros var eq E. change engine_scalars with Scalars.default.
  rewrite (panel_equation a 0.8 1.005 1 var eq E). f_equal.
  unfold panel_value. cbn [cell panel].
  destruct (String.eqb_spec var "ZKF_") as [-> | _]; [cbn; lra|].
  destruct (String.eqb_spec var "U_") as [-> | _]; [cbn; lra|].
  destruct (String.eqb_spec var "UR_") as [-> | _]; [cbn; lra|].
  reflexivity.
Qed.

Lemma inter_phase_contract_witness :
  (forall t, In t [2013%Z] -> presolvable (panel false 0 0 0) t)
  /\ exists s' reports,
       solve engine_solver (panel false 0 0 0) [2013%Z] = Ok (s', reports) /\
       map year reports = [2013%Z].
Proof.
  assert (forall t, In t [2013%Z] -> presolvable (panel false 0 0 0) t) as H.
  { intros t [<- | []]. split; [reflexivity|]. split; [split; reflexivity|].
    intros Hx. discriminate Hx. }
  split; [exact H|].
  exact (proj1 (inter_phase_contract (panel false 0 0 0) [2013%Z] H)).
Defined.

Lemma zkf_bounds_preserved_witness :
  (forall t, In t [2013%Z] -> presolvable (panel false 0.9 0 0) t)
  /\ exists s' reports,
       solve engine_solver (panel false 0.9 0 0) [2013%Z] = Ok (s', reports) /\
       forall t, In t [2013%Z] ->
         Rmin (cell (panel false 0.9 0 0) "ZKF_" t) 0.80 <= cell s' "ZKF_" t
           <= Rmax (cell (panel false 0.9 0 0) "ZKF_" t) 1.10
         /\ (0.80 <= cell (panel false 0.9 0 0) "ZKF_" t <= 1.10 ->
             0.80 <= cell s' "ZKF_" t <= 1.10).
Proof.
  assert (forall t, In t [2013%Z] -> presolvable (panel false 0.9 0 0) t) as H.
  { intros t [<- | []]. split; [reflexivity|]. split; [split; reflexivity|].
    intros Hx. discriminate Hx. }
  split; [exact H|].
  exact (zkf_bounds_preserved (panel false 0.9 0 0) [2013%Z] H).
Defined.

Lemma labour_identity_relaxed_witness :
  (forall t, In t [2013%Z] -> presolvable (panel false 0 0 0) t)
  /\ NoDup [2013%Z]
  /\ exists s' reports,
       solve engine_solver (panel false 0 0 0) [2013%Z] = Ok (s', reports) /\
       forall t, In t [2013%Z] ->
         exists conv u_prev,
           In conv reports /\ year conv = t /\
           cell s' "U_" t + cell s' "L_" t + cell s' "NG_" t - cell s' "NAT_" t
             = 4 * (u_prev - cell s' "U_" t) /\
           spec_residual u_prev (cell s' "U_" t) <= max_residual conv.
Proof.
  assert (forall t, In t [2013%Z] -> presolvable (panel false 0 0 0) t) as H.
  { intros t [<- | []]. split; [reflexivity|]. split; [split; reflexivity|].
    intros Hx. discriminate Hx. }
  assert (NoDup [2013%Z]) as Hnd.
  { constructor; [intros [] | constructor]. }
  split; [exact H|]. split; [exact Hnd|].
  exact (proj2 (labour_identity_relaxed (panel false 0 0 0) [2013%Z] H Hnd)).
Defined.

Lemma invalid_instruments_rejected_witness :
  (exists kv, In kv [("BOGUS", 42)] /\ offending kv)
  /\ simulate (fun _ => "") (fun x _ => x) (fresh_engine (panel false 0 0 0))
       (Some [("BOGUS", 42)]) "Scenario"
     = (Raise (ValueError "Invalid instruments: Unknown instrument: BOGUS"),
        fresh_engine (panel false 0 0 0)).
Proof.
  assert (exists kv, In kv [("BOGUS", 42)] /\ offending kv) as H.
  { exists ("BOGUS", 42). split; [now left | exact I]. }
  split; [exact H|].
  exact (proj1 (proj2 (proj2 (proj2
           (invalid_instruments_rejected (fun _ => "") (fun x _ => x))))
           (fresh_engine (panel false 0 0 0)) [("BOGUS", 42)] "Scenario" H)).
Defined.

Lemma default_scenario_zero_impacts_witness :
  loaded (engine_with (panel false 0.8 1.005 1)) 0%nat
  /\ exists out w',
       simulate (fun _ => "") (fun x _ => x)
         (engine_with (panel false 0.8 1.005 1)) None "Scenario" = (Ok out, w') /\
       forall var t, In var (all_variables build) -> In t [2013%Z] ->
         exists row, dict_get (impacts out) var = Some row /\ dict_get row t = Some 0.
Proof.
  assert (loaded (engine_with (panel false 0.8 1.005 1)) 0%nat) as Hl.
  { split; [reflexivity | cbn; lia]. }
  split; [exact Hl|].
  apply (default_scenario_zero_impacts (fun _ => "") (fun x _ => x)
           (engine_with (panel false 0.8 1.005 1)) 0%nat None "Scenario"
           (panel true 0.8 1.005 1) Hl eq_refl (apply_panel 0.8 1.005 1)).
  - reflexivity.
  - intros t [<- | []]. split; [split; reflexivity|].
    split; [apply panel_equilibrium | reflexivity].
Defined.

Lemma compute_impacts_rule_witness :
  (forall var t, In var ["ZKF_"; "U_"] -> In t [2013%Z] ->
     exists base scen,
       get (panel false 0 0 0) var t = Ok base /\
       get (panel false 1 1 1) var t = Ok scen)
  /\ exists impacts,
       compute_impacts (panel false 0 0 0) (panel false 1 1 1)
         ["ZKF_"; "U_"] [2013%Z] = Ok impacts /\
       forall var t, In var ["ZKF_"; "U_"] -> In t [2013%Z] ->
         exists base scen row,
           get (panel false 0 0 0) var t = Ok base /\
           get (panel false 1 1 1) var t = Ok scen /\
           dict_get impacts var = Some row /\
           dict_get row t = Some (spec_impact var base scen).
Proof.
  assert (forall var t, In var ["ZKF_"; "U_"] -> In t [2013%Z] ->
            exists base scen,
              get (panel false 0 0 0) var t = Ok base /\
              get (panel false 1 1 1) var t = Ok scen) as H.
  { intros var t [<- | [<- | []]] [<- | []]; do 2 eexists; split; reflexivity. }
  split; [exact H|].
  exact (compute_impacts_rule _ _ _ _ H).
Defined.

Lemma degeneracy_guards_witness :
  lag (panel false 0 0 0) "C_" 2013%Z 1%Z = Ok 0 /\ 0 <= 0
  /\ compute behavioral.ConsumptionEquation (panel false 0 0 0) 2013%Z Scalars.default
     = Ok 0.
Proof.
  assert (lag (panel false 0 0 0) "C_" 2013%Z 1%Z = Ok 0) as H by reflexivity.
  split; [exact H|]. split; [apply Rle_refl|].
  refine (proj1 (proj2 (proj2 degeneracy_guards)) behavioral.ConsumptionEquation _
            (panel false 0 0 0) 2013%Z Scalars.default 0 H (Rle_refl 0)).
  cbn. tauto.
Defined.

Lemma clamped_exp_bounds_witness :
  lag (write (panel false 0 0 0) "C_" 2012%Z 1) "C_" 2013%Z 1%Z = Ok 1 /\ 0 < 1
  /\ exists v,
       compute behavioral.ConsumptionEquation
         (write (panel false 0 0 0) "C_" 2012%Z 1) 2013%Z Scalars.default = Ok v /\
       1 * exp (-0.5) <= v <= 1 * exp 0.5.
Proof.
  assert (lag (write (panel false 0 0 0) "C_" 2012%Z 1) "C_" 2013%Z 1%Z = Ok 1) as H
    by reflexivity.
  split; [exact H|]. split; [exact Rlt_0_1|].
  refine (proj2 (proj2 clamped_exp_bounds) behavioral.ConsumptionEquation _
            (write (panel false 0 0 0) "C_" 2012%Z 1) 2013%Z Scalars.default 1
            _ _ H Rlt_0_1).
  - cbn. tauto.
  - reflexivity.
  - split; reflexivity.
Defined.

Lemma simulate_deterministic_witness :
  loaded (engine_with (panel false 0 0 0)) 0%nat
  /\ fst (simulate (fun _ => "") (fun x _ => x)
            (snd (simulate (fun _ => "") (fun x _ => x)
                    (engine_with (panel false 0 0 0)) None "Scenario"))
            None "Scenario")
     = fst (simulate (fun _ => "") (fun x _ => x)
              (engine_with (panel false 0 0 0)) None "Scenario").
Proof.
  assert (loaded (engine_with (panel false 0 0 0)) 0%nat) as Hl.
  { split; [reflexivity | cbn; lia]. }
  split; [exact Hl|].
  exact (proj1 (simulate_deterministic (fun _ => "") (fun x _ => x)
                  (engine_with (panel false 0 0 0)) 0%nat None "Scenario" Hl)).
Defined.

Lemma never_diverged_witness :
  presolvable (panel false 0 0 0) 2013%Z
  /\ exists s' conv,
       solve_year engine_solver (panel false 0 0 0) 2013%Z = Ok (s', conv) /\
       status conv <> DIVERGED.
Proof.
  assert (presolvable (panel false 0 0 0) 2013%Z) as H.
  { split; [reflexivity|]. split; [split; reflexivity|].
    intros Hx. discriminate Hx. }
  split; [exact H|].
  exact (proj2 (never_diverged engine_solver (panel false 0 0 0) 2013%Z) H).
Defined.
(** * Further properties of the code *)

(** ** state.py: cells, columns and the growth operators *)


Lemma add_var_facts s var dflt :
  has_var (add_var s var dflt) var = true /\
  years (add_var s var dflt) = years s /\
  (has_var s var = true -> add_var s var dflt = s) /\
  (has_var s var = false ->
     columns (add_var s var dflt) = columns s ++ [var] /\
     forall y, cell (add_var s var dflt) var y = dflt) /\
  (forall v y, v <> var ->
     has_var (add_var s var dflt) v = has_var s v /\
     cell (add_var s var dflt) v y = cell s v y).
Proof.
  unfold add_var. destruct (has_var s var) eqn:Hv.
  - repeat split; auto; discriminate.
  - split.
    { unfold has_var. cbn [columns]. rewrite existsb_app. cbn [existsb].
      rewrite String.eqb_refl. now rewrite orb_true_r. }
    split; [reflexivity|]. split; [discriminate|].
    split.
    { intros _. split; [reflexivity|]. intros y. cbn [cell].
      now rewrite String.eqb_refl. }
    intros v y Hne. split.
    + unfold has_var. cbn [columns]. rewrite existsb_app. cbn [existsb].
      apply String.eqb_neq in Hne. rewrite Hne. now rewrite !orb_false_r.
    + cbn [cell]. apply String.eqb_neq in Hne. now rewrite Hne.
Qed.




(** The growth operators invert: the current value is recovered from the
    lagged one and the growth rate, the log change or the difference. *)
Theorem growth_operators_invert s var t cur prev :
  get s var t = Ok cur -> lag s var t 1 = Ok prev ->
  (exists g, grt s var t = Ok g /\
     (prev <> 0 -> cur = prev * (1 + g / 100)) /\ (prev = 0 -> g = 0)) /\
  (exists l, dln s var t = Ok l /\
     (0 < cur -> 0 < prev -> cur = prev * exp l) /\
     (cur <= 0 \/ prev <= 0 -> l = 0)) /\
  d s var t = Ok (cur - prev).
Proof.
  intros Hc Hp. split; [|split].
  - unfold grt. rewrite Hp. cbn [bind].
    destruct (Reqb_spec prev 0) as [-> | Hne].
    + exists 0. split; [reflexivity|]. split; [intros H; now elim H | reflexivity].
    + rewrite Hc. cbn [bind]. unfold fdiv.
      destruct (Reqb_spec prev 0) as [? | _]; [contradiction|]. cbn [bind].
      eexists. split; [reflexivity|]. split; [|intros; contradiction].
      intros _. field. exact Hne.
  - unfold dln. rewrite Hc, Hp. cbn [bind].
    destruct (Rleb_spec cur 0) as [Hc0 | Hc0]; cbn [orb].
    { exists 0. split; [reflexivity|]. split; [intros; lra | reflexivity]. }
    destruct (Rleb_spec prev 0) as [Hp0 | Hp0].
    { exists 0. split; [reflexivity|]. split; [intros; lra | reflexivity]. }
    unfold flog.
    destruct (Rltb_spec 0 cur) as [_ | ?]; [|lra].
    destruct (Rltb_spec 0 prev) as [_ | ?]; [|lra]. cbn [bind].
    eexists. split; [reflexivity|]. split; [|intros [? | ?]; lra].
    intros Hcp Hpp. unfold Rminus. rewrite exp_plus, exp_Ropp, !exp_ln by lra.
    field. lra.
  - unfold d. rewrite Hc, Hp. reflexivity.
Qed.

Lemma growth_operators_invert_witness :
  get (panel false 0 2 0) "U_" 2013%Z = Ok 2 /\
  lag (panel false 0 2 0) "U_" 2013%Z 1 = Ok 1 /\
  exists g, grt (panel false 0 2 0) "U_" 2013%Z = Ok g /\
    (1 <> 0 -> 2 = 1 * (1 + g / 100)) /\ (1 = 0 -> g = 0).
Proof.
  assert (get (panel false 0 2 0) "U_" 2013%Z = Ok 2) as Hc by reflexivity.
  assert (lag (panel false 0 2 0) "U_" 2013%Z 1 = Ok 1) as Hp by reflexivity.
  split; [exact Hc|]. split; [exact Hp|].
  exact (proj1 (growth_operators_invert (panel false 0 2 0) "U_" 2013%Z 2 1 Hc Hp)).
Defined.
Lemma mapM_map {A B} (f : A -> result B) (g : A -> B) l :
  (forall x, In x l -> f x = Ok (g x)) -> mapM f l = Ok (map g l).
Proof.
  induction l as [|x l IH]; intros H; cbn [mapM map]; [reflexivity|].
  rewrite (H x (or_introl eq_refl)). cbn [bind].
  rewrite IH by (intros; apply H; now right). reflexivity.
Qed.

Lemma mean_bounds (l : list R) lo hi :
  l <> [] -> (forall x, In x l -> lo <= x <= hi) ->
  lo <= fold_right Rplus 0 l / INR (List.length l) <= hi.
Proof.
  intros Hne Hb.
  assert (lo * INR (List.length l) <= fold_right Rplus 0 l <= hi * INR (List.length l)) as Hs.
  { clear Hne. induction l as [|x l IH].
    - cbn. lra.
    - change (List.length (x :: l)) with (S (List.length l)). rewrite S_INR.
      cbn [fold_right].
      pose proof (Hb x (or_introl eq_refl)).
      specialize (IH (fun y Hy => Hb y (or_intror Hy))). lra. }
  assert (0 < INR (List.length l)) as Hpos.
  { destruct l; [congruence|]. apply lt_0_INR. cbn. lia. }
  split.
  - apply Rmult_le_reg_r with (INR (List.length l)); [exact Hpos|].
    unfold Rdiv. rewrite Rmult_assoc, Rinv_l by lra. lra.
  - apply Rmult_le_reg_r with (INR (List.length l)); [exact Hpos|].
    unfold Rdiv. rewrite Rmult_assoc, Rinv_l by lra. lra.
Qed.

Lemma mavg_window s t n i :
  In i (filter (fun i => has_year s (t - i)%Z) (map Z.of_nat (seq 0 (Z.to_nat n))))
  <-> (0 <= i < n)%Z /\ has_year s (t - i)%Z = true.
Proof.
  rewrite filter_In, in_map_iff. split.
  - intros ((k & <- & Hk) & Hy). apply in_seq in Hk. split; [lia | exact Hy].
  - intros (Hi & Hy). split; [|exact Hy].
    exists (Z.to_nat i). split; [lia|]. apply in_seq. lia.
Qed.

(** [mavg] averages the cells of the window [t-n+1 .. t] whose year is in
    the index: [0.0] when there is none (in particular when [n <= 0]), a
    [KeyError] when there is one and the column is missing, and otherwise a
    value within any bounds that hold for the averaged cells. *)
Theorem mavg_spec s var t n :
  ((forall i, (0 <= i < n)%Z -> has_year s (t - i)%Z = false) ->
   mavg s var t n = Ok 0) /\
  ((exists i, (0 <= i < n)%Z /\ has_year s (t - i)%Z = true) ->
   has_var s var = false -> mavg s var t n = Raise KeyError) /\
  ((exists i, (0 <= i < n)%Z /\ has_year s (t - i)%Z = true) ->
   has_var s var = true ->
   forall lo hi,
     (forall i, (0 <= i < n)%Z -> has_year s (t - i)%Z = true ->
        lo <= cell s var (t - i)%Z <= hi) ->
     exists m, mavg s var t n = Ok m /\ lo <= m <= hi).
Proof.
  unfold mavg.
  pose proof (mavg_window s t n) as Hw.
  set (w := filter (fun i => has_year s (t - i)%Z) (map Z.of_nat (seq 0 (Z.to_nat n)))) in *.
  split; [|split].
  - intros Hnone. destruct w as [|i w]; [reflexivity|].
    destruct (proj1 (Hw i) (or_introl eq_refl)) as (Hi & Hy).
    rewrite (Hnone i Hi) in Hy. discriminate.
  - intros (i & Hi & Hy) Hv.
    destruct w as [|j w]; [elim (proj2 (Hw i) (conj Hi Hy))|].
    cbn [mapM]. unfold get at 1. rewrite Hv. reflexivity.
  - intros (i & Hi & Hy) Hv lo hi Hb.
    rewrite (mapM_map _ (fun i => cell s var (t - i)%Z)).
    2:{ intros j Hj. apply Hw in Hj. apply get_ok; [exact Hv | apply Hj]. }
    cbn [bind].
    assert (map (fun i => cell s var (t - i)%Z) w <> []) as Hne.
    { destruct w; [elim (proj2 (Hw i) (conj Hi Hy)) | discriminate]. }
    destruct (map (fun i => cell s var (t - i)%Z) w) as [|x l] eqn:El; [congruence|].
    eexists. split; [reflexivity|].
    apply mean_bounds; [discriminate|].
    intros y Hin. rewrite <- El in Hin. apply in_map_iff in Hin.
    destruct Hin as (j & <- & Hj). apply Hw in Hj. now apply Hb.
Qed.

Lemma mavg_spec_witness :
  (exists i, (0 <= i < 3)%Z /\ has_year (panel false 0 0 0) (2013 - i)%Z = true) /\
  has_var (panel false 0 0 0) "NAT_" = true /\
  (forall i, (0 <= i < 3)%Z -> has_year (panel false 0 0 0) (2013 - i)%Z = true ->
     1 <= cell (panel false 0 0 0) "NAT_" (2013 - i)%Z <= 1.005) /\
  exists m, mavg (panel false 0 0 0) "NAT_" 2013%Z 3%Z = Ok m /\ 1 <= m <= 1.005.
Proof.
  assert (exists i, (0 <= i < 3)%Z /\ has_year (panel false 0 0 0) (2013 - i)%Z = true) as Hex.
  { exists 0%Z. split; [lia | reflexivity]. }
  assert (has_var (panel false 0 0 0) "NAT_" = true) as Hv by reflexivity.
  assert (forall i, (0 <= i < 3)%Z -> has_year (panel false 0 0 0) (2013 - i)%Z = true ->
            1 <= cell (panel false 0 0 0) "NAT_" (2013 - i)%Z <= 1.005) as Hb.
  { intros i Hi _. cbn [cell panel]. unfold panel_cell. cbn [String.eqb Ascii.eqb Bool.eqb].
    destruct (Z.eqb (2013 - i) 2013); lra. }
  split; [exact Hex|]. split; [exact Hv|]. split; [exact Hb|].
  exact (proj2 (proj2 (mavg_spec (panel false 0 0 0) "NAT_" 2013%Z 3%Z)) Hex Hv 1 1.005 Hb).
Defined.
(** ** Dictionaries built in a loop *)

Lemma key_in_dec {K} `{Key K} (k : K) (l : list K) : {In k l} + {~ In k l}.
Proof. apply in_dec. intros a b. apply (reflect_dec _ _ (key_eqb_spec a b)). Qed.

Lemma dict_fold_set {K V} `{Key K} (f : K -> V) (keys : list K) :
  forall d0 k,
    (In k keys ->
     dict_get (fold_left (fun acc x => dict_set acc x (f x)) keys d0) k = Some (f k)) /\
    (~ In k keys ->
     dict_get (fold_left (fun acc x => dict_set acc x (f x)) keys d0) k = dict_get d0 k).
Proof.
  induction keys as [|x keys IH]; intros d0 k; cbn [fold_left].
  - split; [intros [] | reflexivity].
  - destruct (IH (dict_set d0 x (f x)) k) as [Hin Hout].
    destruct (key_in_dec k keys) as [Hk | Hk].
    + split; [intros _; now apply Hin | intros Hn; exfalso; apply Hn; now right].
    + split.
      * intros [<- | Hk']; [|contradiction].
        rewrite (Hout Hk). apply dict_get_set_same.
      * intros Hn. rewrite (Hout Hk). apply dict_get_set_other.
        intros ->. apply Hn. now left.
Qed.

Lemma has_var_In s v : has_var s v = true <-> In v (columns s).
Proof.
  unfold has_var. rewrite existsb_exists. split.
  - intros (x & Hin & Hx). apply String.eqb_eq in Hx. now subst.
  - intros Hin. exists v. split; [exact Hin | apply String.eqb_refl].
Qed.

Lemma has_year_In s y : has_year s y = true <-> In y (years s).
Proof.
  unfold has_year. rewrite existsb_exists. split.
  - intros (x & Hin & Hx). apply Z.eqb_eq in Hx. now subst.
  - intros Hin. exists y. split; [exact Hin | apply Z.eqb_refl].
Qed.

Lemma to_dict_get s variables var :
  (has_var s var = true /\ (variables = [] \/ In var variables) ->
   exists row,
     dict_get (to_dict s variables) var = Some row /\
     forall y, dict_get row y = if has_year s y then Some (cell s var y) else None) /\
  (~ (has_var s var = true /\ (variables = [] \/ In var variables)) ->
   dict_get (to_dict s variables) var = None).
Proof.
  unfold to_dict.
  set (rowof := fun var : VarName =>
         fold_left (fun m yr => dict_set m yr (cell s var yr)) (years s) ([] : dict Z R)).
  change (fold_left _ (filter (has_var s) ?c) [])
    with (fold_left (fun acc v => dict_set acc v (rowof v)) (filter (has_var s) c)
            ([] : dict string (dict Z R))).
  set (cols := match variables with [] => columns s | _ :: _ => variables end).
  assert (In var (filter (has_var s) cols) <->
          has_var s var = true /\ (variables = [] \/ In var variables)) as Hin.
  { rewrite filter_In. subst cols. destruct variables as [|v vs].
    - rewrite <- has_var_In. tauto.
    - split; [intros (H1 & H2); auto | intros (H1 & [H2 | H2]); [discriminate | auto]]. }
  destruct (dict_fold_set rowof (filter (has_var s) cols) [] var) as [Hyes Hno].
  split.
  - intros H. apply Hin in H. exists (rowof var). split; [exact (Hyes H)|].
    intros y. subst rowof. cbn beta.
    destruct (dict_fold_set (fun yr => cell s var yr) (years s) [] y) as [Hy Hn].
    destruct (has_year s y) eqn:E.
    + refine (Hy _). now apply has_year_In.
    + refine (Hn _). intros Hc. apply has_year_In in Hc. congruence.
  - intros H. refine (Hno _). intros Hc. apply H. now apply Hin.
Qed.

(** [to_dict] has a row exactly for the requested variables that are columns
    of the panel, and all columns when the list of variables is empty; a row
    maps every year of the index to the cell and holds no other year.  A
    requested variable that is not a column is left out, not an error. *)
Theorem to_dict_lookup s variables var :
  (has_var s var = true /\ (variables = [] \/ In var variables) ->
   exists row,
     dict_get (to_dict s variables) var = Some row /\
     forall y, dict_get row y = if has_year s y then Some (cell s var y) else None) /\
  (~ (has_var s var = true /\ (variables = [] \/ In var variables)) ->
   dict_get (to_dict s variables) var = None).
Proof. exact (to_dict_get s variables var). Qed.

Lemma to_dict_lookup_witness :
  (has_var (panel false 0 0 0) "NAT_" = true /\
   (["NAT_"; "NOPE_"] = [] \/ In "NAT_" ["NAT_"; "NOPE_"])) /\
  exists row,
    dict_get (to_dict (panel false 0 0 0) ["NAT_"; "NOPE_"]) "NAT_" = Some row /\
    forall y, dict_get row y =
      if has_year (panel false 0 0 0) y
      then Some (cell (panel false 0 0 0) "NAT_" y) else None.
Proof.
  assert (has_var (panel false 0 0 0) "NAT_" = true /\
          (["NAT_"; "NOPE_"] = [] \/ In "NAT_" ["NAT_"; "NOPE_"])) as H.
  { split; [reflexivity | right; now left]. }
  split; [exact H|].
  exact (proj1 (to_dict_lookup (panel false 0 0 0) ["NAT_"; "NOPE_"] "NAT_") H).
Defined.
(** ** equations/base.py *)



(** ** equations/registry.py and variables.py *)

Lemma all_variables_nodup : NoDup (all_variables build).
Proof.
  cbv [all_variables build pre_order inter_order post_order app].
  repeat (constructor;
          [intros H; cbn [In] in H;
           repeat (destruct H as [H | H]; [discriminate H|]); exact H |]).
  constructor.
Qed.

(** Every equation class is registered under its own name (no two classes
    share one), and the three phase lists schedule each registered variable
    exactly once: the solver's [eq is None] branches are never taken.  The
    classification sets of variables.py are the three phases. *)
Theorem registry_schedule :
  registry_len build = 58%nat /\
  (forall eq,
     In eq (production.PRODUCTION_EQUATIONS ++ labor.LABOR_EQUATIONS
            ++ behavioral.BEHAVIORAL_EQUATIONS ++ prices.PRICE_EQUATIONS
            ++ identities.IDENTITY_EQUATIONS
            ++ public_finance.PUBLIC_FINANCE_EQUATIONS
            ++ foreign.FOREIGN_EQUATIONS) ->
     registry_get build (name eq) = Some eq) /\
  NoDup (all_variables build) /\
  (forall var,
     In var (all_variables build) <->
     exists eq, registry_get build var = Some eq /\ name eq = var) /\
  (forall v, In v variables.EXOGENOUS <-> In v (pre_order build)) /\
  (forall v, In v variables.INTERDEPENDENT <-> In v (inter_order build)) /\
  (forall v, In v variables.POST_RECURSIVE <-> In v (post_order build)).
Proof.
  split. { unfold registry_len. rewrite equations_build. reflexivity. }
  split.
  { intros eq Hin. unfold registry_get. rewrite equations_build.
    cbv [production.PRODUCTION_EQUATIONS labor.LABOR_EQUATIONS
         behavioral.BEHAVIORAL_EQUATIONS prices.PRICE_EQUATIONS
         identities.IDENTITY_EQUATIONS public_finance.PUBLIC_FINANCE_EQUATIONS
         foreign.FOREIGN_EQUATIONS app] in Hin.
    cbn [In] in Hin.
    repeat (destruct Hin as [<- | Hin]; [reflexivity|]). destruct Hin. }
  split; [exact all_variables_nodup|].
  split.
  { intros var. split.
    - intros Hin.
      assert (existsb (String.eqb var) (all_variables build) = true) as Hb.
      { apply existsb_exists. exists var. split; [exact Hin | apply String.eqb_refl]. }
      destruct (registered var Hb) as (eq & E).
      exists eq. split; [exact E | now apply registry_get_name].
    - intros (eq & E & _). apply registry_get_in_all in E.
      apply existsb_exists in E. destruct E as (x & Hin & Hx).
      apply String.eqb_eq in Hx. now subst. }
  repeat split; intros H; exact H.
Qed.

Lemma registry_schedule_witness :
  In labor.WageEquation
     (production.PRODUCTION_EQUATIONS ++ labor.LABOR_EQUATIONS
      ++ behavioral.BEHAVIORAL_EQUATIONS ++ prices.PRICE_EQUATIONS
      ++ identities.IDENTITY_EQUATIONS
      ++ public_finance.PUBLIC_FINANCE_EQUATIONS
      ++ foreign.FOREIGN_EQUATIONS) /\
  registry_get build (name labor.WageEquation) = Some labor.WageEquation.
Proof.
  assert (In labor.WageEquation
            (production.PRODUCTION_EQUATIONS ++ labor.LABOR_EQUATIONS
             ++ behavioral.BEHAVIORAL_EQUATIONS ++ prices.PRICE_EQUATIONS
             ++ identities.IDENTITY_EQUATIONS
             ++ public_finance.PUBLIC_FINANCE_EQUATIONS
             ++ foreign.FOREIGN_EQUATIONS)) as H.
  { cbv [production.PRODUCTION_EQUATIONS labor.LABOR_EQUATIONS app]. cbn [In].
    do 10 right. now left. }
  split; [exact H|].
  exact (proj1 (proj2 registry_schedule) labor.WageEquation H).
Defined.
(** ** What an equation reads *)

Ltac frame_side H :=
  apply H;
  [ vm_compute; tauto
  | first [ left; discriminate | right; lia ] ].

Ltac frame_eq s s' Hf H :=
  match goal with |- compute ?e _ _ _ = _ => unfold e end;
  cbn [compute];
  unfold dln, grt, d, lag, get;
  let Hv := fresh "Hv" in
  let Hy := fresh "Hy" in
  pose proof (fun v => same_frame_has_var s s' v Hf) as Hv;
  pose proof (fun y => same_frame_has_year s s' y Hf) as Hy;
  rewrite ?Hv, ?Hy;
  repeat match goal with
  | |- context [cell s' ?v ?y] =>
      let E := fresh "E" in
      assert (cell s' v y = cell s v y) as E by frame_side H;
      rewrite E; clear E
  end;
  reflexivity.

Lemma equation_frame var eq s s' t sc :
  registry_get build var = Some eq ->
  same_frame s s' ->
  (forall v y, In v (var :: depends_on eq ++ undeclared_reads var) ->
     v <> var \/ y <> t -> cell s' v y = cell s v y) ->
  compute eq s' t sc = compute eq s t sc.
Proof.
  unfold registry_get. rewrite equations_build. cbn [dict_get].
  intros E Hf H. revert E.
  repeat match goal with
  | |- context [@key_eqb ?K ?I ?a var] =>
      destruct (@key_eqb_spec K I a var) as [Heq | _];
      [intros E; inversion E; subst; clear E; frame_eq s s' Hf H | ]
  end.
  discriminate.
Qed.

(** The value of an equation is determined by the frame, by the cells of
    the variables in [depends_on] and of the undeclared reads listed above,
    and by the past of its own variable; it never reads the current-year
    cell of its own variable. *)
Theorem equation_reads var eq s s' t sc :
  registry_get build var = Some eq ->
  same_frame s s' ->
  (forall v y, In v (var :: depends_on eq ++ undeclared_reads var) ->
     v <> var \/ y <> t -> cell s' v y = cell s v y) ->
  compute eq s' t sc = compute eq s t sc.
Proof. exact (equation_frame var eq s s' t sc). Qed.

Lemma equation_reads_witness :
  registry_get build "K_" = Some production.CapitalEquation /\
  same_frame (panel false 0 0 0) (write (panel false 0 0 0) "K_" 2013%Z 5) /\
  (forall v y,
     In v ("K_" :: depends_on production.CapitalEquation ++ undeclared_reads "K_") ->
     v <> "K_" \/ y <> 2013%Z ->
     cell (write (panel false 0 0 0) "K_" 2013%Z 5) v y = cell (panel false 0 0 0) v y) /\
  compute production.CapitalEquation (write (panel false 0 0 0) "K_" 2013%Z 5)
    2013%Z Scalars.default
  = compute production.CapitalEquation (panel false 0 0 0) 2013%Z Scalars.default.
Proof.
  assert (registry_get build "K_" = Some production.CapitalEquation) as E.
  { unfold registry_get. rewrite equations_build. reflexivity. }
  assert (same_frame (panel false 0 0 0) (write (panel false 0 0 0) "K_" 2013%Z 5)) as Hf.
  { split; reflexivity. }
  assert (forall v y,
            In v ("K_" :: depends_on production.CapitalEquation ++ undeclared_reads "K_") ->
            v <> "K_" \/ y <> 2013%Z ->
            cell (write (panel false 0 0 0) "K_" 2013%Z 5) v y
            = cell (panel false 0 0 0) v y) as H.
  { intros v y _ Hne. now apply cell_write_other. }
  split; [exact E|]. split; [exact Hf|]. split; [exact H|].
  exact (equation_reads "K_" production.CapitalEquation (panel false 0 0 0)
           (write (panel false 0 0 0) "K_" 2013%Z 5) 2013%Z Scalars.default E Hf H).
Defined.
(** ** The recursive phases leave exact values *)

Section RecursiveExact.

Variable self : GaussSeidelSolver.
Hypothesis Hreg : solver_registry self = build.

Lemma existsb_false_In (v : VarName) l :
  existsb (String.eqb v) l = false -> ~ In v l.
Proof.
  intros H Hin.
  assert (existsb (String.eqb v) l = true) as E; [|congruence].
  apply existsb_exists. exists v. split; [exact Hin | apply String.eqb_refl].
Qed.

(** A value stored by a recursive step still satisfies its equation once the
    loops are over, when nothing written afterwards is among the variables
    [reads] that determine the equation. *)
Lemma recursive_step_stable_on reads t l1 var l2 s s_end later s' eq :
  (forall a b, same_frame a b ->
     (forall v y, In v (var :: reads) -> v <> var \/ y <> t ->
        cell b v y = cell a v y) ->
     compute eq b t (solver_scalars self) = compute eq a t (solver_scalars self)) ->
  foldM (recursive_step self t) (l1 ++ var :: l2) s = Ok s_end ->
  modifies later t s_end s' ->
  registry_get build var = Some eq ->
  forallb (fun v => negb (existsb (String.eqb v) (l2 ++ later)))
          (var :: reads) = true ->
  compute eq s' t (solver_scalars self) = Ok (cell s' var t).
Proof.
  intros Hreads E Hlater Hget Hdisj.
  rewrite foldM_app in E. apply bind_ok_inv in E. destruct E as (s0 & _ & E).
  cbn [foldM] in E. apply bind_ok_inv in E. destruct E as (sx & Ex & E).
  apply (phase_modifies self) in E.
  assert (modifies (l2 ++ later) t sx s') as Hm.
  { eapply modifies_trans; (eapply modifies_incl; [|eassumption]);
      intros x Hx; apply in_or_app; auto. }
  unfold recursive_step in Ex. rewrite Hreg, Hget in Ex.
  apply bind_ok_inv in Ex. destruct Ex as (val & Ev & Ex).
  apply set_inv in Ex. destruct Ex as (_ & _ & ->).
  assert (forall v, In v (var :: reads) -> ~ In v (l2 ++ later)) as Hd.
  { intros v Hv. rewrite forallb_forall in Hdisj. specialize (Hdisj v Hv).
    apply negb_true_iff in Hdisj. now apply existsb_false_In. }
  destruct Hm as [Hf Hcells].
  rewrite (Hreads s0 s').
  - rewrite Ev. f_equal. rewrite Hcells.
    + now rewrite cell_write_same.
    + intros [Hin _]. exact (Hd var (or_introl eq_refl) Hin).
  - eapply same_frame_trans; [|exact Hf]. split; reflexivity.
  - intros v y Hv Hne. rewrite Hcells.
    + now apply cell_write_other.
    + intros [Hin _]. exact (Hd v Hv Hin).
Qed.

Lemma recursive_step_stable t l1 var l2 s s_end later s' eq :
  foldM (recursive_step self t) (l1 ++ var :: l2) s = Ok s_end ->
  modifies later t s_end s' ->
  registry_get build var = Some eq ->
  forallb (fun v => negb (existsb (String.eqb v) (l2 ++ later)))
          (var :: depends_on eq ++ undeclared_reads var) = true ->
  compute eq s' t (solver_scalars self) = Ok (cell s' var t).
Proof.
  intros E Hlater Hget.
  apply (recursive_step_stable_on (depends_on eq ++ undeclared_reads var)
           t l1 var l2 s s_end later s' eq); auto.
  intros a b Hf H. now apply (equation_frame var eq a b).
Qed.

(** The stock-change equation declares [Y_] but reads only its own lag. *)
Lemma stock_change_reads t sc a b :
  same_frame a b ->
  (forall v y, In v ["DS_"] -> v <> "DS_" \/ y <> t -> cell b v y = cell a v y) ->
  compute identities.StockChangeEquation b t sc
  = compute identities.StockChangeEquation a t sc.
Proof. intros Hf H. frame_eq a b Hf H. Qed.

End RecursiveExact.

Ltac split_at var l :=
  match l with
  | var :: ?l2 => constr:((@nil VarName, l2))
  | ?x :: ?l' =>
      match split_at var l' with
      | (?l1, ?l2) => constr:((x :: l1, l2))
      end
  end.

(** After [solve_year], every post-recursive variable, and every
    pre-recursive variable except [TGH_], holds exactly the value its
    equation gives on the final panel.  ([TGH_] is computed in phase 1 from
    [PC_], which phase 2 then changes.) *)
Theorem recursive_phases_exact (self : GaussSeidelSolver) s t s' conv :
  solver_registry self = build ->
  solve_year self s t = Ok (s', conv) ->
  forall var eq,
    In var (pre_order build ++ post_order build) -> var <> "TGH_" ->
    registry_get build var = Some eq ->
    compute eq s' t (solver_scalars self) = Ok (cell s' var t).
Proof.
  intros Hreg E var eq Hin Hne Hget.
  unfold solve_year in E. rewrite Hreg in E.
  apply bind_ok_inv in E. destruct E as (s1 & E1 & E).
  apply bind_ok_inv in E. destruct E as ([s2 [[it m] st]] & E2 & E).
  apply bind_ok_inv in E. destruct E as (s3 & E3 & E).
  inversion E; subst s3 conv; clear E.
  pose proof (inter_phase_modifies self _ _ _ _ _ _ _ E2) as Hinter.
  rewrite Hreg in Hinter.
  pose proof (phase_modifies self _ _ _ _ E3) as Hpost.
  assert (modifies (inter_order build ++ post_order build) t s1 s') as Hlate.
  { eapply modifies_trans; (eapply modifies_incl; [|eassumption]);
      intros x Hx; apply in_or_app; auto. }
  unfold registry_get in Hget. rewrite equations_build in Hget.
  cbv [pre_order inter_order post_order build app] in *.
  cbn [In] in Hin.
  repeat match type of Hin with
  | ?a = var \/ _ =>
      destruct Hin as [<- | Hin];
      [ first
          [ now elim Hne
          | cbn in Hget; injection Hget as <-;
            first
              [ match type of E1 with
                | foldM _ ?l _ = _ =>
                    match split_at a l with
                    | (?l1, ?l2) =>
                        exact (recursive_step_stable self Hreg t l1 a l2 _ _ _ _ _
                                 E1 Hlate
                                 ltac:(unfold registry_get; rewrite equations_build;
                                       reflexivity)
                                 ltac:(vm_compute; reflexivity))
                    end
                end
              | match type of E1 with
                | foldM _ ?l _ = _ =>
                    match split_at a l with
                    | (?l1, ?l2) =>
                        exact (recursive_step_stable_on self Hreg [] t l1 a l2 _ _ _ _ _
                                 (stock_change_reads t (solver_scalars self))
                                 E1 Hlate
                                 ltac:(unfold registry_get; rewrite equations_build;
                                       reflexivity)
                                 ltac:(vm_compute; reflexivity))
                    end
                end
              | match type of E3 with
                | foldM _ ?l _ = _ =>
                    match split_at a l with
                    | (?l1, ?l2) =>
                        exact (recursive_step_stable self Hreg t l1 a l2 _ _ [] _ _
                                 E3 (modifies_refl [] t s')
                                 ltac:(unfold registry_get; rewrite equations_build;
                                       reflexivity)
                                 ltac:(vm_compute; reflexivity))
                    end
                end ] ]
      | ]
  end.
  destruct Hin.
Qed.

Lemma recursive_phases_exact_witness :
  solver_registry engine_solver = build /\
  solve_year engine_solver (panel false 0.8 1.005 1) 2013%Z
    = Ok (panel false 0.8 1.005 1, settled 2013%Z) /\
  In "TB_" (pre_order build ++ post_order build) /\ "TB_" <> "TGH_" /\
  registry_get build "TB_" = Some foreign.TradeBalanceEquation /\
  compute foreign.TradeBalanceEquation (panel false 0.8 1.005 1) 2013%Z
    (solver_scalars engine_solver)
  = Ok (cell (panel false 0.8 1.005 1) "TB_" 2013%Z).
Proof.
  assert (solve_year engine_solver (panel false 0.8 1.005 1) 2013%Z
          = Ok (panel false 0.8 1.005 1, settled 2013%Z)) as E.
  { apply equilibrium_solve_year. apply panel_equilibrium. }
  assert (In "TB_" (pre_order build ++ post_order build)) as Hin.
  { cbv [pre_order post_order build app]. cbn [In]. do 21 right. now left. }
  assert ("TB_" <> "TGH_") as Hne by discriminate.
  assert (registry_get build "TB_" = Some foreign.TradeBalanceEquation) as Hget.
  { unfold registry_get. rewrite equations_build. reflexivity. }
  split; [reflexivity|]. split; [exact E|]. split; [exact Hin|].
  split; [exact Hne|]. split; [exact Hget|].
  exact (recursive_phases_exact engine_solver _ _ _ _ eq_refl E
           "TB_" foreign.TradeBalanceEquation Hin Hne Hget).
Defined.
(** ** solver.py: what a solve changes and what it reports *)

Lemma solve_frame_facts (self : GaussSeidelSolver) s yrs s' reports :
  solve self s yrs = Ok (s', reports) ->
  years s' = years s /\ columns s' = columns s /\
  (forall v y, ~ (In v (all_variables (solver_registry self)) /\ In y yrs) ->
     cell s' v y = cell s v y) /\
  map year reports = yrs.
Proof.
  intros E. pose proof (solve_years_reported self yrs s [] s' reports E) as Hrep.
  unfold solve in E.
  assert (same_frame s s' /\
          forall v y, ~ (In v (all_variables (solver_registry self)) /\ In y yrs) ->
                      cell s' v y = cell s v y) as [[Hy Hc] Hcells].
  { refine (foldM_rel _
              (fun a b : SimulationState * list YearConvergence =>
                 same_frame (fst a) (fst b) /\
                 forall v y, ~ (In v (all_variables (solver_registry self)) /\ In y yrs) ->
                             cell (fst b) v y = cell (fst a) v y)
              yrs _ _ _ (s, []) (s', reports) E).
    - intros st. split; [apply same_frame_refl | reflexivity].
    - intros a b c [F1 H1] [F2 H2]. split; [eapply same_frame_trans; eauto|].
      intros v y H. rewrite H2, H1; auto.
    - intros [st rs] t [st' rs'] Ht Et. cbn [fst].
      apply bind_ok_inv in Et. destruct Et as ([s1 c] & Et & E1).
      inversion E1; subst; clear E1.
      apply solve_year_modifies in Et. destruct Et as [[F Hm] _].
      split; [exact F|]. intros v y H. apply Hm.
      intros [Hv ->]. apply H. auto. }
  repeat split; auto.
Qed.






(** ** A solution is a fixed point of the solver *)

Section FixedPoint.

Variable self : GaussSeidelSolver.
Hypothesis Hreg : solver_registry self = build.
Hypothesis Hsc : solver_scalars self = engine_scalars.
Hypothesis Heps : 0 < eps self.
Hypothesis Hiter : (1 <= max_iter self)%nat.

Variables (s : SimulationState) (t : Year).
Hypothesis Heq : equilibrium s t.

Lemma fixed_recursive_step var : recursive_step self t s var = Ok s.
Proof.
  destruct Heq as (Hc & Hy & Hval).
  unfold recursive_step. rewrite Hreg, Hsc.
  destruct (registry_get build var) as [eq|] eqn:E; [|reflexivity].
  rewrite (Hval var eq E). cbn [bind].
  rewrite set_ok; [now rewrite write_same | | apply Hy].
  apply cols_ok_has; [exact Hc | now apply registry_get_in_all with eq].
Qed.

Lemma fixed_phase l : foldM (recursive_step self t) l s = Ok s.
Proof.
  induction l as [|var l IH]; [reflexivity|].
  cbn [foldM]. now rewrite fixed_recursive_step.
Qed.

Lemma fixed_inter_step var : inter_step self t (s, 0) var = Ok (s, 0).
Proof.
  destruct Heq as (Hc & Hy & Hval).
  destruct (registry_get build var) as [eq|] eqn:E.
  - rewrite (inter_step_value self Hreg t s 0 var eq (cell s var t) (cell s var t) E).
    + replace (relaxation self * cell s var t + (1 - relaxation self) * cell s var t)
        with (cell s var t) by ring.
      rewrite write_same, spec_residual_same.
      unfold fmax. destruct (Rltb_spec 0 0); [lra | reflexivity].
    + apply get_ok; [|apply Hy].
      apply cols_ok_has; [exact Hc | now apply registry_get_in_all with eq].
    + rewrite Hsc. now apply Hval.
  - unfold inter_step. rewrite Hreg. now rewrite E.
Qed.

Lemma fixed_sweep : sweep self t s = Ok (s, 0).
Proof.
  unfold sweep. generalize (inter_order (solver_registry self)).
  induction l as [|var l IH]; [reflexivity|].
  cbn [foldM]. now rewrite fixed_inter_step.
Qed.

Lemma fixed_solve_year : solve_year self s t = Ok (s, settled t).
Proof.
  unfold solve_year. rewrite fixed_phase. cbn [bind].
  destruct (max_iter self) as [|n]; [lia|].
  cbn [seq inter_phase]. rewrite fixed_sweep. cbn [bind].
  replace (0 <? eps self) with true by (symmetry; now apply Rltb_true).
  cbn [bind]. rewrite fixed_phase. reflexivity.
Qed.

End FixedPoint.

(** A panel that already solves the model in the years asked for is left
    as it is by [solve], whatever the relaxation factor, and every year is
    reported [CONVERGED] after one sweep with residual 0. *)
Theorem solution_is_fixed_point (self : GaussSeidelSolver) s yrs :
  solver_registry self = build ->
  solver_scalars self = engine_scalars ->
  0 < eps self -> (1 <= max_iter self)%nat ->
  (forall t, In t yrs -> equilibrium s t) ->
  solve self s yrs = Ok (s, map settled yrs).
Proof.
  intros Hreg Hsc Heps Hiter Heq. unfold solve.
  assert (forall rs,
            foldM (fun acc t =>
                     let '(state, results) := acc in
                     '(state', conv) <- solve_year self state t ;;
                     Ok (state', results ++ [conv])) yrs (s, rs)
            = Ok (s, rs ++ map settled yrs)) as H.
  { induction yrs as [|t yrs IH]; intros rs; cbn [foldM map].
    - now rewrite app_nil_r.
    - rewrite (fixed_solve_year self Hreg Hsc Heps Hiter s t) by (apply Heq; now left).
      cbn [bind]. rewrite IH by (intros; apply Heq; now right).
      now rewrite <- app_assoc. }
  apply (H []).
Qed.

Lemma solution_is_fixed_point_witness :
  solver_registry engine_solver = build /\
  solver_scalars engine_solver = engine_scalars /\
  0 < eps engine_solver /\ (1 <= max_iter engine_solver)%nat /\
  (forall t, In t [2013%Z] -> equilibrium (panel false 0.8 1.005 1) t) /\
  solve engine_solver (panel false 0.8 1.005 1) [2013%Z]
    = Ok (panel false 0.8 1.005 1, map settled [2013%Z]).
Proof.
  assert (0 < eps engine_solver) as He by (cbn; lra).
  assert (1 <= max_iter engine_solver)%nat as Hi by (cbn; lia).
  assert (forall t, In t [2013%Z] -> equilibrium (panel false 0.8 1.005 1) t) as Hq.
  { intros t [<- | []]. apply panel_equilibrium. }
  split; [reflexivity|]. split; [reflexivity|]. split; [exact He|].
  split; [exact Hi|]. split; [exact Hq|].
  exact (solution_is_fixed_point engine_solver _ _ eq_refl eq_refl He Hi Hq).
Defined.
(** ** instruments.py and the head of [simulate]: merging with the defaults *)

Lemma dict_get_none {K V} `{Key K} (dct : dict K V) k :
  dict_get dct k = None <-> ~ In k (map fst dct).
Proof.
  induction dct as [|[k' v'] dct IH]; cbn.
  - tauto.
  - destruct (key_eqb_spec k' k) as [-> | Hne].
    + split; [discriminate | intros Hn; elim Hn; now left].
    + rewrite IH. split; [intros Hn [? | ?]; [congruence | contradiction] | tauto].
Qed.

Lemma dict_set_keys {K V} `{Key K} (dct : dict K V) k v :
  In k (map fst dct) -> map fst (dict_set dct k v) = map fst dct.
Proof.
  induction dct as [|[k' v'] dct IH]; cbn; [intros []|].
  destruct (key_eqb_spec k' k) as [-> | Hne]; cbn; [reflexivity|].
  intros [? | Hin]; [congruence|]. now rewrite IH.
Qed.

(** [d.update(other)]: the keys of [other] take its values, in place; the
    others keep theirs. *)
Lemma dict_update_get {K V} `{Key K} (other : dict K V) :
  NoDup (map fst other) ->
  forall dct k,
    dict_get (dict_update dct other) k
    = match dict_get other k with Some v => Some v | None => dict_get dct k end.
Proof.
  unfold dict_update.
  induction other as [|[k0 v0] other IH]; intros Hnd dct k; cbn [fold_left fst snd].
  - reflexivity.
  - inversion Hnd as [|? ? Hnotin Hnd']; subst.
    rewrite (IH Hnd'). cbn [dict_get].
    destruct (key_eqb_spec k0 k) as [<- | Hne].
    + rewrite (proj2 (dict_get_none other k0) Hnotin). apply dict_get_set_same.
    + destruct (dict_get other k); [reflexivity|].
      apply dict_get_set_other. congruence.
Qed.

Lemma dict_update_keys {K V} `{Key K} (other : dict K V) :
  forall dct,
    (forall k, In k (map fst other) -> In k (map fst dct)) ->
    map fst (dict_update dct other) = map fst dct.
Proof.
  unfold dict_update.
  induction other as [|[k0 v0] other IH]; intros dct Hin; cbn [fold_left fst snd].
  - reflexivity.
  - rewrite IH.
    + apply dict_set_keys. apply Hin. now left.
    + intros k Hk. rewrite dict_set_keys by (apply Hin; now left).
      apply Hin. now right.
Qed.

Lemma default_instruments_eq :
  instruments.get_default_instruments =
  [("VIG_X", 0); ("ITPC0R_X", 21); ("DTH_X", 0); ("CSSFR_X", 30); ("CSSHR_X", 13);
   ("TGH_X", 0); ("WR_X", 0); ("WGRR_X", 0); ("NG_X", 0); ("ZX_X", 0)].
Proof. reflexivity. Qed.

Lemma instrument_map_eq :
  instruments.INSTRUMENT_MAP =
  map (fun i => (instruments.key i, i)) instruments.INSTRUMENTS.
Proof. reflexivity. Qed.

Lemma instrument_known k spec :
  dict_get instruments.INSTRUMENT_MAP k = Some spec ->
  In spec instruments.INSTRUMENTS /\ instruments.key spec = k /\
  dict_get instruments.get_default_instruments k = Some (instruments.default spec).
Proof.
  rewrite instrument_map_eq, default_instruments_eq.
  cbv [instruments.INSTRUMENTS map instruments.key]. cbn [dict_get].
  repeat match goal with
  | |- context [@key_eqb ?K ?I ?a k] =>
      destruct (@key_eqb_spec K I a k) as [Heq | _];
      [intros E; inversion E; subst; clear E;
       split; [cbn [In]; tauto | split; reflexivity] | ]
  end.
  discriminate.
Qed.

Lemma default_in_range spec :
  In spec instruments.INSTRUMENTS ->
  instruments.min_val spec <= instruments.default spec <= instruments.max_val spec.
Proof.
  cbv [instruments.INSTRUMENTS]. cbn [In].
  intros H. repeat (destruct H as [<- | H]; [cbn; lra|]). destruct H.
Qed.

Lemma not_offending kv :
  ~ offending kv ->
  exists spec, dict_get instruments.INSTRUMENT_MAP (fst kv) = Some spec /\
               instruments.min_val spec <= snd kv <= instruments.max_val spec.
Proof.
  unfold offending. destruct (dict_get instruments.INSTRUMENT_MAP (fst kv)) as [spec|].
  - intros H. exists spec. split; [reflexivity|].
    destruct (Rle_dec (instruments.min_val spec) (snd kv));
      destruct (Rle_dec (snd kv) (instruments.max_val spec)); try lra;
      exfalso; apply H; lra.
  - intros H. elim H. exact I.
Qed.

Lemma dict_get_in {K V} `{Key K} (dct : dict K V) k v :
  dict_get dct k = Some v -> In (k, v) dct.
Proof.
  induction dct as [|[k' v'] dct IH]; cbn; [discriminate|].
  destruct (key_eqb_spec k' k) as [-> | Hne].
  - intros E; inversion E; now left.
  - intros E. right. now apply IH.
Qed.

Section Merge.

Variable float_str : R -> string.

(** The instruments a run uses: the catalogue's ten keys in catalogue
    order, each at the supplied value if there is one and at its default
    otherwise, and every value within the declared range of its key. *)
Theorem merge_instruments_spec (values : dict string R) :
  NoDup (map fst values) ->
  (forall kv, In kv values -> ~ offending kv) ->
  exists ins,
    merge_instruments float_str (Some values) = Ok ins /\
    map fst ins = instrument_keys /\
    (forall k, dict_get ins k =
       match dict_get values k with
       | Some v => Some v
       | None => dict_get instruments.get_default_instruments k
       end) /\
    (forall k v spec,
       dict_get ins k = Some v -> dict_get instruments.INSTRUMENT_MAP k = Some spec ->
       instruments.min_val spec <= v <= instruments.max_val spec).
Proof.
  intros Hnd Hok.
  assert (forall k, dict_get (dict_update instruments.get_default_instruments values) k =
            match dict_get values k with
            | Some v => Some v
            | None => dict_get instruments.get_default_instruments k
            end) as Hget by (intros k; now apply dict_update_get).
  assert (map fst (dict_update instruments.get_default_instruments values)
          = instrument_keys) as Hkeys.
  { rewrite dict_update_keys; [reflexivity|].
    intros k Hk. apply in_map_iff in Hk. destruct Hk as ([k' v] & <- & Hin).
    destruct (not_offending _ (Hok _ Hin)) as (spec & Hs & _).
    apply instrument_known in Hs. destruct Hs as (_ & _ & Hd).
    apply dict_get_in in Hd. apply in_map_iff. eexists. split; [|exact Hd]. reflexivity. }
  assert (forall k v spec,
            dict_get (dict_update instruments.get_default_instruments values) k = Some v ->
            dict_get instruments.INSTRUMENT_MAP k = Some spec ->
            instruments.min_val spec <= v <= instruments.max_val spec) as Hrange.
  { intros k v spec Hv Hs. rewrite Hget in Hv.
    destruct (dict_get values k) as [x|] eqn:Ex.
    - inversion Hv; subst x. apply dict_get_in in Ex.
      destruct (not_offending _ (Hok _ Ex)) as (spec' & Hs' & Hr).
      cbn [fst snd] in *. rewrite Hs in Hs'. inversion Hs'; subst. exact Hr.
    - destruct (instrument_known _ _ Hs) as (Hin & _ & Hd).
      rewrite Hd in Hv. inversion Hv; subst. now apply default_in_range. }
  unfold merge_instruments. destruct values as [|kv values].
  - exists instruments.get_default_instruments. split; [reflexivity|].
    split; [reflexivity|]. split; [intros k; apply (Hget k)|].
    intros k v spec. apply Hrange.
  - rewrite (proj2 (validate_nil_iff float_str (kv :: values)) Hok).
    eexists. split; [reflexivity|]. auto.
Qed.

End Merge.

Lemma merge_instruments_spec_witness :
  NoDup (map fst [("ITPC0R_X", 25)]) /\
  (forall kv, In kv [("ITPC0R_X", 25)] -> ~ offending kv) /\
  exists ins,
    merge_instruments (fun _ => EmptyString) (Some [("ITPC0R_X", 25)]) = Ok ins /\
    map fst ins = instrument_keys.
Proof.
  assert (NoDup (map fst [("ITPC0R_X", 25)])) as Hnd.
  { constructor; [intros [] | constructor]. }
  assert (forall kv, In kv [("ITPC0R_X", 25)] -> ~ offending kv) as Hok.
  { intros kv [<- | []]. unfold offending. cbn. intros H. apply H. lra. }
  split; [exact Hnd|]. split; [exact Hok|].
  destruct (merge_instruments_spec (fun _ => EmptyString) _ Hnd Hok)
    as (ins & E & Hk & _).
  exists ins. split; [exact E | exact Hk].
Defined.
Lemma defaults_valid kv :
  In kv instruments.get_default_instruments -> ~ offending kv.
Proof.
  rewrite default_instruments_eq. cbn [In].
  intros H. repeat (destruct H as [<- | H]; [unfold offending; cbn; intros Hn; apply Hn; lra|]).
  destruct H.
Qed.

Section Defaults.

Variable float_str : R -> string.
Variable round : R -> Z -> R.

(** Passing no instruments, an empty dictionary or the catalogue defaults
    spelled out are the same call: the defaults pass validation and the
    run is the same. *)
Theorem explicit_defaults_same (w : World) (name : string) :
  instruments.validate_instruments float_str instruments.get_default_instruments = [] /\
  simulate float_str round w (Some instruments.get_default_instruments) name
    = simulate float_str round w None name /\
  simulate float_str round w (Some []) name = simulate float_str round w None name.
Proof.
  assert (instruments.validate_instruments float_str instruments.get_default_instruments = [])
    as Hv by (apply validate_nil_iff; exact defaults_valid).
  split; [exact Hv|]. split; [|reflexivity].
  unfold simulate.
  assert (merge_instruments float_str (Some instruments.get_default_instruments)
          = merge_instruments float_str None) as ->; [|reflexivity].
  unfold merge_instruments.
  destruct instruments.get_default_instruments as [|kv l] eqn:E; [reflexivity|].
  rewrite Hv. rewrite <- E. f_equal.
Qed.

End Defaults.
(** ** instruments.py: [apply_instruments] *)

Lemma has_var_add_var s k dflt v :
  has_var (add_var s k dflt) v = has_var s v || String.eqb k v.
Proof.
  destruct (String.eqb_spec k v) as [-> | Hne].
  - rewrite orb_true_r. apply add_var_facts.
  - rewrite orb_false_r.
    apply (proj2 (proj2 (proj2 (proj2 (add_var_facts s k dflt)))) v 0%Z). congruence.
Qed.

Section ApplyInstruments.

Variable ins : dict string R.
Hypothesis Hnd : NoDup (map fst ins).

(** The loop over the entries, for one year. *)
Lemma apply_entries_spec y (l : dict string R) :
  NoDup (map fst l) ->
  forall st, has_year st y = true ->
  exists st',
    foldM (fun state kv =>
             let '(key, value) := kv in
             let state := if negb (has_var state key)
                          then add_var state key 0 else state in
             set state key y value) l st = Ok st' /\
    years st' = years st /\
    (forall v, has_var st' v = has_var st v || dict_mem l v) /\
    (forall v y', cell st' v y' =
       match dict_get l v with
       | Some x => if Z.eqb y' y then x
                   else if has_var st v then cell st v y' else 0
       | None => cell st v y'
       end).
Proof.
  induction l as [|[k x] l IH]; intros Hl st Hy.
  - exists st. cbn. split; [reflexivity|]. split; [reflexivity|].
    split; [intros v; now rewrite orb_false_r | reflexivity].
  - inversion Hl as [|? ? Hnotin Hl']; subst. cbn [map fst] in Hnotin.
    cbn [foldM].
    set (st_a := if negb (has_var st k) then add_var st k 0 else st).
    assert (years st_a = years st) as Hya.
    { subst st_a. destruct (has_var st k); [reflexivity | apply add_var_facts]. }
    assert (forall v, has_var st_a v = has_var st v || String.eqb k v) as Hva.
    { intros v. subst st_a. destruct (has_var st k) eqn:Hk; cbn [negb].
      - destruct (String.eqb_spec k v) as [<- | _];
          [now rewrite Hk | now rewrite orb_false_r].
      - apply has_var_add_var. }
    assert (forall v y', cell st_a v y' =
              if String.eqb v k then (if has_var st k then cell st k y' else 0)
              else cell st v y') as Hca.
    { intros v y'. subst st_a. destruct (has_var st k) eqn:Hk; cbn [negb].
      - destruct (String.eqb_spec v k) as [-> | _]; reflexivity.
      - unfold add_var. rewrite Hk. cbn [cell].
        destruct (String.eqb v k); reflexivity. }
    assert (has_year st_a y = true) as Hyy.
    { unfold has_year. rewrite Hya. exact Hy. }
    rewrite set_ok; [|rewrite Hva, String.eqb_refl; apply orb_true_r | exact Hyy].
    cbn [bind].
    destruct (IH Hl' (write st_a k y x)) as (st' & E & Hys & Hvs & Hcs).
    { now rewrite has_year_write. }
    exists st'. split; [exact E|].
    split; [rewrite Hys; exact Hya|].
    split.
    + intros v. rewrite Hvs, has_var_write, Hva. unfold dict_mem. cbn [dict_get].
      change (@key_eqb string string_Key k v) with (String.eqb k v).
      destruct (String.eqb k v); [now rewrite orb_true_r|].
      now rewrite orb_false_r.
    + intros v y'. rewrite Hcs. cbn [dict_get].
      change (@key_eqb string string_Key k v) with (String.eqb k v).
      destruct (String.eqb_spec k v) as [<- | Hne].
      * rewrite (proj2 (dict_get_none l k) Hnotin).
        cbn [write cell]. rewrite String.eqb_refl. cbn [andb].
        destruct (Z.eqb y' y); [reflexivity|].
        rewrite Hca, String.eqb_refl. reflexivity.
      * assert (String.eqb v k = false) as Hvk by (apply String.eqb_neq; congruence).
        rewrite has_var_write, Hva.
        assert (String.eqb k v = false) as Hkv by (now apply String.eqb_neq).
        rewrite Hkv, orb_false_r.
        cbn [write cell]. rewrite Hvk. cbn [andb]. rewrite Hca, Hvk. reflexivity.
Qed.

Lemma set_known st v y x :
  has_var st v = true -> has_year st y = true ->
  set st v y x = Ok (write st v y x).
Proof. intros. now apply set_ok. Qed.

(** One year of [apply_instruments]. *)
Lemma apply_year_spec st y :
  has_year st y = true ->
  has_var st "ITPC0R_" = true -> has_var st "CSSFR_" = true ->
  has_var st "CSSHR_" = true ->
  exists st',
    instruments.apply_year ins st y = Ok st' /\
    years st' = years st /\
    (forall v, has_var st' v = has_var st v || dict_mem ins v) /\
    (forall v y', cell st' v y' =
       if Z.eqb y' y then
         match instrument_target ins v with
         | Some x => x
         | None => cell st v y'
         end
       else if has_var st v || negb (dict_mem ins v) then cell st v y' else 0).
Proof.
  intros Hy H1 H2 H3. unfold instruments.apply_year.
  destruct (apply_entries_spec y ins Hnd st Hy) as (s1 & E & Hys & Hvs & Hcs).
  match goal with
  | |- exists st', bind ?m ?k = _ /\ _ =>
      replace m with (Ok s1 : result SimulationState) by (symmetry; exact E)
  end.
  cbn [bind].
  assert (has_year s1 y = true) as Hy1 by (unfold has_year; now rewrite Hys).
  set (s2 := match dict_get ins "ITPC0R_X" with
             | Some x => write s1 "ITPC0R_" y x | None => s1 end).
  assert (match dict_get ins "ITPC0R_X" with
          | Some x => set s1 "ITPC0R_" y x | None => Ok s1 end = Ok s2) as ->.
  { subst s2. destruct (dict_get ins "ITPC0R_X"); [|reflexivity].
    apply set_known; [rewrite Hvs, H1; reflexivity | exact Hy1]. }
  cbn [bind].
  assert (forall v, has_var s2 v = has_var s1 v) as Hv2.
  { intros v. subst s2. destruct (dict_get ins "ITPC0R_X");
      [apply has_var_write | reflexivity]. }
  assert (has_year s2 y = true) as Hy2.
  { subst s2. destruct (dict_get ins "ITPC0R_X");
      [now rewrite has_year_write | exact Hy1]. }
  set (s3 := match dict_get ins "CSSFR_X" with
             | Some x => write s2 "CSSFR_" y (x / 100) | None => s2 end).
  assert (match dict_get ins "CSSFR_X" with
          | Some x => set s2 "CSSFR_" y (x / 100) | None => Ok s2 end = Ok s3) as ->.
  { subst s3. destruct (dict_get ins "CSSFR_X"); [|reflexivity].
    apply set_known; [rewrite Hv2, Hvs, H2; reflexivity | exact Hy2]. }
  cbn [bind].
  assert (forall v, has_var s3 v = has_var s1 v) as Hv3.
  { intros v. subst s3. destruct (dict_get ins "CSSFR_X");
      [rewrite has_var_write; apply Hv2 | apply Hv2]. }
  assert (has_year s3 y = true) as Hy3.
  { subst s3. destruct (dict_get ins "CSSFR_X");
      [now rewrite has_year_write | exact Hy2]. }
  set (s4 := match dict_get ins "CSSHR_X" with
             | Some x => write s3 "CSSHR_" y (x / 100) | None => s3 end).
  exists s4. split.
  { subst s4. destruct (dict_get ins "CSSHR_X"); [|reflexivity].
    apply set_known; [rewrite Hv3, Hvs, H3; reflexivity | exact Hy3]. }
  split.
  { subst s4 s3 s2.
    destruct (dict_get ins "CSSHR_X"), (dict_get ins "CSSFR_X"),
             (dict_get ins "ITPC0R_X"); exact Hys. }
  split.
  { intros v. rewrite <- Hvs, <- Hv3. subst s4.
    destruct (dict_get ins "CSSHR_X"); [apply has_var_write | reflexivity]. }
  intros v y'. unfold instrument_target.
  assert (cell s1 v y' =
          if Z.eqb y' y then match dict_get ins v with
                             | Some x => x | None => cell st v y' end
          else if has_var st v || negb (dict_mem ins v) then cell st v y' else 0) as Hc1.
  { rewrite Hcs. unfold dict_mem. destruct (dict_get ins v) as [x|]; cbn [negb].
    - destruct (Z.eqb y' y); [reflexivity|]. now rewrite orb_false_r.
    - rewrite orb_true_r. destruct (Z.eqb y' y); reflexivity. }
  assert (cell s2 v y' =
          if Z.eqb y' y then
            match (if String.eqb v "ITPC0R_" then dict_get ins "ITPC0R_X" else None) with
            | Some x => x
            | None => match dict_get ins v with
                      | Some x => x | None => cell st v y' end
            end
          else if has_var st v || negb (dict_mem ins v) then cell st v y' else 0) as Hc2.
  { subst s2. destruct (dict_get ins "ITPC0R_X") as [x|].
    - cbn [write cell]. destruct (String.eqb v "ITPC0R_"); cbn [andb];
        [destruct (Z.eqb y' y); [reflexivity | rewrite Hc1] | rewrite Hc1];
        destruct (Z.eqb y' y); reflexivity.
    - destruct (String.eqb v "ITPC0R_"); exact Hc1. }
  assert (cell s3 v y' =
          if Z.eqb y' y then
            match (if String.eqb v "CSSFR_" then dict_get ins "CSSFR_X" else None) with
            | Some x => x / 100
            | None =>
              match (if String.eqb v "ITPC0R_" then dict_get ins "ITPC0R_X" else None) with
              | Some x => x
              | None => match dict_get ins v with
                        | Some x => x | None => cell st v y' end
              end
            end
          else if has_var st v || negb (dict_mem ins v) then cell st v y' else 0) as Hc3.
  { subst s3. destruct (dict_get ins "CSSFR_X") as [x|].
    - cbn [write cell]. destruct (String.eqb v "CSSFR_"); cbn [andb];
        [destruct (Z.eqb y' y); [reflexivity | rewrite Hc2] | rewrite Hc2];
        destruct (Z.eqb y' y); reflexivity.
    - destruct (String.eqb v "CSSFR_"); exact Hc2. }
  subst s4. destruct (dict_get ins "CSSHR_X") as [x|].
  - cbn [write cell]. destruct (String.eqb v "CSSHR_"); cbn [andb];
      [destruct (Z.eqb y' y); [reflexivity | rewrite Hc3] | rewrite Hc3];
      destruct (Z.eqb y' y); try reflexivity;
      destruct (if String.eqb v "CSSFR_" then dict_get ins "CSSFR_X" else None);
      try reflexivity;
      destruct (if String.eqb v "ITPC0R_" then dict_get ins "ITPC0R_X" else None);
      try reflexivity; destruct (dict_get ins v); reflexivity.
  - rewrite Hc3. destruct (String.eqb v "CSSHR_");
      destruct (Z.eqb y' y); try reflexivity;
      destruct (if String.eqb v "CSSFR_" then dict_get ins "CSSFR_X" else None);
      try reflexivity;
      destruct (if String.eqb v "ITPC0R_" then dict_get ins "ITPC0R_X" else None);
      try reflexivity; destruct (dict_get ins v); reflexivity.
Qed.

End ApplyInstruments.

Lemma instrument_target_none ins v :
  instrument_target ins v = None -> dict_get ins v = None.
Proof.
  unfold instrument_target.
  destruct (if String.eqb v "CSSHR_" then dict_get ins "CSSHR_X" else None);
    [discriminate|].
  destruct (if String.eqb v "CSSFR_" then dict_get ins "CSSFR_X" else None);
    [discriminate|].
  destruct (if String.eqb v "ITPC0R_" then dict_get ins "ITPC0R_X" else None);
    [discriminate|].
  auto.
Qed.

(** [apply_instruments] on a panel that has the three rate columns and the
    years asked for: in each of these years every supplied key holds its
    value (its column is created, filled with 0, when missing), [ITPC0R_]
    holds the [ITPC0R_X] value and [CSSFR_], [CSSHR_] hold the [CSSFR_X],
    [CSSHR_X] values divided by 100; nothing else is written, and the cells
    of other years keep their values.  With no year to apply to, the panel
    is left as it is. *)
Theorem apply_instruments_spec (ins : dict string R) (yrs : list Year) :
  NoDup (map fst ins) ->
  forall s,
  (forall y, In y yrs -> has_year s y = true) ->
  has_var s "ITPC0R_" = true -> has_var s "CSSFR_" = true ->
  has_var s "CSSHR_" = true ->
  exists s',
    instruments.apply_instruments s ins yrs = Ok s' /\
    years s' = years s /\
    (yrs = [] -> s' = s) /\
    (yrs <> [] -> forall v, has_var s' v = has_var s v || dict_mem ins v) /\
    (forall v y, In y yrs ->
       cell s' v y = match instrument_target ins v with
                     | Some x => x
                     | None => cell s v y
                     end) /\
    (forall v y, ~ In y yrs -> has_var s v = true \/ dict_get ins v = None ->
       cell s' v y = cell s v y) /\
    (forall v y, ~ In y yrs -> yrs <> [] ->
       has_var s v = false -> dict_mem ins v = true -> cell s' v y = 0).
Proof.
  intros Hnd. unfold instruments.apply_instruments.
  induction yrs as [|y0 yrs IH]; intros s Hyrs H1 H2 H3.
  - exists s. cbn [foldM]. split; [reflexivity|]. split; [reflexivity|].
    split; [reflexivity|]. split; [congruence|].
    split; [intros v y []|]. split; [reflexivity|]. congruence.
  - cbn [foldM].
    destruct (apply_year_spec ins Hnd s y0 (Hyrs y0 (or_introl eq_refl)) H1 H2 H3)
      as (s1 & E1 & Hy1 & Hv1 & Hc1).
    rewrite E1. cbn [bind].
    destruct (IH s1) as (s' & E & Hys & Hnil & Hvs & Hin & Hout & Hnew).
    { intros y Hy. unfold has_year. rewrite Hy1. apply Hyrs. now right. }
    { rewrite Hv1, H1. reflexivity. }
    { rewrite Hv1, H2. reflexivity. }
    { rewrite Hv1, H3. reflexivity. }
    exists s'. split; [exact E|]. split; [congruence|].
    split; [discriminate|].
    assert (forall v, has_var s' v = has_var s v || dict_mem ins v) as Hvar.
    { intros v. destruct yrs as [|y1 yrs'].
      - rewrite (Hnil eq_refl). apply Hv1.
      - rewrite Hvs by discriminate. rewrite Hv1.
        destruct (has_var s v), (dict_mem ins v); reflexivity. }
    split; [intros _; exact Hvar|].
    assert (forall v y, ~ In y yrs ->
              has_var s1 v = true \/ dict_get ins v = None ->
              cell s' v y = cell s1 v y) as Hout1 by exact Hout.
    assert (forall v, has_var s1 v = true \/ dict_get ins v = None) as Hcase.
    { intros v. rewrite Hv1. unfold dict_mem.
      destruct (dict_get ins v); [left; apply orb_true_r | now right]. }
    split.
    { intros v y Hy.
      destruct (in_dec Z.eq_dec y yrs) as [Hr | Hr].
      - rewrite (Hin v y Hr).
        destruct (instrument_target ins v) eqn:Et; [reflexivity|].
        rewrite Hc1. rewrite Et.
        apply instrument_target_none in Et. unfold dict_mem. rewrite Et. cbn [negb].
        rewrite orb_true_r. destruct (Z.eqb y y0); reflexivity.
      - destruct Hy as [<- | Hy]; [|contradiction].
        rewrite (Hout1 v y0 Hr (Hcase v)), Hc1, Z.eqb_refl. reflexivity. }
    split.
    { intros v y Hn Hor.
      assert (~ In y yrs) as Hr by (intros Hc; apply Hn; now right).
      assert (y <> y0) as Hne by (intros ->; apply Hn; now left).
      rewrite (Hout1 v y Hr (Hcase v)), Hc1.
      apply Z.eqb_neq in Hne. rewrite Hne.
      destruct Hor as [-> | Hd]; [reflexivity|].
      unfold dict_mem. rewrite Hd. cbn [negb]. now rewrite orb_true_r. }
    intros v y Hn _ Hv Hm.
    assert (~ In y yrs) as Hr by (intros Hc; apply Hn; now right).
    assert (y <> y0) as Hne by (intros ->; apply Hn; now left).
    rewrite (Hout1 v y Hr (Hcase v)), Hc1.
    apply Z.eqb_neq in Hne. rewrite Hne, Hv, Hm. reflexivity.
Qed.

Lemma apply_instruments_spec_witness :
  NoDup (map fst [("CSSFR_X", 32)]) /\
  (forall y, In y [2013%Z] -> has_year (panel false 0 0 0) y = true) /\
  has_var (panel false 0 0 0) "ITPC0R_" = true /\
  has_var (panel false 0 0 0) "CSSFR_" = true /\
  has_var (panel false 0 0 0) "CSSHR_" = true /\
  exists s',
    instruments.apply_instruments (panel false 0 0 0) [("CSSFR_X", 32)] [2013%Z] = Ok s' /\
    cell s' "CSSFR_" 2013%Z = 32 / 100 /\ cell s' "CSSFR_X" 2013%Z = 32.
Proof.
  assert (NoDup (map fst [("CSSFR_X", 32)])) as Hnd.
  { constructor; [intros [] | constructor]. }
  assert (forall y, In y [2013%Z] -> has_year (panel false 0 0 0) y = true) as Hy.
  { intros y [<- | []]. reflexivity. }
  split; [exact Hnd|]. split; [exact Hy|].
  split; [reflexivity|]. split; [reflexivity|]. split; [reflexivity|].
  destruct (apply_instruments_spec [("CSSFR_X", 32)] [2013%Z] Hnd (panel false 0 0 0)
              Hy eq_refl eq_refl eq_refl) as (s' & E & _ & _ & _ & Hin & _).
  exists s'. split; [exact E|]. split.
  - rewrite (Hin "CSSFR_" 2013%Z (or_introl eq_refl)). reflexivity.
  - rewrite (Hin "CSSFR_X" 2013%Z (or_introl eq_refl)). reflexivity.
Defined.
(** ** impact.py: errors and keys *)

Lemma foldM_raise {A S} (body : S -> A -> result S) l :
  forall st e, foldM body l st = Raise e ->
  exists x st', In x l /\ body st' x = Raise e.
Proof.
  induction l as [|x l IH]; intros st e E; cbn [foldM] in E; [discriminate|].
  destruct (body st x) as [st1|e1] eqn:Eb; cbn [bind] in E.
  - destruct (IH _ _ E) as (y & st' & Hin & Ey). exists y, st'. split; [now right | exact Ey].
  - inversion E; subst. exists x, st. split; [now left | exact Eb].
Qed.

Lemma get_cases s var t :
  (exists x, get s var t = Ok x) \/ get s var t = Raise KeyError.
Proof. unfold get. destruct (has_var s var && has_year s t); eauto. Qed.

Lemma impact_value_raise baseline scenario var t e :
  impact_value baseline scenario var t = Raise e ->
  e = KeyError /\
  (get baseline var t = Raise KeyError \/ get scenario var t = Raise KeyError).
Proof.
  destruct (get_cases baseline var t) as [(b & Hb) | Hb];
    destruct (get_cases scenario var t) as [(sc & Hs) | Hs].
  - rewrite (impact_value_spec _ _ _ _ _ _ Hb Hs). discriminate.
  - unfold impact_value. rewrite Hb, Hs. cbn [bind]. intros E; inversion E; auto.
  - unfold impact_value. rewrite Hb. cbn [bind]. intros E; inversion E; auto.
  - unfold impact_value. rewrite Hb. cbn [bind]. intros E; inversion E; auto.
Qed.

Lemma compute_impacts_outcome (baseline scenario : SimulationState)
    (variables : list VarName) (sim_years : list Year) :
  (forall e, compute_impacts baseline scenario variables sim_years = Raise e ->
     e = KeyError) /\
  ((exists impacts, compute_impacts baseline scenario variables sim_years = Ok impacts)
   <->
   (forall var t, In var variables -> In t sim_years ->
      exists base scen,
        get baseline var t = Ok base /\ get scenario var t = Ok scen)) /\
  (forall impacts,
     compute_impacts baseline scenario variables sim_years = Ok impacts ->
     forall var,
       (~ In var variables -> dict_get impacts var = None) /\
       (In var variables ->
          exists row, dict_get impacts var = Some row /\
            forall t, dict_get row t = None <-> ~ In t sim_years)).
Proof.
  set (rowf := fun var : VarName =>
         foldM (fun row t =>
                  v <- impact_value baseline scenario var t ;; Ok (dict_set row t v))
               sim_years ([] : dict Year R)).
  assert (forall d0 d1,
            foldM (fun impacts var =>
                     let impacts := dict_set impacts var [] in
                     row <- rowf var ;; Ok (dict_set impacts var row))
                  variables d0 = Ok d1 ->
            forall var,
              (~ In var variables -> dict_get d1 var = dict_get d0 var) /\
              (In var variables ->
                 exists row, rowf var = Ok row /\ dict_get d1 var = Some row)) as Hfold.
  { induction variables as [|x vars IH]; intros d0 d1 E var; cbn [foldM] in E.
    - inversion E; subst. split; [reflexivity | intros []].
    - apply bind_ok_inv in E. destruct E as (d2 & E2 & E).
      apply bind_ok_inv in E2. destruct E2 as (rx & Erx & E2).
      inversion E2; subst d2; clear E2.
      destruct (IH _ _ E var) as [Hout Hin].
      split.
      + intros Hn. rewrite Hout by (intros Hc; apply Hn; now right).
        rewrite !dict_get_set_other; [reflexivity | |];
          intros ->; apply Hn; now left.
      + intros [<- | Hv]; [|now apply Hin].
        destruct (in_dec string_dec x vars) as [Hx | Hx]; [now apply Hin|].
        exists rx. split; [exact Erx|]. rewrite (Hout Hx). apply dict_get_set_same. }
  assert (forall var row, rowf var = Ok row ->
            forall t,
              (In t sim_years ->
                 exists base scen,
                   get baseline var t = Ok base /\ get scenario var t = Ok scen) /\
              (dict_get row t = None <-> ~ In t sim_years)) as Hrow.
  { intros var row Er t. destruct (dict_fill _ _ _ _ Er t) as [Hin Hout]. split.
    - intros Ht. destruct (Hin Ht) as (v & Ev & _).
      destruct (get_cases baseline var t) as [(b & Hb) | Hb];
        destruct (get_cases scenario var t) as [(sc & Hs) | Hs]; eauto;
        unfold impact_value in Ev; rewrite Hb in Ev; try rewrite Hs in Ev;
        discriminate.
    - split.
      + intros Hn Ht. destruct (Hin Ht) as (v & _ & Hv). congruence.
      + intros Hn. rewrite (Hout Hn). reflexivity. }
  split; [|split].
  - intros e E. unfold compute_impacts in E.
    apply foldM_raise in E. destruct E as (var & d & _ & E).
    cbn zeta in E.
    match type of E with
    | bind ?m _ = _ => destruct m as [row|e'] eqn:Er
    end; cbn [bind] in E; [discriminate|]. inversion E; subst e'; clear E.
    apply foldM_raise in Er. destruct Er as (t & r & _ & Er).
    destruct (impact_value baseline scenario var t) as [v|e'] eqn:Ei; cbn [bind] in Er;
      [discriminate|]. inversion Er; subst e'.
    now apply impact_value_raise in Ei.
  - split.
    + intros (impacts & E) var t Hv Ht.
      destruct (Hfold _ _ E var) as [_ Hin]. destruct (Hin Hv) as (row & Er & _).
      now apply (Hrow var row Er t).
    + intros Hcells. destruct (compute_impacts_spec _ _ _ _ Hcells) as (i & E & _). eauto.
  - intros impacts E var. destruct (Hfold _ _ E var) as [Hout Hin]. split.
    + intros Hn. exact (Hout Hn).
    + intros Hv. destruct (Hin Hv) as (row & Er & Hg). exists row.
      split; [exact Hg|]. intros t. now apply (Hrow var row Er t).
Qed.

(** [compute_impacts] raises nothing but [KeyError], and raises it exactly
    when a requested cell is missing from one of the two panels: the
    division is guarded, so no baseline value makes it fail.  When it
    returns, the dictionary has a row exactly for the requested variables
    and every row an entry exactly for the requested years. *)
Theorem compute_impacts_errors (baseline scenario : SimulationState)
    (variables : list VarName) (sim_years : list Year) :
  (forall e, compute_impacts baseline scenario variables sim_years = Raise e ->
     e = KeyError) /\
  ((exists impacts, compute_impacts baseline scenario variables sim_years = Ok impacts)
   <->
   (forall var t, In var variables -> In t sim_years ->
      exists base scen,
        get baseline var t = Ok base /\ get scenario var t = Ok scen)) /\
  (forall impacts,
     compute_impacts baseline scenario variables sim_years = Ok impacts ->
     forall var,
       (~ In var variables -> dict_get impacts var = None) /\
       (In var variables ->
          exists row, dict_get impacts var = Some row /\
            forall t, dict_get row t = None <-> ~ In t sim_years)).
Proof. exact (compute_impacts_outcome baseline scenario variables sim_years). Qed.

Lemma compute_impacts_errors_witness :
  (forall var t, In var ["ZKF_"] -> In t [2013%Z] ->
     exists base scen,
       get (panel false 0 0 0) var t = Ok base /\
       get (panel false 1 1 1) var t = Ok scen) /\
  exists impacts,
    compute_impacts (panel false 0 0 0) (panel false 1 1 1) ["ZKF_"] [2013%Z]
    = Ok impacts.
Proof.
  assert (forall var t, In var ["ZKF_"] -> In t [2013%Z] ->
            exists base scen,
              get (panel false 0 0 0) var t = Ok base /\
              get (panel false 1 1 1) var t = Ok scen) as H.
  { intros var t [<- | []] [<- | []]. do 2 eexists. split; reflexivity. }
  split; [exact H|].
  exact (proj2 (proj1 (proj2 (compute_impacts_errors (panel false 0 0 0)
                                (panel false 1 1 1) ["ZKF_"] [2013%Z]))) H).
Defined.

(** A panel compared with itself has impact 0 in every requested cell. *)
Theorem compute_impacts_self (s : SimulationState)
    (variables : list VarName) (sim_years : list Year) :
  (forall var t, In var variables -> In t sim_years ->
     has_var s var = true /\ has_year s t = true) ->
  exists impacts,
    compute_impacts s s variables sim_years = Ok impacts /\
    forall var t, In var variables -> In t sim_years ->
      exists row, dict_get impacts var = Some row /\ dict_get row t = Some 0.
Proof.
  intros Hcells.
  destruct (compute_impacts_spec s s variables sim_years) as (impacts & E & H).
  { intros var t Hv Ht. destruct (Hcells var t Hv Ht) as [Hc Hy].
    exists (cell s var t), (cell s var t). split; now apply get_ok. }
  exists impacts. split; [exact E|].
  intros var t Hv Ht. destruct (H var t Hv Ht) as (b & sc & row & Hb & Hs & Hr & Hval).
  exists row. split; [exact Hr|].
  rewrite Hb in Hs. inversion Hs; subst sc. now rewrite spec_impact_same in Hval.
Qed.

Lemma compute_impacts_self_witness :
  (forall var t, In var ["GDP_"; "UR_"] -> In t [2013%Z] ->
     has_var (panel false 0 0 0) var = true /\ has_year (panel false 0 0 0) t = true) /\
  exists impacts,
    compute_impacts (panel false 0 0 0) (panel false 0 0 0) ["GDP_"; "UR_"] [2013%Z]
    = Ok impacts /\
    forall var t, In var ["GDP_"; "UR_"] -> In t [2013%Z] ->
      exists row, dict_get impacts var = Some row /\ dict_get row t = Some 0.
Proof.
  assert (forall var t, In var ["GDP_"; "UR_"] -> In t [2013%Z] ->
            has_var (panel false 0 0 0) var = true /\
            has_year (panel false 0 0 0) t = true) as H.
  { intros var t [<- | [<- | []]] [<- | []]; split; reflexivity. }
  split; [exact H|].
  exact (compute_impacts_self (panel false 0 0 0) ["GDP_"; "UR_"] [2013%Z] H).
Defined.
(** ** engine.py: [_ensure_variables] *)

Lemma fills_refl vars a : fills vars a a.
Proof. repeat split; auto. Qed.

Lemma fills_trans vars a b c : fills vars a b -> fills vars b c -> fills vars a c.
Proof.
  intros (Y1 & V1 & C1) (Y2 & V2 & C2). split; [congruence|]. split; [auto|].
  intros v y Hv Hor. rewrite C2, C1; auto.
  destruct Hor as [Hne | Hn]; [left | now right]. rewrite C1; auto.
Qed.

Lemma ensure_years_fills vars var fn yrs :
  In var vars ->
  forall st r st', ensure_years var fn yrs st = (r, st') -> fills vars st st'.
Proof.
  intros Hin. induction yrs as [|yr yrs IH]; intros st r st' E; cbn [ensure_years] in E.
  - inversion E; subst. apply fills_refl.
  - destruct (get st var yr) as [v|e] eqn:Eg; [|inversion E; subst; apply fills_refl].
    destruct (Reqb_spec v 0) as [-> | Hne]; [|now apply IH with r].
    destruct (fn st yr) as [x|e]; [|inversion E; subst; apply fills_refl].
    destruct (set st var yr x) as [st1|e] eqn:Es; [|inversion E; subst; apply fills_refl].
    apply set_inv in Es. destruct Es as (_ & _ & ->).
    apply get_inv in Eg. destruct Eg as (_ & _ & Ec).
    eapply fills_trans; [|eapply IH; exact E].
    split; [reflexivity|]. split; [intros v; now rewrite has_var_write|].
    intros v y _ Hor. apply cell_write_other.
    destruct (String.eqb_spec v var) as [-> | ?]; [|now left].
    destruct (Z.eqb_spec y yr) as [-> | ?]; [|now right].
    exfalso. destruct Hor as [Hne | Hn]; [congruence | contradiction].
Qed.

Lemma add_missing_fills vars st var :
  fills vars st (if negb (has_var st var) then add_var st var 0 else st).
Proof.
  destruct (has_var st var) eqn:Hv; cbn [negb]; [apply fills_refl|].
  split; [apply add_var_facts|]. split.
  - intros v Hv'. rewrite has_var_add_var, Hv'. reflexivity.
  - intros v y Hv' _. apply add_var_facts. congruence.
Qed.

Lemma ensure_fills vars yrs var fn st r st' :
  In var vars -> ensure yrs var fn st = (r, st') -> fills vars st st'.
Proof.
  intros Hin E. unfold ensure in E.
  eapply fills_trans; [apply add_missing_fills|].
  eapply ensure_years_fills; eassumption.
Qed.

Lemma ensure_has_var yrs var fn st r st' :
  ensure yrs var fn st = (r, st') -> has_var st' var = true.
Proof.
  intros E. unfold ensure in E.
  apply (ensure_years_fills [var]) in E; [|now left].
  apply E. destruct (has_var st var) eqn:Hv; cbn [negb]; [exact Hv | apply add_var_facts].
Qed.

Lemma ensure_years_error var fn yrs :
  (forall st yr e, fn st yr = Raise e -> e = KeyError) ->
  forall st e st', ensure_years var fn yrs st = (Some e, st') -> e = KeyError.
Proof.
  intros Hfn. induction yrs as [|yr yrs IH]; intros st e st' E; cbn [ensure_years] in E.
  - discriminate.
  - destruct (get_cases st var yr) as [(v & Eg) | Eg]; rewrite Eg in E;
      [|inversion E; reflexivity].
    destruct (v =? 0); [|eapply IH; exact E].
    destruct (fn st yr) as [x|e1] eqn:Ef;
      [|inversion E; subst; eapply Hfn; exact Ef].
    apply get_inv in Eg. destruct Eg as (Hv & Hy & _).
    rewrite (set_ok _ _ _ _ Hv Hy) in E. eapply IH; exact E.
Qed.

Lemma ensure_years_returns var fn yrs st0 :
  (forall st yr,
     years st = years st0 ->
     (forall v, has_var st0 v = true -> has_var st v = true) ->
     In yr yrs -> exists x, fn st yr = Ok x) ->
  forall st,
    years st = years st0 ->
    (forall v, has_var st0 v = true -> has_var st v = true) ->
    has_var st var = true ->
    (forall yr, In yr yrs -> has_year st yr = true) ->
    exists st', ensure_years var fn yrs st = (None, st').
Proof.
  induction yrs as [|yr yrs IH]; intros Hfn st Hy Hv Hvar Hyrs; cbn [ensure_years].
  - eauto.
  - rewrite (get_ok _ _ _ Hvar (Hyrs yr (or_introl eq_refl))).
    assert (forall st yr,
              years st = years st0 ->
              (forall v, has_var st0 v = true -> has_var st v = true) ->
              In yr yrs -> exists x, fn st yr = Ok x) as Hfn'.
    { intros st1 yr1 H1 H2 H3. apply Hfn; auto. now right. }
    destruct (cell st var yr =? 0).
    + destruct (Hfn st yr Hy Hv (or_introl eq_refl)) as (x & ->).
      rewrite (set_ok _ _ _ _ Hvar (Hyrs yr (or_introl eq_refl))).
      apply IH;
        [ exact Hfn' | exact Hy | intros v Hv0; rewrite has_var_write; auto
        | now rewrite has_var_write
        | intros yr1 H1; rewrite has_year_write; apply Hyrs; now right ].
    + apply IH; auto. intros yr1 H1. apply Hyrs. now right.
Qed.

Lemma ensure_returns var fn yrs st :
  (forall st1 yr,
     years st1 = years st ->
     (forall v, has_var st v = true -> has_var st1 v = true) ->
     In yr yrs -> exists x, fn st1 yr = Ok x) ->
  (forall yr, In yr yrs -> has_year st yr = true) ->
  exists st', ensure yrs var fn st = (None, st').
Proof.
  intros Hfn Hyrs. unfold ensure.
  destruct (add_missing_fills [] st var) as (Hy & Hv & _).
  apply (ensure_years_returns var fn yrs st);
    [ exact Hfn | exact Hy | exact Hv
    | destruct (has_var st var) eqn:E; cbn [negb]; [exact E | apply add_var_facts]
    | intros yr Hyr; unfold has_year; rewrite Hy; now apply Hyrs ].
Qed.

Lemma add_all_missing l :
  forall st,
    fills [] st (fold_left (fun state var =>
                              if negb (has_var state var) then add_var state var 0
                              else state) l st) /\
    forall v, In v l ->
      has_var (fold_left (fun state var =>
                            if negb (has_var state var) then add_var state var 0
                            else state) l st) v = true.
Proof.
  induction l as [|x l IH]; intros st; cbn [fold_left].
  - split; [apply fills_refl | intros v []].
  - destruct (IH (if negb (has_var st x) then add_var st x 0 else st)) as [Hf Hall].
    split; [eapply fills_trans; [apply add_missing_fills | exact Hf]|].
    intros v [<- | Hin]; [|now apply Hall].
    apply Hf. destruct (has_var st x) eqn:E; cbn [negb]; [exact E | apply add_var_facts].
Qed.

Lemma fills_incl vars vars' a b :
  incl vars vars' -> fills vars a b -> fills vars' a b.
Proof.
  intros Hi (Y & V & C). split; [exact Y|]. split; [exact V|].
  intros v y Hv [Hne | Hn]; apply C; auto.
Qed.

(** What the default formulas can raise. *)
Lemma bind_get_raise {A} s var t (k : R -> result A) e :
  (forall x, k x = Raise e -> e = KeyError) ->
  bind (get s var t) k = Raise e -> e = KeyError.
Proof.
  intros Hk. destruct (get_cases s var t) as [(x & ->) | ->]; cbn [bind].
  - apply Hk.
  - intros E; inversion E; reflexivity.
Qed.

Ltac key_errors :=
  repeat first
    [ apply bind_get_raise; intros ?
    | match goal with
      | |- Ok _ = Raise _ -> _ => discriminate
      | |- get _ _ _ = Raise _ -> _ =>
          let E := fresh in
          intros E;
          match type of E with
          | get ?s ?v ?t = _ =>
              destruct (get_cases s v t) as [(? & Hx) | Hx]; rewrite Hx in E;
              [discriminate | inversion E; reflexivity]
          end
      | |- (if ?b then _ else _) = Raise _ -> _ => destruct b eqn:?
      | |- fdiv _ ?d = Raise _ -> _ =>
          unfold fdiv; destruct (Reqb_spec d 0); [boolR; exfalso; lra | discriminate]
      end ].

Lemma profit_fn_error st yr e : profit_fn st yr = Raise e -> e = KeyError.
Proof. unfold profit_fn. key_errors. Qed.

Lemma ulc_fn_error st yr e : ulc_fn st yr = Raise e -> e = KeyError.
Proof. unfold ulc_fn. key_errors. Qed.

Lemma cost_fn_error st yr e : cost_fn st yr = Raise e -> e = KeyError.
Proof.
  unfold cost_fn. apply bind_get_raise; intros ulc.
  destruct (has_var st "PM_"); [|discriminate].
  apply bind_get_raise; intros pm. discriminate.
Qed.

Lemma ensure_error yrs var fn st e st' :
  (forall st1 yr e1, fn st1 yr = Raise e1 -> e1 = KeyError) ->
  ensure yrs var fn st = (Some e, st') -> e = KeyError.
Proof. intros Hfn E. unfold ensure in E. eapply ensure_years_error; eassumption. Qed.

Ltac ensured_var := vm_compute; tauto.

Lemma and_then_inv m k r s' :
  and_then m k = (r, s') ->
  (exists e, m = (Some e, s') /\ r = Some e) \/
  (exists s1, m = (None, s1) /\ k s1 = (r, s')).
Proof.
  destruct m as [[e|] s1]; cbn [and_then]; intros E.
  - left. exists e. inversion E; subst. auto.
  - right. exists s1. auto.
Qed.

Lemma and_then_ok m k s1 : m = (None, s1) -> and_then m k = k s1.
Proof. intros ->. reflexivity. Qed.

Lemma mutation_none_inj (a b : SimulationState) :
  (@None exn, a) = (None, b) -> a = b.
Proof. intros E. now inversion E. Qed.

(** One call of [ensure] in [_ensure_variables] that did not raise: the
    chain goes on from a panel that [fills] the previous one. *)
Ltac ensure_ok E F :=
  apply and_then_inv in E;
  destruct E as [(? & _ & ?) | (?s & ?E & E)]; [discriminate|];
  cbn beta in E;
  match goal with
  | E1 : ensure ?y ?v ?f ?st = (None, ?s1) |- _ =>
      let F1 := fresh "F" in
      pose proof (fills_trans ensured _ _ _ F
                    (ensure_fills ensured y v f st None s1 ltac:(ensured_var) E1))
        as F1;
      clear F E1; rename F1 into F
  end.

(** One call of [ensure] when the chain raised [e]: the call raised it
    (first goal, left to the caller), or the chain goes on. *)
Ltac ensure_err E :=
  apply and_then_inv in E;
  let e0 := fresh "e" in
  let E1 := fresh "E" in
  let He := fresh "He" in
  let s1 := fresh "s" in
  destruct E as [(e0 & E1 & He) | (s1 & _ & E)];
  [ injection He as ->; eapply ensure_error; [|exact E1] | cbn beta in E ].

Ltac fn_returns Hy Hin :=
  repeat first
    [ rewrite get_ok by (first [apply Hin; ensured_var | exact Hy | assumption]);
      cbn [bind]
    | match goal with
      | |- exists x, Ok _ = Ok x => eexists; reflexivity
      | |- exists x, (if ?b then _ else _) = Ok x => destruct b eqn:?
      | |- exists x, bind (if ?b then _ else _) _ = Ok x => destruct b eqn:?
      | |- exists x, fdiv _ ?d = Ok x =>
          unfold fdiv; destruct (Reqb_spec d 0); [boolR; exfalso; lra | eexists; reflexivity]
      end ].

(** The next call of [ensure] returns, given that its formula does. *)
Ltac ensure_goes F Fnew :=
  match goal with
  | |- exists s', and_then (ensure ?y ?v ?f ?st) ?k = _ =>
      let s1 := fresh "s" in
      let E1 := fresh "E" in
      assert (exists s1, ensure y v f st = (None, s1)) as (s1 & E1);
      [ apply ensure_returns
      | rewrite (and_then_ok _ k s1 E1); cbn beta;
        pose proof (fills_trans ensured _ _ _ F
                      (ensure_fills ensured y v f st None s1 ltac:(ensured_var) E1))
          as Fnew ]
  end.

Lemma ensure_variables_facts (s : SimulationState) :
  (forall e s', _ensure_variables s = (Some e, s') -> e = KeyError) /\
  ((forall v, In v ensure_inputs -> has_var s v = true) ->
   exists s', _ensure_variables s = (None, s')) /\
  (forall s', _ensure_variables s = (None, s') ->
     cols_ok s' /\ fills ensured s s').
Proof.
  split; [|split].
  - intros e s' E. unfold _ensure_variables in E.
    ensure_err E. { intros st1 yr e1. cbn beta. key_errors. }
    ensure_err E. { intros st1 yr e1. cbn beta. key_errors. }
    ensure_err E. { intros st1 yr e1. cbn beta. key_errors. }
    ensure_err E. { intros st1 yr e1. cbn beta. key_errors. }
    ensure_err E. { exact profit_fn_error. }
    ensure_err E. { exact ulc_fn_error. }
    ensure_err E. { exact cost_fn_error. }
    discriminate.
  - intros Hin. unfold _ensure_variables.
    assert (forall st, fills ensured s st ->
              forall st1 yr, years st1 = years st ->
                (forall v, has_var st v = true -> has_var st1 v = true) ->
                In yr (years s) ->
                has_year st1 yr = true /\
                forall v, In v ensure_inputs -> has_var st1 v = true) as Hkeep.
    { intros st (Y & V & _) st1 yr Y1 V1 Hyr. split.
      - apply has_year_In. rewrite Y1, Y. exact Hyr.
      - intros v Hv. apply V1, V, Hin, Hv. }
    assert (forall st, fills ensured s st ->
              forall yr, In yr (years s) -> has_year st yr = true) as Hyears.
    { intros st (Y & _) yr Hyr. apply has_year_In. now rewrite Y. }
    pose proof (fills_refl ensured s) as F0.
    ensure_goes F0 F1; [| now apply Hyears |].
    { intros st1 yr Y1 V1 Hyr. destruct (Hkeep _ F0 st1 yr Y1 V1 Hyr) as [Hy Hi].
      fn_returns Hy Hi. }
    ensure_goes F1 F2; [| now apply Hyears |].
    { intros st1 yr Y1 V1 Hyr. destruct (Hkeep _ F1 st1 yr Y1 V1 Hyr) as [Hy Hi].
      fn_returns Hy Hi. }
    ensure_goes F2 F3; [| now apply Hyears |].
    { intros st1 yr Y1 V1 Hyr. eexists; reflexivity. }
    ensure_goes F3 F4; [| now apply Hyears |].
    { intros st1 yr Y1 V1 Hyr. destruct (Hkeep _ F3 st1 yr Y1 V1 Hyr) as [Hy Hi].
      cbn beta. destruct (has_var st1 "RNOM_") eqn:Hr; [|eexists; reflexivity].
      rewrite get_ok by assumption. eexists; reflexivity. }
    ensure_goes F4 F5; [| now apply Hyears |].
    { intros st1 yr Y1 V1 Hyr. destruct (Hkeep _ F4 st1 yr Y1 V1 Hyr) as [Hy Hi].
      unfold profit_fn. fn_returns Hy Hi. }
    ensure_goes F5 F6; [| now apply Hyears |].
    { intros st1 yr Y1 V1 Hyr. destruct (Hkeep _ F5 st1 yr Y1 V1 Hyr) as [Hy Hi].
      unfold ulc_fn. fn_returns Hy Hi. }
    match goal with
    | E : ensure _ "ULC_" _ _ = _ |- _ => pose proof (ensure_has_var _ _ _ _ _ _ E) as Hulc
    end.
    ensure_goes F6 F7; [| now apply Hyears |].
    { intros st1 yr Y1 V1 Hyr. destruct (Hkeep _ F6 st1 yr Y1 V1 Hyr) as [Hy Hi].
      unfold cost_fn. rewrite (get_ok st1 "ULC_" yr (V1 _ Hulc) Hy). cbn [bind].
      destruct (has_var st1 "PM_") eqn:Hpm; cbn [bind]; [|eexists; reflexivity].
      rewrite get_ok by assumption. eexists; reflexivity. }
    eexists; reflexivity.
  - intros s' E. unfold _ensure_variables in E.
    pose proof (fills_refl ensured s) as F.
    do 7 ensure_ok E F.
    apply mutation_none_inj in E. subst s'.
    match goal with
    | |- cols_ok (fold_left ?f ?l ?st) /\ _ =>
        destruct (add_all_missing l st) as [Ffin Hall]
    end.
    split.
    + unfold cols_ok. apply forallb_forall. exact Hall.
    + eapply fills_trans; [exact F|].
      eapply fills_incl; [|exact Ffin]. intros x [].
Qed.

(** [_ensure_variables]: it can raise nothing but [KeyError], and does not
    raise when the loaded panel has the columns the defaults are computed
    from.  When it returns, the index is unchanged, every registry variable
    has its column, no column was lost, and no loaded value was overwritten:
    a cell of a loaded column changed only if it held 0 and belongs to one of
    the seven variables that get defaults. *)
Theorem ensure_variables_spec (s : SimulationState) :
  (forall e s', _ensure_variables s = (Some e, s') -> e = KeyError) /\
  ((forall v, In v ensure_inputs -> has_var s v = true) ->
   exists s', _ensure_variables s = (None, s')) /\
  (forall s', _ensure_variables s = (None, s') ->
     cols_ok s' /\ fills ensured s s').
Proof. exact (ensure_variables_facts s). Qed.

Lemma ensure_variables_spec_witness :
  (forall v, In v ensure_inputs -> has_var (panel false 0 0 0) v = true) /\
  exists s', _ensure_variables (panel false 0 0 0) = (None, s').
Proof.
  assert (forall v, In v ensure_inputs -> has_var (panel false 0 0 0) v = true) as H.
  { intros v Hv. cbv [ensure_inputs] in Hv. cbn [In] in Hv.
    repeat (destruct Hv as [<- | Hv]; [reflexivity|]). destruct Hv. }
  split; [exact H|].
  exact (proj1 (proj2 (ensure_variables_spec (panel false 0 0 0))) H).
Defined.

(** ** engine.py: loading the baseline *)

Lemma and_then_raised m k e s1 : m = (Some e, s1) -> and_then m k = (Some e, s1).
Proof. intros ->. reflexivity. Qed.

(** On a file without [GDP_] the first default already fails, after the
    column [Y_] has been added. *)
Lemma ensure_bare :
  _ensure_variables bare_panel = (Some KeyError, add_var bare_panel "Y_" 0).
Proof.
  unfold _ensure_variables. apply and_then_raised.
  unfold ensure. cbn [years bare_panel].
  change (has_var bare_panel "Y_") with false. cbn [negb ensure_years].
  rewrite get_ok by reflexivity.
  change (cell (add_var bare_panel "Y_" 0) "Y_" 2012%Z) with 0.
  rewrite (proj2 (Reqb_true 0 0)) by reflexivity.
  reflexivity.
Qed.

(** [load_baseline] stores the loaded panel as the engine's baseline before
    it prepares it.  When it succeeds the baseline has a column for every
    registry variable and the loaded values are intact; when the loader
    fails nothing changes; and when the preparation fails, the engine is
    left with the half-prepared panel as its baseline, which [baseline]
    then returns without loading again. *)
Theorem load_baseline_spec (w : World) :
  (forall e, loader_state w = Raise e -> load_baseline w = (Raise e, w)) /\
  (forall st, loader_state w = Ok st ->
     exists r st',
       _ensure_variables st = (r, st') /\
       load_baseline w =
         (match r with Some e => Raise e | None => Ok tt end,
          {| heap := heap w ++ [st']; loader_state := loader_state w;
             engine_baseline := Some (List.length (heap w)) |}) /\
       (r = None -> cols_ok st' /\ fills ensured st st') /\
       (forall e, r = Some e -> e = KeyError) /\
       forall w',
         w' = {| heap := heap w ++ [st']; loader_state := loader_state w;
                 engine_baseline := Some (List.length (heap w)) |} ->
         baseline w' = (Ok (List.length (heap w)), w') /\
         deref w' (List.length (heap w)) = st').
Proof.
  split.
  - intros e He. unfold load_baseline. now rewrite He.
  - intros st Hst. destruct (_ensure_variables st) as [r st'] eqn:E.
    exists r, st'. split; [reflexivity|]. split.
    { unfold load_baseline. rewrite Hst, E. destruct r; reflexivity. }
    split.
    { intros ->. now apply ensure_variables_facts. }
    split.
    { intros e ->. now apply (proj1 (ensure_variables_facts st) e st'). }
    intros w' ->. split; [reflexivity|].
    unfold deref. cbn [heap].
    replace (List.length (heap w)) with (List.length (heap w) + 0)%nat at 1 by lia.
    now rewrite nth_app_r.
Qed.

Lemma load_baseline_spec_witness :
  loader_state (fresh_engine bare_panel) = Ok bare_panel /\
  exists r st',
    _ensure_variables bare_panel = (r, st') /\
    load_baseline (fresh_engine bare_panel) =
      (match r with Some e => Raise e | None => Ok tt end,
       {| heap := heap (fresh_engine bare_panel) ++ [st'];
          loader_state := loader_state (fresh_engine bare_panel);
          engine_baseline := Some (List.length (heap (fresh_engine bare_panel))) |}).
Proof.
  assert (loader_state (fresh_engine bare_panel) = Ok bare_panel) as H by reflexivity.
  split; [exact H|].
  destruct (proj2 (load_baseline_spec (fresh_engine bare_panel)) bare_panel H)
    as (r & st' & E & El & _).
  exists r, st'. split; [exact E | exact El].
Defined.

(** A load that fails while preparing the panel: the [KeyError] is raised,
    yet the engine keeps the unprepared panel, so that a later access to
    [baseline] succeeds and a later [simulate] runs on a panel without the
    registry's columns. *)
Remark failed_load_keeps_baseline :
  exists w',
    load_baseline (fresh_engine bare_panel) = (Raise KeyError, w') /\
    baseline w' = (Ok 0%nat, w') /\
    deref w' 0%nat = add_var bare_panel "Y_" 0 /\
    has_var (deref w' 0%nat) "GDP_" = false.
Proof.
  eexists. split.
  - unfold load_baseline. cbn [loader_state fresh_engine heap List.length app].
    rewrite ensure_bare. reflexivity.
  - split; [reflexivity|]. split; reflexivity.
Qed.

(** ** engine.py: the indicators *)

Lemma mapM_ok {A B} (f : A -> result B) l :
  forall ys, mapM f l = Ok ys -> Forall2 (fun x y => f x = Ok y) l ys.
Proof.
  induction l as [|x l IH]; intros ys E; cbn [mapM] in E.
  - inversion E. constructor.
  - apply bind_ok_inv in E. destruct E as (y & Ey & E).
    apply bind_ok_inv in E. destruct E as (ys' & Eys & E).
    inversion E; subst. constructor; auto.
Qed.

Lemma mapM_raise {A B} (f : A -> result B) l e :
  mapM f l = Raise e -> exists x, In x l /\ f x = Raise e.
Proof.
  induction l as [|x l IH]; cbn [mapM]; [discriminate|].
  destruct (f x) as [y|e1] eqn:Ex; cbn [bind].
  - destruct (mapM f l) as [ys|e2]; cbn [bind]; [discriminate|].
    intros E. inversion E; subst.
    destruct (IH eq_refl) as (z & Hz & Ez). exists z. split; [now right | exact Ez].
  - intros E. inversion E; subst. exists x. split; [now left | exact Ex].
Qed.

Lemma Forall2_map_eq {A B} (g : A -> B) l ys :
  Forall2 (fun x y => g x = y) l ys -> ys = map g l.
Proof. induction 1; cbn; congruence. Qed.

Lemma Forall2_In_l {A B} (P : A -> B -> Prop) l ys :
  Forall2 P l ys -> forall x, In x l -> exists y, P x y.
Proof.
  induction 1 as [|x y l ys Hxy _ IH]; intros z []; [subst; eauto | auto].
Qed.

Lemma grt_error s var t e : grt s var t = Raise e -> e = KeyError.
Proof.
  unfold grt, lag. apply bind_get_raise. intros prev.
  destruct (Reqb_spec prev 0) as [-> | Hne]; [discriminate|].
  apply bind_get_raise. intros cur. unfold fdiv.
  destruct (Reqb_spec prev 0); [contradiction | discriminate].
Qed.

(** [_extract_indicators] raises nothing but [KeyError].  When it returns,
    the four series have one entry per requested year, in order: the
    growth rates [grt] of [GDP_] and [PC_], and the cells of [DR_] and [UR_]
    times 100. *)
Theorem extract_indicators_spec (s : SimulationState) (yrs : list Year) :
  (forall e, _extract_indicators s yrs = Raise e -> e = KeyError) /\
  (forall ki, _extract_indicators s yrs = Ok ki ->
     ki_years ki = yrs /\
     Forall2 (fun t g => grt s "GDP_" t = Ok g) yrs (gdp_growth ki) /\
     Forall2 (fun t g => grt s "PC_" t = Ok g) yrs (inflation ki) /\
     deficit_ratio ki = map (fun t => cell s "DR_" t * 100) yrs /\
     unemployment ki = map (fun t => cell s "UR_" t * 100) yrs /\
     (forall t, In t yrs ->
        has_year s t = true /\ has_year s (t - 1)%Z = true /\
        forall v, In v variables.KEY_INDICATORS -> has_var s v = true)).
Proof.
  unfold _extract_indicators. split.
  - intros e E.
    destruct (mapM (fun t => grt s "GDP_" t) yrs) as [g|e1] eqn:E1; cbn [bind] in E.
    2:{ inversion E; subst. apply mapM_raise in E1. destruct E1 as (t & _ & Et).
        now apply grt_error in Et. }
    destruct (mapM (fun t => grt s "PC_" t) yrs) as [i|e1] eqn:E2; cbn [bind] in E.
    2:{ inversion E; subst. apply mapM_raise in E2. destruct E2 as (t & _ & Et).
        now apply grt_error in Et. }
    destruct (mapM (fun t => x <- get s "DR_" t ;; Ok (x * 100)) yrs)
      as [dr|e1] eqn:E3; cbn [bind] in E.
    2:{ inversion E; subst. apply mapM_raise in E3. destruct E3 as (t & _ & Et).
        revert Et. apply bind_get_raise. discriminate. }
    destruct (mapM (fun t => x <- get s "UR_" t ;; Ok (x * 100)) yrs)
      as [ur|e1] eqn:E4; cbn [bind] in E.
    2:{ inversion E; subst. apply mapM_raise in E4. destruct E4 as (t & _ & Et).
        revert Et. apply bind_get_raise. discriminate. }
    discriminate.
  - intros ki E.
    apply bind_ok_inv in E. destruct E as (g & E1 & E).
    apply bind_ok_inv in E. destruct E as (i & E2 & E).
    apply bind_ok_inv in E. destruct E as (dr & E3 & E).
    apply bind_ok_inv in E. destruct E as (ur & E4 & E).
    inversion E; subst ki; clear E.
    cbn [ki_years gdp_growth inflation deficit_ratio unemployment].
    apply mapM_ok in E1, E2, E3, E4.
    assert (forall var l,
              Forall2 (fun t y => (x <- get s var t ;; Ok (x * 100)) = Ok y) yrs l ->
              l = map (fun t => cell s var t * 100) yrs /\
              forall t, In t yrs -> has_var s var = true /\ has_year s t = true) as Hcol.
    { intros var l H. split.
      - apply Forall2_map_eq. eapply Forall2_impl; [|exact H].
        intros t y Ey. cbn beta in Ey. apply bind_ok_inv in Ey.
        destruct Ey as (x & Ex & Ey). apply get_inv in Ex.
        destruct Ex as (_ & _ & <-). now inversion Ey.
      - intros t Ht. destruct (Forall2_In_l _ _ _ H t Ht) as (y & Ey).
        cbn beta in Ey. apply bind_ok_inv in Ey. destruct Ey as (x & Ex & _).
        apply get_inv in Ex. tauto. }
    assert (forall var l,
              Forall2 (fun t g => grt s var t = Ok g) yrs l ->
              forall t, In t yrs -> has_var s var = true /\ has_year s (t - 1)%Z = true)
      as Hgrt.
    { intros var l H t Ht. destruct (Forall2_In_l _ _ _ H t Ht) as (y & Ey).
      cbn beta in Ey. unfold grt, lag in Ey. apply bind_ok_inv in Ey.
      destruct Ey as (x & Ex & _). apply get_inv in Ex. tauto. }
    destruct (Hcol _ _ E3) as [-> Hdr]. destruct (Hcol _ _ E4) as [-> Hur].
    split; [reflexivity|]. split; [exact E1|]. split; [exact E2|].
    split; [reflexivity|]. split; [reflexivity|].
    intros t Ht. split; [apply (Hdr t Ht)|]. split; [apply (Hgrt _ _ E1 t Ht)|].
    intros v Hv. cbv [variables.KEY_INDICATORS] in Hv. cbn [In] in Hv.
    destruct Hv as [<- | [<- | [<- | [<- | []]]]].
    + apply (Hgrt _ _ E1 t Ht).
    + apply (Hgrt _ _ E2 t Ht).
    + apply (Hdr t Ht).
    + apply (Hur t Ht).
Qed.

Lemma extract_indicators_spec_witness :
  _extract_indicators (panel false 0 2 0.5) [2013%Z]
    = Ok {| ki_years := [2013%Z]; gdp_growth := [0]; inflation := [0];
            deficit_ratio := [0 * 100]; unemployment := [0.5 * 100] |} /\
  deficit_ratio {| ki_years := [2013%Z]; gdp_growth := [0]; inflation := [0];
                   deficit_ratio := [0 * 100]; unemployment := [0.5 * 100] |}
    = map (fun t => cell (panel false 0 2 0.5) "DR_" t * 100) [2013%Z].
Proof.
  assert (_extract_indicators (panel false 0 2 0.5) [2013%Z]
          = Ok {| ki_years := [2013%Z]; gdp_growth := [0]; inflation := [0];
                  deficit_ratio := [0 * 100]; unemployment := [0.5 * 100] |}) as E.
  { unfold _extract_indicators. evaluate. reflexivity. }
  split; [exact E|].
  exact (proj1 (proj2 (proj2 (proj2
           (proj2 (extract_indicators_spec (panel false 0 2 0.5) [2013%Z]) _ E))))).
Defined.

(** ** engine.py: the output of [simulate] *)

Lemma solve_reports_status (self : GaussSeidelSolver) yrs :
  forall s rs s' rs',
  foldM (fun acc t =>
           let '(state, results) := acc in
           '(state', conv) <- solve_year self state t ;;
           Ok (state', results ++ [conv])) yrs (s, rs) = Ok (s', rs') ->
  Forall (fun c => status c = CONVERGED \/ status c = MAX_ITERATIONS) rs ->
  Forall (fun c => status c = CONVERGED \/ status c = MAX_ITERATIONS) rs'.
Proof.
  induction yrs as [|t yrs IH]; intros s rs s' rs' E Hrs; cbn [foldM] in E.
  - inversion E; subst. exact Hrs.
  - apply bind_ok_inv in E. destruct E as ([s1 rs1] & E1 & E).
    apply bind_ok_inv in E1. destruct E1 as ([s2 c] & E2 & E1).
    inversion E1; subst; clear E1.
    apply (IH _ _ _ _ E). apply Forall_app. split; [exact Hrs|].
    constructor; [|constructor].
    unfold solve_year in E2.
    apply bind_ok_inv in E2. destruct E2 as (p1 & _ & E2).
    apply bind_ok_inv in E2. destruct E2 as ([p2 [[it m] st]] & Ei & E2).
    apply bind_ok_inv in E2. destruct E2 as (p3 & _ & E2).
    inversion E2; subst. cbn [status].
    eapply inter_phase_status. exact Ei.
Qed.

Lemma apply_instruments_years s ins yrs s' :
  instruments.apply_instruments s ins yrs = Ok s' -> years s' = years s.
Proof.
  unfold instruments.apply_instruments.
  apply (foldM_rel (instruments.apply_year ins) (fun a b => years b = years a)).
  - reflexivity.
  - intros a b c H1 H2. congruence.
  - intros st y st' _ E. unfold instruments.apply_year in E.
    apply bind_ok_inv in E. destruct E as (s1 & E1 & E).
    apply bind_ok_inv in E. destruct E as (s2 & E2 & E).
    apply bind_ok_inv in E. destruct E as (s3 & E3 & E).
    assert (years s1 = years st) as H1.
    { revert E1.
      apply (foldM_rel _ (fun a b : SimulationState => years b = years a)).
      - reflexivity.
      - intros a b c Ha Hb. congruence.
      - intros a [k x] b _ Es. apply set_inv in Es. destruct Es as (_ & _ & ->).
        cbn [years write]. destruct (has_var a k); cbn [negb]; [reflexivity|].
        apply add_var_facts. }
    assert (forall (o : option R) (a b : SimulationState) v (f : R -> R),
              match o with Some x => set a v y (f x) | None => Ok a end = Ok b ->
              years b = years a) as Hset.
    { intros [x|] a b v f Es; [|now inversion Es].
      apply set_inv in Es. destruct Es as (_ & _ & ->). reflexivity. }
    apply (Hset _ _ _ _ (fun x => x)) in E2.
    apply (Hset _ _ _ _ (fun x => x / 100)) in E3.
    apply (Hset _ _ _ _ (fun x => x / 100)) in E.
    congruence.
Qed.

Lemma mapM_length {A B} (f : A -> result B) l ys :
  mapM f l = Ok ys -> List.length ys = List.length l.
Proof. intros E. apply mapM_ok in E. symmetry. eapply Forall2_length. exact E. Qed.

Lemma extract_indicators_lengths s yrs ki :
  _extract_indicators s yrs = Ok ki ->
  ki_years ki = yrs /\
  List.length (gdp_growth ki) = List.length yrs /\
  List.length (inflation ki) = List.length yrs /\
  List.length (deficit_ratio ki) = List.length yrs /\
  List.length (unemployment ki) = List.length yrs.
Proof.
  unfold _extract_indicators. intros E.
  apply bind_ok_inv in E. destruct E as (g & E1 & E).
  apply bind_ok_inv in E. destruct E as (i & E2 & E).
  apply bind_ok_inv in E. destruct E as (dr & E3 & E).
  apply bind_ok_inv in E. destruct E as (ur & E4 & E).
  inversion E; subst ki; clear E.
  cbn [ki_years gdp_growth inflation deficit_ratio unemployment].
  apply mapM_length in E1, E2, E3, E4. auto.
Qed.

Section Output.

Variable float_str : R -> string.
Variable round : R -> Z -> R.

(** What a successful [simulate] on a loaded engine returns: the scenario
    name; the simulation years of the baseline (all its years but the
    first); indicator series with one entry per simulation year; one
    convergence entry per simulation year, in order, whose status is
    ["CONVERGED"] or ["MAX_ITERATIONS"]; an impact row for each of the
    registry's variables and for nothing else, with an entry for each
    simulation year and for nothing else; level rows only for the listed
    level variables, each covering all years of the baseline; and the
    merged instruments. *)
Theorem simulate_output_shape (w : World) (b : loc)
    (values : option (dict string R)) (name : string) out w' :
  loaded w b ->
  simulate float_str round w values name = (Ok out, w') ->
  out_name out = name /\
  out_years out = sim_years (deref w b) /\
  (ki_years (baseline_indicators out) = out_years out /\
   ki_years (scenario_indicators out) = out_years out) /\
  (forall series,
     In series [gdp_growth (baseline_indicators out);
                inflation (baseline_indicators out);
                deficit_ratio (baseline_indicators out);
                unemployment (baseline_indicators out);
                gdp_growth (scenario_indicators out);
                inflation (scenario_indicators out);
                deficit_ratio (scenario_indicators out);
                unemployment (scenario_indicators out)] ->
     List.length series = List.length (out_years out)) /\
  map row_year (convergence out) = out_years out /\
  (forall row, In row (convergence out) ->
     row_status row = "CONVERGED" \/ row_status row = "MAX_ITERATIONS") /\
  (forall var,
     (~ In var (all_variables build) -> dict_get (impacts out) var = None) /\
     (In var (all_variables build) ->
        exists row, dict_get (impacts out) var = Some row /\
          forall t, dict_get row t = None <-> ~ In t (out_years out))) /\
  (forall var row,
     dict_get (levels out) var = Some row ->
     In var level_vars /\
     forall y, dict_get row y = None <-> ~ In y (years (deref w b))) /\
  merge_instruments float_str values = Ok (out_instruments out).
Proof.
  intros Hl E.
  destruct (simulate_loaded float_str round w b values name Hl) as (extra & E').
  rewrite E' in E. injection E as E _. clear E' extra.
  unfold simulate_on in E. rewrite !copy_id in E.
  set (base := deref w b) in *.
  apply bind_ok_inv in E. destruct E as (ins & Eins & E).
  apply bind_ok_inv in E. destruct E as (applied & Eapp & E).
  apply bind_ok_inv in E. destruct E as ([solved convs] & Esol & E).
  apply bind_ok_inv in E. destruct E as (bind & Eb & E).
  apply bind_ok_inv in E. destruct E as (sind & Es & E).
  apply bind_ok_inv in E. destruct E as (imp & Eimp & E).
  inversion E; subst out; clear E.
  cbn [out_name out_years baseline_indicators scenario_indicators impacts levels
       convergence out_instruments].
  destruct (extract_indicators_lengths _ _ _ Eb) as (B0 & B1 & B2 & B3 & B4).
  destruct (extract_indicators_lengths _ _ _ Es) as (S0 & S1 & S2 & S3 & S4).
  destruct (solve_frame_facts _ _ _ _ _ Esol) as (Hy & _ & _ & Hrep).
  pose proof (apply_instruments_years _ _ _ _ Eapp) as Hya.
  split; [reflexivity|]. split; [reflexivity|]. split; [auto|].
  split.
  { intros series Hin. cbn [In] in Hin.
    repeat (destruct Hin as [<- | Hin]; [assumption|]). destruct Hin. }
  split.
  { rewrite map_map. cbn [row_year]. exact Hrep. }
  split.
  { intros row Hin. apply in_map_iff in Hin. destruct Hin as (c & <- & Hc).
    cbn [row_status].
    assert (status c = CONVERGED \/ status c = MAX_ITERATIONS) as [-> | ->].
    { unfold solve in Esol.
      pose proof (solve_reports_status _ _ _ _ _ _ Esol (Forall_nil _)) as Hall.
      rewrite Forall_forall in Hall. now apply Hall. }
    - left; reflexivity.
    - right; reflexivity. }
  split.
  { intros var.
    exact (proj2 (proj2 (compute_impacts_outcome _ _ _ _)) imp Eimp var). }
  split; [|exact Eins].
  intros var row Hrow.
  destruct (to_dict_get solved level_vars var) as [Hyes Hno].
  assert (has_var solved var = true /\ (level_vars = [] \/ In var level_vars)) as Hcond.
  { destruct (has_var solved var) eqn:Hv.
    - destruct (in_dec string_dec var level_vars) as [Hin | Hin]; [auto|].
      exfalso. assert (Some row = None) as Hn; [|discriminate].
      rewrite <- Hrow. refine (Hno _). intros [_ [Hc | Hc]]; [discriminate | auto].
    - exfalso. assert (Some row = None) as Hn; [|discriminate].
      rewrite <- Hrow. refine (Hno _). intros [Hc _]. discriminate. }
  destruct (Hyes Hcond) as (row' & Hr' & Hcells).
  assert (Some row' = Some row) as Hsame by (rewrite <- Hr'; exact Hrow).
  inversion Hsame; subst row'; clear Hsame Hrow.
  split.
  { destruct Hcond as [_ [Hc | Hc]]; [discriminate | exact Hc]. }
  intros y. rewrite Hcells.
  assert (has_year solved y = true <-> In y (years base)) as Hyy.
  { rewrite has_year_In, Hy, Hya. tauto. }
  destruct (has_year solved y) eqn:Hh.
  - split; [discriminate|]. intros Hn. exfalso. apply Hn. now apply Hyy.
  - split; [|reflexivity]. intros _ Hin. apply Hyy in Hin. discriminate.
Qed.

(** The baseline indicators of a run are those [get_baseline_indicators]
    gives, before and after the run: the baseline side of the output is read
    from the loaded panel, on which the solver is never run. *)
Theorem baseline_indicators_agree (w : World) (b : loc)
    (values : option (dict string R)) (name : string) out w' :
  loaded w b ->
  simulate float_str round w values name = (Ok out, w') ->
  get_baseline_indicators w = (Ok (baseline_indicators out), w) /\
  get_baseline_indicators w' = (Ok (baseline_indicators out), w').
Proof.
  intros Hl E.
  destruct (simulate_loaded float_str round w b values name Hl) as (extra & E').
  rewrite E' in E. injection E as E Hw. clear E'.
  assert (_extract_indicators (deref w b) (sim_years (deref w b))
          = Ok (baseline_indicators out)) as Hb.
  { unfold simulate_on in E. rewrite !copy_id in E.
    apply bind_ok_inv in E. destruct E as (ins & _ & E).
    apply bind_ok_inv in E. destruct E as (applied & _ & E).
    apply bind_ok_inv in E. destruct E as ([solved convs] & _ & E).
    apply bind_ok_inv in E. destruct E as (bind & Eb & E).
    apply bind_ok_inv in E. destruct E as (sind & _ & E).
    apply bind_ok_inv in E. destruct E as (imp & _ & E).
    inversion E; subst out. exact Eb. }
  destruct Hl as [Hbase Hlt].
  assert (deref w' b = deref w b) as Hd.
  { subst w'. unfold deref. cbn [heap]. now apply nth_app_l. }
  split.
  - unfold get_baseline_indicators, baseline. rewrite Hbase, Hb. reflexivity.
  - unfold get_baseline_indicators, baseline.
    assert (engine_baseline w' = Some b) as -> by (subst w'; exact Hbase).
    rewrite Hd, Hb. reflexivity.
Qed.

End Output.

(** A run on the example panel that already solves the model returns. *)
Lemma simulate_panel_returns (float_str : R -> string) (round : R -> Z -> R) name :
  exists out w',
    simulate float_str round (engine_with (panel false 0.8 1.005 1)) None name
    = (Ok out, w').
Proof.
  assert (loaded (engine_with (panel false 0.8 1.005 1)) 0%nat) as Hl.
  { split; [reflexivity | cbn; lia]. }
  destruct (simulate_loaded float_str round _ _ None name Hl) as (extra & E).
  rewrite E. clear E.
  change (deref (engine_with (panel false 0.8 1.005 1)) 0%nat)
    with (panel false 0.8 1.005 1).
  unfold simulate_on. rewrite !copy_id. cbn [merge_instruments bind].
  rewrite apply_panel. cbn [bind].
  change (sim_years (panel false 0.8 1.005 1)) with [2013%Z].
  rewrite (equilibrium_solve (panel true 0.8 1.005 1) [2013%Z]).
  2:{ intros t [<- | []]. apply panel_equilibrium. }
  cbn [bind].
  destruct (extract_indicators_returns (panel false 0.8 1.005 1) [2013%Z])
    as (bi & ->).
  { apply panel_cols_ok. } { intros t [<- | []]. apply panel_year_ok. }
  destruct (extract_indicators_returns (panel true 0.8 1.005 1) [2013%Z])
    as (si & ->).
  { apply panel_cols_ok. } { intros t [<- | []]. apply panel_year_ok. }
  cbn [bind].
  destruct (compute_impacts_spec (panel false 0.8 1.005 1) (panel true 0.8 1.005 1)
              (all_variables engine_registry) [2013%Z]) as (imp & -> & _).
  { intros var t Hv [<- | []]. do 2 eexists.
    split; (apply get_ok; [|reflexivity]); apply cols_ok_has;
      try apply panel_cols_ok;
      apply existsb_exists; exists var; (split; [exact Hv | apply String.eqb_refl]). }
  cbn [bind]. eauto.
Qed.

Lemma simulate_output_shape_witness :
  loaded (engine_with (panel false 0.8 1.005 1)) 0%nat /\
  exists out w',
    simulate (fun _ => EmptyString) (fun x _ => x)
      (engine_with (panel false 0.8 1.005 1)) None "Scenario" = (Ok out, w') /\
    out_name out = "Scenario" /\
    out_years out = sim_years (deref (engine_with (panel false 0.8 1.005 1)) 0%nat).
Proof.
  assert (loaded (engine_with (panel false 0.8 1.005 1)) 0%nat) as Hl.
  { split; [reflexivity | cbn; lia]. }
  split; [exact Hl|].
  destruct (simulate_panel_returns (fun _ => EmptyString) (fun x _ => x) "Scenario")
    as (out & w' & E).
  exists out, w'. split; [exact E|].
  destruct (simulate_output_shape (fun _ => EmptyString) (fun x _ => x)
              _ _ None "Scenario" out w' Hl E) as (H1 & H2 & _).
  split; [exact H1 | exact H2].
Defined.

Lemma baseline_indicators_agree_witness :
  loaded (engine_with (panel false 0.8 1.005 1)) 0%nat /\
  exists out w',
    simulate (fun _ => EmptyString) (fun x _ => x)
      (engine_with (panel false 0.8 1.005 1)) None "Scenario" = (Ok out, w') /\
    get_baseline_indicators (engine_with (panel false 0.8 1.005 1))
    = (Ok (baseline_indicators out), engine_with (panel false 0.8 1.005 1)).
Proof.
  assert (loaded (engine_with (panel false 0.8 1.005 1)) 0%nat) as Hl.
  { split; [reflexivity | cbn; lia]. }
  split; [exact Hl|].
  destruct (simulate_panel_returns (fun _ => EmptyString) (fun x _ => x) "Scenario")
    as (out & w' & E).
  exists out, w'. split; [exact E|].
  exact (proj1 (baseline_indicators_agree (fun _ => EmptyString) (fun x _ => x)
                  _ _ None "Scenario" out w' Hl E)).
Defined.

(** ** What an equation can raise *)

Section RaisesOnly.

Variable E : exn -> Prop.
Hypothesis Hkey : E KeyError.













End RaisesOnly.









(** ** Positive levels stay positive *)

(** A log-change equation returns its lagged target when that is not
    positive, and a positive value otherwise. *)
Lemma log_change_value eq :
  In eq behavioral_log_change ->
  forall s t sc v, compute eq s t sc = Ok v ->
  exists prev, lag s (name eq) t 1 = Ok prev /\
               ((prev <= 0 /\ v = prev) \/ (0 < prev /\ 0 < v)).
Proof.
  intros Hin s t sc v. cbv [behavioral_log_change] in Hin. cbn [In] in Hin.
  repeat (destruct Hin as [<- | Hin];
    [ match goal with |- compute ?e _ _ _ = _ -> _ => unfold e end;
      cbn [compute name]; cbv beta zeta; intros E;
      apply bind_ok_inv in E; destruct E as (prev & Hp & E);
      exists prev; split; [exact Hp|];
      revert E; destruct (Rleb_spec prev 0) as [Hle | Hgt]; intros E;
      [ left; split; [exact Hle | now inversion E]
      | right; split; [lra|];
        repeat (apply bind_ok_inv in E; destruct E as (? & _ & E));
        cbv beta zeta in E; inversion E;
        apply Rmult_lt_0_compat; [lra | unfold safe_exp; apply exp_pos] ]
    | ]).
  destruct Hin.
Qed.

Lemma log_change_registered eq :
  In eq behavioral_log_change ->
  registry_get build (name eq) = Some eq /\
  existsb (String.eqb (name eq)) (pre_order build ++ post_order build) = false.
Proof.
  intros Hin. cbv [behavioral_log_change] in Hin. cbn [In] in Hin.
  unfold registry_get. rewrite equations_build.
  repeat (destruct Hin as [<- | Hin]; [split; reflexivity|]). destruct Hin.
Qed.

Section Positive.

Variable self : GaussSeidelSolver.
Hypothesis Hreg : solver_registry self = build.
Hypothesis Hrelax : 0 <= relaxation self <= 1.

Variable eq : Equation.
Hypothesis Heq : In eq behavioral_log_change.

Let positive (s : SimulationState) : Prop :=
  forall y, has_year s y = true -> 0 < cell s (name eq) y.

Lemma inter_step_positive t s m var s' m' :
  inter_step self t (s, m) var = Ok (s', m') -> positive s -> positive s'.
Proof.
  intros E Hpos. apply inter_step_inv in E.
  destruct E as [(_ & -> & _) | (eq0 & o & n & Ereg & Eo & En & -> & _)]; [exact Hpos|].
  intros y Hy. rewrite has_year_write in Hy.
  destruct (String.eqb_spec (name eq) var) as [Hv | Hne], (Z.eqb_spec y t) as [-> | Hyt];
    try (rewrite cell_write_other; [now apply Hpos | solve [auto]]).
  subst var. rewrite cell_write_same.
  rewrite Hreg, (proj1 (log_change_registered eq Heq)) in Ereg.
  inversion Ereg; subst eq0; clear Ereg.
  apply get_inv in Eo. destruct Eo as (_ & _ & <-).
  pose proof (Hpos t Hy) as Hold.
  destruct (log_change_value eq Heq _ _ _ _ En) as (prev & Hp & Hcase).
  apply get_inv in Hp. destruct Hp as (_ & Hy1 & <-).
  pose proof (Hpos _ Hy1) as Hprev.
  destruct Hcase as [[Hle _] | [_ Hn]]; [lra|]. nra.
Qed.

Lemma sweep_positive t s s' m :
  sweep self t s = Ok (s', m) -> positive s -> positive s'.
Proof.
  unfold sweep. intros E.
  refine (foldM_rel (inter_step self t)
            (fun a b => positive (fst a) -> positive (fst b)) _ _ _ _ (s, 0) (s', m) E).
  - auto.
  - auto.
  - intros [st mm] x [st' mm'] _ Ex. cbn [fst]. eapply inter_step_positive; eauto.
Qed.

Lemma inter_phase_positive t its :
  forall s it0 m0 s' res,
  inter_phase self t its s it0 m0 = Ok (s', res) -> positive s -> positive s'.
Proof.
  induction its as [|it its IH]; intros s it0 m0 s' res E Hin; cbn [inter_phase] in E.
  - inversion E; subst. exact Hin.
  - apply bind_ok_inv in E. destruct E as ([s1 m1] & Es & E).
    apply sweep_positive in Es; auto.
    destruct (m1 <? eps self); [inversion E; subst; exact Es | eapply IH; eauto].
Qed.

Lemma phase_positive t l s s' :
  existsb (String.eqb (name eq)) l = false ->
  foldM (recursive_step self t) l s = Ok s' -> positive s -> positive s'.
Proof.
  intros Hl E Hpos y Hy. apply (phase_modifies self) in E.
  rewrite (same_frame_has_year _ _ y (proj1 E)) in Hy.
  rewrite (modifies_other _ _ _ _ (name eq) y E) by (left; exact Hl).
  now apply Hpos.
Qed.

Lemma solve_year_positive t s s' conv :
  solve_year self s t = Ok (s', conv) -> positive s -> positive s'.
Proof.
  unfold solve_year. rewrite Hreg. intros E Hin.
  destruct (log_change_registered eq Heq) as [_ Hout].
  rewrite existsb_app in Hout. apply orb_false_iff in Hout. destruct Hout as [Hpre Hpost].
  apply bind_ok_inv in E. destruct E as (s1 & E1 & E).
  apply bind_ok_inv in E. destruct E as ([s2 [[it m] st]] & E2 & E).
  apply bind_ok_inv in E. destruct E as (s3 & E3 & E).
  inversion E; subst; clear E.
  eapply phase_positive; [exact Hpost | exact E3 |].
  eapply inter_phase_positive; [exact E2|].
  eapply phase_positive; [exact Hpre | exact E1 | exact Hin].
Qed.

Lemma solve_positive yrs s s' reports :
  solve self s yrs = Ok (s', reports) -> positive s -> positive s'.
Proof.
  unfold solve. intros E.
  refine (foldM_rel _ (fun a b : SimulationState * list YearConvergence =>
                         positive (fst a) -> positive (fst b)) _ _ _ _
            (s, []) (s', reports) E).
  - auto.
  - auto.
  - intros [st rs] y [st' rs'] _ Ey. cbn [fst].
    apply bind_ok_inv in Ey. destruct Ey as ([s1 c] & Ey & E1).
    inversion E1; subst; clear E1. eapply solve_year_positive; eauto.
Qed.

End Positive.

(** The eleven variables of the behavioral log-change equations (hours,
    wages, consumption, the two investments, exports, imports and four
    prices) stay positive: in a column that is positive in every year of
    the index before a solve, every cell is positive after it, whatever the
    other columns hold and for any relaxation factor between 0 and 1. *)
Theorem positive_levels_preserved (self : GaussSeidelSolver) s yrs s' reports eq :
  solver_registry self = build ->
  0 <= relaxation self <= 1 ->
  In eq behavioral_log_change ->
  solve self s yrs = Ok (s', reports) ->
  (forall y, has_year s y = true -> 0 < cell s (name eq) y) ->
  forall y, has_year s' y = true -> 0 < cell s' (name eq) y.
Proof.
  intros Hreg Hrelax Heq E Hpos.
  exact (solve_positive self Hreg Hrelax eq Heq yrs s s' reports E Hpos).
Qed.

Lemma positive_levels_preserved_witness :
  solver_registry engine_solver = build /\
  0 <= relaxation engine_solver <= 1 /\
  In behavioral.ConsumptionEquation behavioral_log_change /\
  (forall y,
     has_year (write (write (panel false 0 0 0) "C_" 2012%Z 1) "C_" 2013%Z 1) y = true ->
     0 < cell (write (write (panel false 0 0 0) "C_" 2012%Z 1) "C_" 2013%Z 1)
            (name behavioral.ConsumptionEquation) y) /\
  exists s' reports,
    solve engine_solver (write (write (panel false 0 0 0) "C_" 2012%Z 1) "C_" 2013%Z 1)
      [2013%Z] = Ok (s', reports) /\
    forall y, has_year s' y = true ->
      0 < cell s' (name behavioral.ConsumptionEquation) y.
Proof.
  set (p := write (write (panel false 0 0 0) "C_" 2012%Z 1) "C_" 2013%Z 1).
  assert (0 <= relaxation engine_solver <= 1) as Hr by (cbn; lra).
  assert (In behavioral.ConsumptionEquation behavioral_log_change) as Hin.
  { cbv [behavioral_log_change]. cbn [In]. tauto. }
  assert (forall y, has_year p y = true ->
            0 < cell p (name behavioral.ConsumptionEquation) y) as Hpos.
  { intros y Hy. apply has_year_In in Hy. cbn in Hy.
    destruct Hy as [<- | [<- | []]]; cbn; lra. }
  split; [reflexivity|]. split; [exact Hr|]. split; [exact Hin|]. split; [exact Hpos|].
  destruct (solve_returns engine_solver eq_refl eq_refl p [2013%Z]) as ([s' reports] & E & _).
  { intros t [<- | []]. split; [reflexivity|]. split; [split; reflexivity|].
    intros Hx. discriminate Hx. }
  exists s', reports. split; [exact E|].
  exact (positive_levels_preserved engine_solver p [2013%Z] s' reports
           behavioral.ConsumptionEquation eq_refl Hr Hin E Hpos).
Defined.
